(** * CutOut: heuristic background removal, a shallow embedding

    The development models the two services of the repository,
    [ImageProcessor] (the cascade of classical heuristics) and
    [AIBackgroundRemover] (the multi-layer synthesizer and its
    morphological clean-up), and settles the properties stated about
    them.

    Conventions of the embedding.
    - A Node [Buffer] is a [list Z] of bytes.  Reading outside the buffer,
      or at an index that is not an integer, yields [undefined], modelled
      by [None]; writing there leaves the bytes untouched; a stored value
      is reduced modulo 256.
    - In the cascade a JavaScript number is an exact rational ([Q]);
      [NaN] and [undefined] are [None], and [0.3] is the rational 3/10.
      Where a byte the code stores depends on IEEE rounding, the code is
      modelled in binary64 instead: module [Double] holds the doubles
      and the mask builder [createProtectedMask] computed with them.
    - In [ImageProcessor], [Math.sqrt] only ever occurs under a
      comparison or a rounding, so it is modelled through the comparison
      of squares ([sqrt_le]); the link to the real square root is proved
      ([sqrt_le_spec]).
    - The layers of the synthesizer are [Float32Array]s of scores built
      with [Math.sqrt] and [Math.exp]; they are modelled over the real
      numbers, and [Math.random()] by the sequence of the values it
      returns.
    - A [for] loop is a fold over the list of the values its counter
      takes; a [while] loop over a work queue takes a fuel argument, and
      enough fuel is supplied by the caller. *)

From Stdlib Require Import ZArith QArith Qround Qminmax Qcanon Qreals Reals Lra Lia.
From Stdlib Require Lqa SpecFloat.
From stdpp Require Import base list list_numbers gmap strings sorting.

Local Open Scope Z_scope.

(** ** JavaScript primitives *)

Module JS.

(** [Buffer.alloc(n, v)] *)
Definition alloc (n v : Z) : list Z := replicate (Z.to_nat n) v.

(** [b[i]] for an integer [i] *)
Definition get (b : list Z) (i : Z) : option Z :=
  if i <? 0 then None else b !! Z.to_nat i.

(** [b[i] = v] for an integer [i] *)
Definition set (b : list Z) (i v : Z) : list Z :=
  if i <? 0 then b else <[Z.to_nat i := v mod 256]> b.

(** The values of [c] in [for (let c = lo; c < hi; c++)]. *)
Definition range (lo hi : Z) : list Z := seqZ lo (hi - lo).

(** [for (y of ys) for (x of xs) body] threading the state [s]. *)
Definition forYX {S C : Type} (ys xs : list C) (body : S -> C -> C -> S) (s : S) : S :=
  foldl (fun s y => foldl (fun s x => body s x y) s xs) s ys.

(** [Math.min] and [Math.max] on possibly undefined operands: an
    undefined operand gives [NaN]. *)
Definition min (a b : option Z) : option Z :=
  match a, b with Some a, Some b => Some (Z.min a b) | _, _ => None end.

Definition max (a b : option Z) : option Z :=
  match a, b with Some a, Some b => Some (Z.max a b) | _, _ => None end.

(** The integer a [Buffer] stores for a number: [NaN] is stored as 0. *)
Definition to_int (v : option Z) : Z :=
  match v with Some v => v | None => 0 end.

(** Numeric comparisons [a <= b] and [a < b]. *)
Definition leb (a b : Q) : bool := Qle_bool a b.
Definition ltb (a b : Q) : bool := negb (Qle_bool b a).

(** [Math.sqrt(v) <= t] and [Math.sqrt(v) >= c] for [v >= 0], through
    the squares. *)
Definition sqrt_le (v t : Q) : bool := leb 0 t && leb v (t * t).
Definition sqrt_ge (v c : Q) : bool := leb c 0 || leb (c * c) v.

(** The same on a possibly [NaN] operand: a comparison with [NaN] is
    false. *)
Definition sqrt_le_nan (v : option Q) (t : Q) : bool :=
  match v with Some v => sqrt_le v t | None => false end.

(** [Math.round(q)]: the nearest integer, halves upwards. *)
Definition round (q : Q) : Z := Qfloor (q + (1 # 2)).

(** [Math.round((Math.sqrt(v) - a) / b * 255)] when [0 <= a], [0 < b] and
    [a < Math.sqrt(v) <= a + b]: the result [k] lies in 0..255 and is
    the number of [j] in 1..255 with [j - 1/2 <= (Math.sqrt(v) - a) / b * 255],
    that is with [a + (j - 1/2) * b / 255 <= Math.sqrt(v)]. *)
Definition round_ramp (v a b : Q) : Z :=
  Z.of_nat (length (List.filter
    (fun j : Z => sqrt_ge v (a + (inject_Z j - (1 # 2)) * b / 255)) (range 1 256))).

(** The integer a number is, if it is one. *)
Definition is_int (q : Q) : option Z :=
  let q' := Qred q in
  if (Qden q' =? 1)%positive then Some (Qnum q') else None.

(** [b[q]] and [b[q] = v] for a number [q]: a key that is not an integer
    index reads [undefined] and stores nothing in the bytes. *)
Definition getQ (b : list Z) (q : Q) : option Z :=
  match is_int q with Some i => get b i | None => None end.

Definition setQ (b : list Z) (q : Q) (v : Z) : list Z :=
  match is_int q with Some i => set b i v | None => b end.

(** The values of [c] in [for (let c = lo; c < hi; c += step)], for a
    positive [step]. *)
Definition qrange (lo hi step : Q) : list Q :=
  (fun k : Z => Qred (lo + inject_Z k * step)) <$>
  seqZ 0 (Qceiling ((hi - lo) / step)).

(** [v === 0], and the truth value of [v] in a condition. *)
Definition is_zero (v : option Z) : bool :=
  match v with Some 0 => true | _ => false end.

Definition truthy (v : option Z) : bool :=
  match v with Some v => negb (v =? 0) | None => false end.

(** [while (queue.length > 0 && cont) { const a = queue.shift(); ... }]
    where the body either [continue]s without touching the state
    ([None]) or updates the state and pushes new items at the back of the
    queue. *)
Fixpoint whileQueue {A S : Type} (cont : S -> bool)
    (body : A -> S -> option (S * list A))
    (fuel : nat) (queue : list A) (s : S) : option S :=
  match queue with
  | [] => Some s
  | a :: queue' =>
      if cont s then
        match fuel with
        | O => None
        | Datatypes.S fuel' =>
            match body a s with
            | None => whileQueue cont body fuel' queue' s
            | Some (s', new) => whileQueue cont body fuel' (queue' ++ new) s'
            end
        end
      else Some s
  end.

(** [array.sort((a, b) => key(b) - key(a))]: a stable sort by
    descending key. *)
Fixpoint insert_desc {A : Type} (key : A -> Q) (a : A) (l : list A) : list A :=
  match l with
  | [] => [a]
  | y :: l' => if ltb (key a) (key y) then y :: insert_desc key a l'
               else a :: y :: l'
  end.

Definition sort_desc {A : Type} (key : A -> Q) (l : list A) : list A :=
  foldr (insert_desc key) [] l.

(** A [Float32Array]: a list of numbers, here real numbers (the
    rounding to single precision is not modelled).  [falloc n] is
    [new Float32Array(n)]. *)
Definition falloc (n : Z) : list R := replicate (Z.to_nat n) 0%R.

Definition fget (a : list R) (i : Z) : R :=
  if i <? 0 then 0%R else default 0%R (a !! Z.to_nat i).

Definition fset (a : list R) (i : Z) (v : R) : list R :=
  if i <? 0 then a else <[Z.to_nat i := v]> a.

(** The number read from a byte buffer; the reads of the synthesizer
    stay inside the raster, a read outside is not modelled and gives
    0. *)
Definition num (b : list Z) (i : Z) : R := IZR (to_int (get b i)).

(** A loop that [return]s at the first item for which the body yields a
    result. *)
Fixpoint firstSome {A B : Type} (body : A -> option B) (items : list A) : option B :=
  match items with
  | [] => None
  | a :: items' =>
      match body a with Some v => Some v | None => firstSome body items' end
  end.

End JS.

(** ** ImageProcessor: the cascade *)

Module ImageProcessor.

(** [info] of the decoded raster. *)
Record Info := { width : Z; height : Z; channels : Z }.

(** A colour [{ r, g, b }], also used for a sample [[r, g, b]]; a
    channel read outside the buffer is [undefined] and turns into [NaN]
    in arithmetic. *)
Record Color := { r : option Z; g : option Z; b : option Z }.

Record ProcessResult :=
  { success : bool; method : option string; error : option string }.

(** What lies outside the repository: the edge buffer the [sharp]
    pipeline of [aggressiveEdgeProcessing] returns ([None] when it
    throws), whether [toFile] succeeds on a raster ([false] when it
    throws), and the region count IEEE arithmetic produces in
    [countConnectedRegions] when [Math.sqrt(mask.length)] is not an
    integer. *)
Record Sharp :=
  { edgeBuffer : option (list Z);
    toFile : list Z -> bool;
    fractionalRegions : list Z -> Z }.

(** [[data[idx], data[idx + 1], data[idx + 2]]] *)
Definition at_ (data : list Z) (idx : Z) : Color :=
  {| r := JS.get data idx; g := JS.get data (idx + 1); b := JS.get data (idx + 2) |}.

Definition atQ (data : list Z) (idx : Q) : Color :=
  {| r := JS.getQ data idx; g := JS.getQ data (idx + 1); b := JS.getQ data (idx + 2) |}.

Definition sub (a c : option Z) : option Z :=
  match a, c with Some a, Some c => Some (a - c) | _, _ => None end.

(** [Math.pow(p.r - c.r, 2) * 0.3 + Math.pow(p.g - c.g, 2) * 0.59 +
    Math.pow(p.b - c.b, 2) * 0.11], the square of the perceptual
    distance. *)
Definition weighted (p c : Color) : option Q :=
  match sub (r p) (r c), sub (g p) (g c), sub (b p) (b c) with
  | Some dr, Some dg, Some db =>
      Some (inject_Z (dr ^ 2) * (3 # 10) + inject_Z (dg ^ 2) * (59 # 100)
            + inject_Z (db ^ 2) * (11 # 100))%Q
  | _, _, _ => None
  end.

(** [Math.pow(p.r - c.r, 2) + Math.pow(p.g - c.g, 2) + Math.pow(p.b - c.b, 2)] *)
Definition euclid (p c : Color) : option Q :=
  match sub (r p) (r c), sub (g p) (g c), sub (b p) (b c) with
  | Some dr, Some dg, Some db => Some (inject_Z (dr ^ 2 + dg ^ 2 + db ^ 2))
  | _, _, _ => None
  end.

(** [(r + g + b) / 3] and [|r - g| + |g - b| + |r - b|] of a pixel. *)
Definition lightness (p : Color) : option Q :=
  match r p, g p, b p with
  | Some pr, Some pg, Some pb => Some (inject_Z (pr + pg + pb) / 3)%Q
  | _, _, _ => None
  end.

Definition colorVariation (p : Color) : option Q :=
  match r p, g p, b p with
  | Some pr, Some pg, Some pb =>
      Some (inject_Z (Z.abs (pr - pg) + Z.abs (pg - pb) + Z.abs (pr - pb)))
  | _, _, _ => None
  end.

(** [v > c] and [v < c] for a possibly [NaN] number [v]. *)
Definition gt (v : option Q) (c : Q) : bool :=
  match v with Some v => JS.ltb c v | None => false end.

Definition lt (v : option Q) (c : Q) : bool :=
  match v with Some v => JS.ltb v c | None => false end.

(** [Math.round(v / step) * step] *)
Definition quantize (step : Z) (v : option Z) : option Z :=
  match v with
  | Some v => Some (JS.round (inject_Z v / inject_Z step) * step)
  | None => None
  end.

Definition quantizeColor (step : Z) (p : Color) : Color :=
  {| r := quantize step (r p); g := quantize step (g p); b := quantize step (b p) |}.

Definition Color_eqb (c d : Color) : bool :=
  bool_decide (r c = r d) && bool_decide (g c = g d) && bool_decide (b c = b d).

(** [counts[key] = (counts[key] || 0) + 1] on an object or [Map] whose
    entries are enumerated in insertion order. *)
Fixpoint increment (key : Color) (counts : list (Color * Z)) : list (Color * Z) :=
  match counts with
  | [] => [(key, 1)]
  | (k, n) :: counts' =>
      if Color_eqb k key then (k, n + 1) :: counts'
      else (k, n) :: increment key counts'
  end.

Definition sampleBackgroundRegions (data : list Z) (width height channels : Z)
    : list Color :=
  let borderSize := Qmax 10 (Qmin (inject_Z width) (inject_Z height) * (5 # 100)) in
  let regions :=
    [ (0, 0, borderSize * 2, borderSize * 2);
      (inject_Z width - borderSize * 2, 0, borderSize * 2, borderSize * 2);
      (0, inject_Z height - borderSize * 2, borderSize * 2, borderSize * 2);
      (inject_Z width - borderSize * 2, inject_Z height - borderSize * 2,
       borderSize * 2, borderSize * 2) ]%Q in
  foldl (fun samples (region : Q * Q * Q * Q) =>
    let '(rx, ry, rw, rh) := region in
    JS.forYX (JS.qrange (Qmax 0 ry) (Qmin (inject_Z height) (ry + rh)) 2)
             (JS.qrange (Qmax 0 rx) (Qmin (inject_Z width) (rx + rw)) 2)
      (fun samples x y =>
         let idx := ((y * inject_Z width + x) * inject_Z channels)%Q in
         if JS.ltb (idx + 2) (inject_Z (Z.of_nat (length data)))
         then samples ++ [atQ data idx] else samples)
      samples)
    [] regions.

Definition analyzeColorClusters (pixels : list Color) : list (Color * Z) :=
  let clusters :=
    foldl (fun clusters pixel => increment (quantizeColor 15 pixel) clusters) [] pixels in
  take 5 (JS.sort_desc (fun c : Color * Z => inject_Z c.2) clusters).

Definition createProtectedZone (width height : Z) : list Z :=
  let protectSize := (Qmin (inject_Z width) (inject_Z height) * (1 # 2))%Q in
  let centerX := (inject_Z width / 2)%Q in
  let centerY := (inject_Z height / 2)%Q in
  JS.forYX (JS.range 0 height) (JS.range 0 width)
    (fun protectedZone x y =>
       let idx := y * width + x in
       (* distanceFromCenter <= 1, with distanceFromCenter the square
          root of the sum below *)
       if JS.sqrt_le (((inject_Z x - centerX) / (protectSize / 2)) ^ 2 +
                      ((inject_Z y - centerY) / (protectSize / 2)) ^ 2)%Q 1
       then JS.set protectedZone idx 1 else protectedZone)
    (JS.alloc (width * height) 0).

Definition createProtectedMask (data : list Z) (width height channels : Z)
    (targetColor : Color) (tolerance : Q) : list Z :=
  let protectedZone := createProtectedZone width height in
  foldl (fun mask i =>
    let pixelIdx := i * channels in
    if JS.truthy (JS.get protectedZone i) then mask
    else
      let distance2 := weighted (at_ data pixelIdx) targetColor in
      if JS.sqrt_le_nan distance2 (tolerance * (6 # 10)) then JS.set mask i 0
      else if JS.sqrt_le_nan distance2 tolerance then
        JS.set mask i (JS.round_ramp (default 0%Q distance2)
                         (tolerance * (6 # 10)) (tolerance * (4 # 10)))
      else mask)
    (JS.alloc (width * height) 255) (JS.range 0 (width * height)).

(** One iteration of the [while] loop of [measureHoleSize] on the item
    [{ x, y }] taken from the queue: the state is the visited set and
    the hole size. *)
Definition measureStep (mask : list Z) (width height : Z) (p : Q * Q)
    (s : gset Z * Z) : option (gset Z * Z * list (Q * Q)) :=
  let '(x, y) := p in
  let '(visited, holeSize) := s in
  let idx := (y * inject_Z width + x)%Q in
  match JS.is_int idx with
  | Some i =>
      if JS.ltb x 0 || JS.leb (inject_Z width) x ||
         JS.ltb y 0 || JS.leb (inject_Z height) y ||
         bool_decide (i ∈ visited) || negb (JS.is_zero (JS.get mask i))
      then None
      else Some (({[ i ]} ∪ visited, holeSize + 1),
                 [ (x + 1, y); (x - 1, y); (x, y + 1); (x, y - 1) ]%Q)
  | None => None
  end.

Definition measureLoop (mask : list Z) (startX startY : Q) (width height : Z)
    (visited : gset Z) : option (gset Z * Z) :=
  let fuel := S (4 * length mask) in
  JS.whileQueue (fun _ => true) (measureStep mask width height)
    fuel [(startX, startY)] (visited, 0).

(** [measureHoleSize] returns the hole size and updates the visited
    set. *)
Definition measureHoleSize (mask : list Z) (startX startY : Q) (width height : Z)
    (visited : gset Z) : Z * gset Z :=
  match measureLoop mask startX startY width height visited with
  | Some (visited', holeSize) => (holeSize, visited')
  | None => (0, visited)
  end.

(** The scan of [checkForProblematicHoles] over the points of the core
    window, with its early [return true]. *)
Fixpoint scanHoles (mask : list Z) (width height : Z) (points : list (Q * Q))
    (visited : gset Z) : bool :=
  match points with
  | [] => false
  | (x, y) :: points' =>
      let idx := (y * inject_Z width + x)%Q in
      match JS.is_int idx with
      | Some i =>
          if JS.is_zero (JS.get mask i) && negb (bool_decide (i ∈ visited)) then
            let '(holeSize, visited') := measureHoleSize mask x y width height visited in
            let imageArea := width * height in
            let holeRatio := (inject_Z holeSize / inject_Z imageArea)%Q in
            if JS.ltb (5 # 100) holeRatio then true
            else scanHoles mask width height points' visited'
          else scanHoles mask width height points' visited
      | None => scanHoles mask width height points' visited
      end
  end.

(** The points [(x, y)] of [for (y ...) for (x ...)] over a centred
    window of side [centerSize]. *)
Definition centerWindow (width height : Z) (centerSize : Q) : list (Q * Q) :=
  let centerX := (inject_Z width / 2 - centerSize / 2)%Q in
  let centerY := (inject_Z height / 2 - centerSize / 2)%Q in
  y ← JS.qrange (Qmax 0 centerY) (Qmin (inject_Z height) (centerY + centerSize)) 1;
  x ← JS.qrange (Qmax 0 centerX) (Qmin (inject_Z width) (centerX + centerSize)) 1;
  [(x, y)].

Definition checkForProblematicHoles (mask : list Z) (width height : Z) : bool :=
  let centerSize := (Qmin (inject_Z width) (inject_Z height) * (25 # 100))%Q in
  scanHoles mask width height (centerWindow width height centerSize) ∅.

Definition validateObjectPreservation (mask : list Z) (width height : Z) : bool :=
  let centerSize := (Qmin (inject_Z width) (inject_Z height) * (3 # 10))%Q in
  let '(removedInCenter, totalCenterPixels) :=
    foldl (fun (c : Z * Z) (p : Q * Q) =>
      let idx := (p.2 * inject_Z width + p.1)%Q in
      (if JS.is_zero (JS.getQ mask idx) then c.1 + 1 else c.1, c.2 + 1))
      (0, 0) (centerWindow width height centerSize) in
  let centerRemovalRatio :=
    if 0 <? totalCenterPixels
    then (inject_Z removedInCenter / inject_Z totalCenterPixels)%Q else 0%Q in
  if JS.ltb (12 # 100) centerRemovalRatio then false
  else if checkForProblematicHoles mask width height then false
  else true.

Definition isLikelyBackgroundPixel (data : list Z) (x y width height channels : Z)
    : bool :=
  let idx := (y * width + x) * channels in
  let p := at_ data idx in
  gt (lightness p) 120 || lt (colorVariation p) 50.

(** The [while] loop of [enhancedFloodFill]: the state is the mask, the
    visited set and [processedPixels]. *)
Definition floodLoop (data : list Z) (mask : list Z) (visited : gset Z)
    (protectedZone : list Z) (startX startY width height channels : Z)
    (tolerance : Q) : option (list Z * gset Z * Z) :=
  let startIdx := (startY * width + startX) * channels in
  let startColor := at_ data startIdx in
  let maxPixels := (inject_Z (width * height) * (65 # 100))%Q in
  let fuel := S (4 * length mask) in
  JS.whileQueue
    (fun s : list Z * gset Z * Z => JS.ltb (inject_Z s.2) maxPixels)
    (fun (p : Z * Z) (s : list Z * gset Z * Z) =>
       let '(x, y) := p in
       let '(mask, visited, processedPixels) := s in
       let index := y * width + x in
       if (x <? 0) || (width <=? x) || (y <? 0) || (height <=? y) ||
          bool_decide (index ∈ visited) || JS.truthy (JS.get protectedZone index)
       then None
       else
         let pixelIdx := index * channels in
         let pixelColor := at_ data pixelIdx in
         let distance2 := weighted pixelColor startColor in
         let edgeDistance := Z.min (Z.min x (width - x)) (Z.min y (height - y)) in
         let maxEdgeDistance := (inject_Z (Z.min width height) * (4 # 10))%Q in
         let distanceFactor := Qmin 1 (inject_Z edgeDistance / maxEdgeDistance) in
         let adjustedTolerance := (tolerance * (1 - distanceFactor * (2 # 10)))%Q in
         if JS.sqrt_le_nan distance2 adjustedTolerance then
           Some ((JS.set mask index 0, {[ index ]} ∪ visited, processedPixels + 1),
                 [ (x + 1, y); (x - 1, y); (x, y + 1); (x, y - 1) ])
         else None)
    fuel [(startX, startY)] (mask, visited, 0).

(** [enhancedFloodFill] updates the mask and the visited set it is
    given. *)
Definition enhancedFloodFill (data : list Z) (mask : list Z) (visited : gset Z)
    (protectedZone : list Z) (startX startY width height channels : Z)
    (tolerance : Q) : list Z * gset Z :=
  match floodLoop data mask visited protectedZone startX startY
          width height channels tolerance with
  | Some (mask', visited', _) => (mask', visited')
  | None => (mask, visited)
  end.

Definition floodFillStartPoints (data : list Z) (width height channels : Z)
    : list (Z * Z) :=
  let startPoints :=
    [ (0, 0); (width - 1, 0); (0, height - 1); (width - 1, height - 1) ] in
  let edgeMidpoints :=
    [ (width / 2, 0); (width / 2, height - 1);
      (0, height / 2); (width - 1, height / 2) ] in
  let startPoints :=
    foldl (fun startPoints (point : Z * Z) =>
      if isLikelyBackgroundPixel data point.1 point.2 width height channels
      then startPoints ++ [point] else startPoints) startPoints edgeMidpoints in
  let quarterPoints :=
    [ (width / 4, 0); (3 * width / 4, 0);
      (width / 4, height - 1); (3 * width / 4, height - 1);
      (0, height / 4); (0, 3 * height / 4);
      (width - 1, height / 4); (width - 1, 3 * height / 4) ] in
  foldl (fun startPoints (point : Z * Z) =>
    if isLikelyBackgroundPixel data point.1 point.2 width height channels
    then startPoints ++ [point] else startPoints) startPoints quarterPoints.

Definition createEnhancedFloodFillMask (data : list Z) (width height channels : Z)
    : list Z :=
  let mask := JS.alloc (width * height) 255 in
  let protectedZone := createProtectedZone width height in
  let startPoints := floodFillStartPoints data width height channels in
  (foldl (fun (s : list Z * gset Z) (start : Z * Z) =>
     enhancedFloodFill data s.1 s.2 protectedZone start.1 start.2
       width height channels 40)
     (mask, ∅) startPoints).1.

Definition createEnhancedProtectedMask (data : list Z) (width height channels : Z)
    (targetColor : Color) (tolerance : Q) : list Z :=
  let protectedZone := createProtectedZone width height in
  foldl (fun mask i =>
    let pixelIdx := i * channels in
    if JS.truthy (JS.get protectedZone i) then mask
    else
      let distance2 := weighted (at_ data pixelIdx) targetColor in
      let x := i mod width in
      let y := i / width in
      let edgeDistance := Z.min (Z.min x (width - x)) (Z.min y (height - y)) in
      let maxEdgeDistance := (inject_Z (Z.min width height) * (35 # 100))%Q in
      if JS.sqrt_le_nan distance2 (tolerance * (7 # 10)) then JS.set mask i 0
      else if JS.sqrt_le_nan distance2 tolerance &&
              JS.leb (inject_Z edgeDistance) maxEdgeDistance then
        JS.set mask i (JS.round_ramp (default 0%Q distance2)
                         (tolerance * (7 # 10)) (tolerance * (3 # 10)))
      else mask)
    (JS.alloc (width * height) 255) (JS.range 0 (width * height)).

(** [matches / total] of a loop that counts the visited pixels within
    [tolerance] of the target (Euclidean distance), 0 when the loop
    visits none. *)
Definition matchRatio (data : list Z) (channels : Z) (targetColor : Color)
    (tolerance : Q) (indices : list Q) : Q :=
  let '(matches, total) :=
    foldl (fun (c : Z * Z) (pixel : Q) =>
      let idx := (pixel * inject_Z channels)%Q in
      (if JS.sqrt_le_nan (euclid (atQ data idx) targetColor) tolerance
       then c.1 + 1 else c.1, c.2 + 1)) (0, 0) indices in
  if 0 <? total then (inject_Z matches / inject_Z total)%Q else 0%Q.

Definition calculateEdgePresence (data : list Z) (width height channels : Z)
    (targetColor : Color) (tolerance : Q) : Q :=
  matchRatio data channels targetColor tolerance
    (x ← JS.range 0 width; y ← JS.range 0 height;
     if (x =? 0) || (x =? width - 1) || (y =? 0) || (y =? height - 1)
     then [inject_Z (y * width + x)] else []).

(** The four corner origins of [calculateCornerConcentration],
    [sampleCorners] and [createEnhancedCornerMask]. *)
Definition corners (width height : Z) (cornerSize : Q) : list (Q * Q) :=
  [ (0, 0); (inject_Z width - cornerSize, 0); (0, inject_Z height - cornerSize);
    (inject_Z width - cornerSize, inject_Z height - cornerSize) ]%Q.

Definition calculateCornerConcentration (data : list Z) (width height channels : Z)
    (targetColor : Color) (tolerance : Q) : Q :=
  let cornerSize := (Qmin (inject_Z width) (inject_Z height) * (1 # 10))%Q in
  matchRatio data channels targetColor tolerance
    (corner ← corners width height cornerSize;
     y ← JS.qrange corner.2 (Qmin (inject_Z height) (corner.2 + cornerSize)) 1;
     x ← JS.qrange corner.1 (Qmin (inject_Z width) (corner.1 + cornerSize)) 1;
     [(y * inject_Z width + x)%Q]).

Definition calculateCenterAbsence (data : list Z) (width height channels : Z)
    (targetColor : Color) (tolerance : Q) : Q :=
  let centerSize := (Qmin (inject_Z width) (inject_Z height) * (3 # 10))%Q in
  let centerPresence :=
    matchRatio data channels targetColor tolerance
      ((fun p : Q * Q => (p.2 * inject_Z width + p.1)%Q) <$>
       centerWindow width height centerSize) in
  (1 - centerPresence)%Q.

Definition calculateEnhancedBackgroundScore (data : list Z) (width height channels : Z)
    (targetColor : Color) : Q :=
  let tolerance := 40%Q in
  let edgePresence :=
    calculateEdgePresence data width height channels targetColor tolerance in
  let score := (0 + edgePresence * (35 # 100))%Q in
  let cornerConcentration :=
    calculateCornerConcentration data width height channels targetColor tolerance in
  let score := (score + cornerConcentration * (3 # 10))%Q in
  let centerAbsence :=
    calculateCenterAbsence data width height channels targetColor tolerance in
  let score := (score + centerAbsence * (25 # 100))%Q in
  let isNeutral :=
    match sub (r targetColor) (g targetColor), sub (g targetColor) (b targetColor) with
    | Some d1, Some d2 => (Z.abs d1 <? 30) && (Z.abs d2 <? 30)
    | _, _ => false
    end in
  let score :=
    if gt (lightness targetColor) 150 || isNeutral then (score + (1 # 10))%Q
    else score in
  Qmin score 1.

Definition getMostFrequentColor (pixels : list Color) : option Color :=
  if bool_decide (pixels = []) then None
  else
    let colorCounts :=
      foldl (fun colorCounts pixel => increment (quantizeColor 20 pixel) colorCounts)
        [] pixels in
    match JS.sort_desc (fun c : Color * Z => inject_Z c.2) colorCounts with
    | mostFrequent :: _ => Some mostFrequent.1
    | [] => None
    end.

(** The samples [getCornerDominantColor] and [sampleCorners] collect
    over one corner block, at a stride of 2. *)
Definition cornerSamples (data : list Z) (startX startY size : Q)
    (width height channels : Z) : list Color :=
  JS.forYX (JS.qrange startY (Qmin (inject_Z height) (startY + size)) 2)
           (JS.qrange startX (Qmin (inject_Z width) (startX + size)) 2)
    (fun samples x y =>
       let idx := ((y * inject_Z width + x) * inject_Z channels)%Q in
       if JS.ltb (idx + 2) (inject_Z (Z.of_nat (length data)))
       then samples ++ [atQ data idx] else samples)
    [].

Definition sampleCorners (data : list Z) (width height channels : Z) : list Color :=
  let cornerSize := Qmax 20 (Qmin (inject_Z width) (inject_Z height) * (1 # 10)) in
  corner ← corners width height cornerSize;
  cornerSamples data corner.1 corner.2 cornerSize width height channels.

Definition getCornerDominantColor (data : list Z) (startX startY size : Q)
    (width height channels : Z) : option Color :=
  getMostFrequentColor (cornerSamples data startX startY size width height channels).

Definition calculateColorCoverage (data : list Z) (width height channels : Z)
    (targetColor : Color) (tolerance : Q) : Q :=
  let totalPixels := width * height in
  let matchCount :=
    foldl (fun matchCount i =>
      let pixelIdx := i * channels in
      if JS.sqrt_le_nan (euclid (at_ data pixelIdx) targetColor) tolerance
      then matchCount + 1 else matchCount) 0 (JS.range 0 totalPixels) in
  (inject_Z matchCount / inject_Z totalPixels * 100)%Q.

Definition findMostLikelyBackgroundColor (data : list Z) (width height channels : Z)
    : option Color :=
  let cornerSamples := sampleCorners data width height channels in
  match getMostFrequentColor cornerSamples with
  | Some cornerColor =>
      let coverage :=
        calculateColorCoverage data width height channels cornerColor 50 in
      if JS.leb 15 coverage then Some cornerColor else None
  | None => None
  end.

Definition createLightBackgroundMask (data : list Z) (width height channels : Z)
    : list Z :=
  let protectedZone := createProtectedZone width height in
  foldl (fun mask i =>
    let pixelIdx := i * channels in
    if JS.truthy (JS.get protectedZone i) then mask
    else
      let p := at_ data pixelIdx in
      if gt (lightness p) 120 || lt (colorVariation p) 30 then
        let x := i mod width in
        let y := i / width in
        let edgeDistance := Z.min (Z.min x (width - x)) (Z.min y (height - y)) in
        let edgeBonus := Qmax 0 ((50 - inject_Z edgeDistance) / 50) in
        if gt (lightness p) 140 || lt (colorVariation p) 20 ||
           JS.ltb (3 # 10) edgeBonus
        then JS.set mask i 0 else mask
      else mask)
    (JS.alloc (width * height) 255) (JS.range 0 (width * height)).

(** [v < c] for a possibly undefined byte [v]. *)
Definition below (v : option Z) (c : Z) : bool :=
  match v with Some v => v <? c | None => false end.

Definition hasLowEdgeNeighbors (edgeData : list Z) (x y width height : Z) : bool :=
  let '(lowEdgeCount, totalNeighbors) :=
    JS.forYX (JS.range (-2) 3) (JS.range (-2) 3)
      (fun (c : Z * Z) dx dy =>
         let nx := x + dx in
         let ny := y + dy in
         if (0 <=? nx) && (nx <? width) && (0 <=? ny) && (ny <? height) then
           let nIdx := ny * width + nx in
           (if below (JS.get edgeData nIdx) 25 then c.1 + 1 else c.1, c.2 + 1)
         else c)
      (0, 0) in
  (0 <? totalNeighbors) &&
  JS.leb (7 # 10) (inject_Z lowEdgeCount / inject_Z totalNeighbors).

Definition createEnhancedEdgeMask (data edgeData : list Z) (width height channels : Z)
    : list Z :=
  let protectedZone := createProtectedZone width height in
  let borderSize := (inject_Z (Z.min width height) * (3 # 10))%Q in
  JS.forYX (JS.range 0 height) (JS.range 0 width)
    (fun mask x y =>
       let idx := y * width + x in
       if JS.truthy (JS.get protectedZone idx) then mask
       else
         let edgeValue := JS.get edgeData idx in
         if below edgeValue 40 then
           let nearBorder :=
             JS.ltb (inject_Z x) borderSize ||
             JS.leb (inject_Z width - borderSize) (inject_Z x) ||
             JS.ltb (inject_Z y) borderSize ||
             JS.leb (inject_Z height - borderSize) (inject_Z y) in
           if nearBorder || hasLowEdgeNeighbors edgeData x y width height
           then JS.set mask idx 0 else mask
         else mask)
    (JS.alloc (width * height) 255).

Definition createEnhancedCornerMask (data : list Z) (width height channels : Z)
    : list Z :=
  let cornerSize := (Qmin (inject_Z width) (inject_Z height) * (1 # 10))%Q in
  foldl (fun mask (corner : Q * Q) =>
    match getCornerDominantColor data corner.1 corner.2 cornerSize
            width height channels with
    | Some cornerColor =>
        JS.forYX (JS.qrange corner.2 (Qmin (inject_Z height) (corner.2 + cornerSize)) 1)
                 (JS.qrange corner.1 (Qmin (inject_Z width) (corner.1 + cornerSize)) 1)
          (fun mask x y =>
             let idx := (y * inject_Z width + x)%Q in
             let pixelIdx := (idx * inject_Z channels)%Q in
             if JS.sqrt_le_nan (euclid (atQ data pixelIdx) cornerColor) 40
             then JS.setQ mask idx 0 else mask)
          mask
    | None => mask
    end)
    (JS.alloc (width * height) 255) (corners width height cornerSize).

Definition createColorHistogram (data : list Z) (width height channels : Z)
    : list (Color * Z) :=
  foldl (fun histogram i =>
    let pixelIdx := i * channels in
    increment (quantizeColor 10 (at_ data pixelIdx)) histogram)
    [] (JS.range 0 (width * height)).

(** A dominant colour [{ r, g, b, frequency }] is a pair of its colour
    and its frequency. *)
Definition findDominantColors (histogram : list (Color * Z)) (count : nat)
    : list (Color * Q) :=
  let totalPixels := foldl (fun sum (e : Color * Z) => sum + e.2) 0 histogram in
  take count
    (JS.sort_desc (fun c : Color * Q => c.2)
       ((fun e : Color * Z =>
           (e.1, Qred (inject_Z e.2 / inject_Z totalPixels * 100))) <$> histogram)).

Definition markConnectedRegion (mask : list Z) (visited : gset Z) (start : Z)
    (width height : Z) : gset Z :=
  let fuel := S (4 * length mask) in
  let loop :=
    JS.whileQueue (fun _ => true)
      (fun (idx : Z) (visited : gset Z) =>
         if bool_decide (idx ∈ visited) then None
         else
           let visited := {[ idx ]} ∪ visited in
           let x := idx mod width in
           let y := idx / width in
           let neighbors := [ (x + 1, y); (x - 1, y); (x, y + 1); (x, y - 1) ] in
           Some (visited,
                 foldl (fun queue (neighbor : Z * Z) =>
                   if (0 <=? neighbor.1) && (neighbor.1 <? width) &&
                      (0 <=? neighbor.2) && (neighbor.2 <? height) then
                     let nIdx := neighbor.2 * width + neighbor.1 in
                     if JS.is_zero (JS.get mask nIdx) &&
                        negb (bool_decide (nIdx ∈ visited))
                     then queue ++ [nIdx] else queue
                   else queue) [] neighbors))
      fuel [start] visited in
  default visited loop.

(** [countConnectedRegions] for integer [width] and [height]. *)
Definition countConnectedRegions (mask : list Z) (width height : Z) : Z :=
  (foldl (fun (s : gset Z * Z) i =>
     if JS.is_zero (JS.get mask i) && negb (bool_decide (i ∈ s.1))
     then (markConnectedRegion mask s.1 i width height, s.2 + 1) else s)
     (∅, 0) (JS.range 0 (Z.of_nat (length mask)))).2.

(** [removedPercentage] of [analyzeMaskStatistics].  For an empty mask
    the code computes [NaN], for which every comparison its callers make
    is false; so it is for the 0 returned here. *)
Definition removedPercentage (mask : list Z) : Q :=
  let removedPixels :=
    foldl (fun removedPixels i =>
      if JS.is_zero (JS.get mask i) then removedPixels + 1 else removedPixels)
      0 (JS.range 0 (Z.of_nat (length mask))) in
  Qred (inject_Z removedPixels / inject_Z (Z.of_nat (length mask)) * 100).

(** [analyzeMaskStatistics] passes [Math.sqrt(mask.length)] for both
    the width and the height of the grid. *)
Definition analyzeMaskStatistics (sharp : Sharp) (mask : list Z) : Q * Z :=
  let side := Z.sqrt (Z.of_nat (length mask)) in
  let connectedRegions :=
    if side * side =? Z.of_nat (length mask)
    then countConnectedRegions mask side side
    else fractionalRegions sharp mask in
  (removedPercentage mask, connectedRegions).

(** The RGBA raster [applyMaskAndSave] hands to [sharp]. *)
Definition composeRGBA (data mask : list Z) (info : Info) : list Z :=
  foldl (fun rgbaBuffer i =>
    let rgbIndex := i * channels info in
    let rgbaIndex := i * 4 in
    let rgbaBuffer := JS.set rgbaBuffer rgbaIndex (JS.to_int (JS.get data rgbIndex)) in
    let rgbaBuffer :=
      JS.set rgbaBuffer (rgbaIndex + 1) (JS.to_int (JS.get data (rgbIndex + 1))) in
    let rgbaBuffer :=
      JS.set rgbaBuffer (rgbaIndex + 2) (JS.to_int (JS.get data (rgbIndex + 2))) in
    JS.set rgbaBuffer (rgbaIndex + 3) (JS.to_int (JS.get mask i)))
    (JS.alloc (width info * height info * 4) 0)
    (JS.range 0 (width info * height info)).

(** [applyMaskAndSave]: [Some] of the raster written to [outputPath], or
    [None] when [toFile] throws. *)
Definition applyMaskAndSave (sharp : Sharp) (data mask : list Z) (info : Info)
    : option (list Z) :=
  let rgbaBuffer := composeRGBA data mask info in
  if toFile sharp rgbaBuffer then Some rgbaBuffer else None.

(** *** The five stages

    A stage whose [try] block accepts a mask calls [applyMaskAndSave]
    and returns; an exception of [applyMaskAndSave] is caught by the
    stage, which then reports failure.  A stage result is [Some] of the
    raster written, or [None] for [{ success: false }]. *)

Definition advancedBackgroundDetection (sharp : Sharp) (data : list Z) (info : Info)
    : option (list Z) :=
  let backgroundRegions :=
    sampleBackgroundRegions data (width info) (height info) (channels info) in
  if bool_decide (backgroundRegions = []) then None
  else
    let colorClusters := analyzeColorClusters backgroundRegions in
    let accepted :=
      JS.firstSome (fun cluster : Color * Z =>
        JS.firstSome (fun tolerance : Q =>
          let mask :=
            createProtectedMask data (width info) (height info) (channels info)
              cluster.1 tolerance in
          let stats := analyzeMaskStatistics sharp mask in
          if JS.leb 15 stats.1 && JS.leb stats.1 80 && (stats.2 <=? 6) &&
             validateObjectPreservation mask (width info) (height info)
          then Some mask else None)
          [35; 55; 75; 95]%Q)
        colorClusters in
    match accepted with
    | Some mask => applyMaskAndSave sharp data mask info
    | None => None
    end.

Definition floodFillBackgroundRemoval (sharp : Sharp) (data : list Z) (info : Info)
    : option (list Z) :=
  let mask :=
    createEnhancedFloodFillMask data (width info) (height info) (channels info) in
  let stats := analyzeMaskStatistics sharp mask in
  if JS.leb 10 stats.1 && JS.leb stats.1 85 &&
     validateObjectPreservation mask (width info) (height info)
  then applyMaskAndSave sharp data mask info
  else None.

(** The mask [statisticalBackgroundSeparation] accepts, if any. *)
Definition statisticalCandidate (sharp : Sharp) (data : list Z) (info : Info)
    : option (list Z) :=
  let colorHistogram :=
    createColorHistogram data (width info) (height info) (channels info) in
  let dominantColors := findDominantColors colorHistogram 7 in
  JS.firstSome (fun dominantColor : Color * Q =>
    if JS.ltb dominantColor.2 8 then None
    else
      let backgroundScore :=
        calculateEnhancedBackgroundScore data (width info) (height info)
          (channels info) dominantColor.1 in
      if JS.leb (1 # 2) backgroundScore then
        JS.firstSome (fun tolerance : Q =>
          let mask :=
            createProtectedMask data (width info) (height info) (channels info)
              dominantColor.1 tolerance in
          let stats := analyzeMaskStatistics sharp mask in
          if JS.leb 15 stats.1 && JS.leb stats.1 80 &&
             validateObjectPreservation mask (width info) (height info)
          then Some mask else None)
          [40; 60; 80; 100]%Q
      else None)
    dominantColors.

Definition statisticalBackgroundSeparation (sharp : Sharp) (data : list Z) (info : Info)
    : option (list Z) :=
  match statisticalCandidate sharp data info with
  | Some mask => applyMaskAndSave sharp data mask info
  | None => None
  end.

Definition aggressiveEdgeProcessing (sharp : Sharp) (data : list Z) (info : Info)
    : option (list Z) :=
  match edgeBuffer sharp with
  | Some edgeBuffer =>
      let mask :=
        createEnhancedEdgeMask data edgeBuffer (width info) (height info)
          (channels info) in
      let stats := analyzeMaskStatistics sharp mask in
      if JS.leb 10 stats.1 && JS.leb stats.1 85 &&
         validateObjectPreservation mask (width info) (height info)
      then applyMaskAndSave sharp data mask info
      else None
  | None => None
  end.

(** How [forceBackgroundRemoval] ends: it wrote a raster, it returned
    without writing anything, or it threw. *)
Inductive Forced :=
  | Wrote (rgba : list Z)
  | WroteNothing
  | Threw.

(** The mask the [try] block of [forceBackgroundRemoval] saves, if
    any. *)
Definition forcedCandidate (sharp : Sharp) (data : list Z) (info : Info)
    : option (list Z) :=
  let backgroundCandidate :=
    findMostLikelyBackgroundColor data (width info) (height info) (channels info) in
  let enhanced :=
    match backgroundCandidate with
    | Some backgroundCandidate =>
        JS.firstSome (fun tolerance : Q =>
          let mask :=
            createEnhancedProtectedMask data (width info) (height info)
              (channels info) backgroundCandidate tolerance in
          let stats := analyzeMaskStatistics sharp mask in
          if JS.leb 10 stats.1 && JS.leb stats.1 80 &&
             validateObjectPreservation mask (width info) (height info)
          then Some mask else None)
          [50; 70; 90; 110]%Q
    | None => None
    end in
  match enhanced with
  | Some mask => Some mask
  | None =>
      let lightMask :=
        createLightBackgroundMask data (width info) (height info) (channels info) in
      let lightStats := analyzeMaskStatistics sharp lightMask in
      if JS.leb 8 lightStats.1 && JS.leb lightStats.1 70 &&
         validateObjectPreservation lightMask (width info) (height info)
      then Some lightMask
      else
        let cornerMask :=
          createEnhancedCornerMask data (width info) (height info) (channels info) in
        let cornerStats := analyzeMaskStatistics sharp cornerMask in
        if JS.leb 5 cornerStats.1 then Some cornerMask else None
  end.

Definition forceBackgroundRemoval (sharp : Sharp) (data : list Z) (info : Info)
    : Forced :=
  match forcedCandidate sharp data info with
  | Some mask =>
      match applyMaskAndSave sharp data mask info with
      | Some rgba => Wrote rgba
      | None =>
          (* the [catch] block: the opaque pass-through *)
          let rgbaBuffer :=
            composeRGBA data (JS.alloc (width info * height info) 255) info in
          if toFile sharp rgbaBuffer then Wrote rgbaBuffer else Threw
      end
  | None => WroteNothing
  end.

(** [removeBackground] on the decoded raster ([None] when decoding
    throws): the result reported to the caller and the raster written to
    [outputPath], if any.  The text of a caught exception is not
    modelled. *)
Definition removeBackground (sharp : Sharp) (decoded : option (list Z * Info))
    : ProcessResult * option (list Z) :=
  match decoded with
  | None =>
      ({| success := false; method := None; error := Some "Processing failed" |}, None)
  | Some (data, info) =>
      match advancedBackgroundDetection sharp data info with
      | Some rgba =>
          ({| success := true; method := Some "Advanced Background Detection";
              error := None |}, Some rgba)
      | None =>
      match floodFillBackgroundRemoval sharp data info with
      | Some rgba =>
          ({| success := true; method := Some "Flood Fill Background Removal";
              error := None |}, Some rgba)
      | None =>
      match statisticalBackgroundSeparation sharp data info with
      | Some rgba =>
          ({| success := true; method := Some "Statistical Background Separation";
              error := None |}, Some rgba)
      | None =>
      match aggressiveEdgeProcessing sharp data info with
      | Some rgba =>
          ({| success := true; method := Some "Aggressive Edge Processing";
              error := None |}, Some rgba)
      | None =>
      match forceBackgroundRemoval sharp data info with
      | Wrote rgba =>
          ({| success := true; method := Some "Forced Background Removal";
              error := Some "Applied aggressive background removal as fallback" |},
           Some rgba)
      | WroteNothing =>
          ({| success := true; method := Some "Forced Background Removal";
              error := Some "Applied aggressive background removal as fallback" |},
           None)
      | Threw =>
          ({| success := false; method := None; error := Some "Processing failed" |},
           None)
      end end end end end
  end.

End ImageProcessor.

(** ** AIBackgroundRemover: the morphology engine *)

Module AIBackgroundRemover.

(** The synthesizer computes in floating point with [Math.sqrt] and
    [Math.exp]; it is modelled over the real numbers.  [random k] is the
    value the [k]-th call of [Math.random()] returns. *)

(** [Math.sqrt((p0 - s0)^2 + (p1 - s1)^2 + (p2 - s2)^2)] *)
Definition colorDistance (p s : R * R * R) : R :=
  sqrt ((p.1.1 - s.1.1) ^ 2 + (p.1.2 - s.1.2) ^ 2 + (p.2 - s.2) ^ 2).

(** [[data[idx], data[idx + 1], data[idx + 2]]] *)
Definition rgb (data : list Z) (idx : Z) : R * R * R :=
  (JS.num data idx, JS.num data (idx + 1), JS.num data (idx + 2)).

(** [(data[idx] + data[idx + 1] + data[idx + 2]) / 3] *)
Definition intensityAt (data : list Z) (idx : Z) : R :=
  ((JS.num data idx + JS.num data (idx + 1) + JS.num data (idx + 2)) / 3)%R.

(** The 1000 sample colours of [analyzeColorClusters]: each takes two
    calls of [Math.random()], for [x] and then for [y]. *)
Definition samplePoints (random : nat -> Q) (data : list Z) (width height channels : Z)
    : list (R * R * R) :=
  (fun i : nat =>
     let x := Qfloor (random (2 * i)%nat * inject_Z width) in
     let y := Qfloor (random (2 * i + 1)%nat * inject_Z height) in
     let idx := (y * width + x) * channels in
     rgb data idx) <$> seq 0 1000.

(** [minDistance] starts at [Infinity], here [None]. *)
Definition minDistanceTo (samples : list (R * R * R)) (pixelColor : R * R * R)
    : option R :=
  foldl (fun (minDistance : option R) sample =>
           let distance := colorDistance pixelColor sample in
           Some (match minDistance with
                 | Some m => Rmin m distance
                 | None => distance
                 end))
        None samples.

Definition analyzeColorClusters (random : nat -> Q) (data : list Z)
    (width height channels : Z) : list R :=
  let samplePoints := samplePoints random data width height channels in
  JS.forYX (JS.range 0 height) (JS.range 0 width)
    (fun scores x y =>
       let pixelIdx := y * width + x in
       let dataIdx := pixelIdx * channels in
       let pixelColor := rgb data dataIdx in
       (* [Infinity / 255] cannot occur: 1000 samples were drawn *)
       let minDistance := default 0%R (minDistanceTo samplePoints pixelColor) in
       JS.fset scores pixelIdx (minDistance / 255)%R)
    (JS.falloc (width * height)).

Definition sobelX : list Z := [-1; 0; 1; -2; 0; 2; -1; 0; 1].
Definition sobelY : list Z := [-1; -2; -1; 0; 0; 0; 1; 2; 1].

Definition analyzeEdgeComplexity (data : list Z) (width height channels : Z) : list R :=
  JS.forYX (JS.range 1 (height - 1)) (JS.range 1 (width - 1))
    (fun scores x y =>
       let '(gx, gy) :=
         JS.forYX (JS.range (-1) 2) (JS.range (-1) 2)
           (fun (g : R * R) kx ky =>
              let idx := ((y + ky) * width + (x + kx)) * channels in
              let intensity := intensityAt data idx in
              let kernelIdx := (ky + 1) * 3 + (kx + 1) in
              (g.1 + intensity * JS.num sobelX kernelIdx,
               g.2 + intensity * JS.num sobelY kernelIdx)%R)
           (0%R, 0%R) in
       let magnitude := sqrt (gx * gx + gy * gy) in
       JS.fset scores (y * width + x) (magnitude / 255)%R)
    (JS.falloc (width * height)).

Definition analyzeTexturePatterns (data : list Z) (width height channels : Z) : list R :=
  JS.forYX (JS.range 1 (height - 1)) (JS.range 1 (width - 1))
    (fun scores x y =>
       let centerIdx := (y * width + x) * channels in
       let centerIntensity := intensityAt data centerIdx in
       let variance :=
         JS.forYX (JS.range (-1) 2) (JS.range (-1) 2)
           (fun (variance : R) kx ky =>
              if (kx =? 0) && (ky =? 0) then variance
              else
                let neighborIdx := ((y + ky) * width + (x + kx)) * channels in
                let neighborIntensity := intensityAt data neighborIdx in
                (variance + (neighborIntensity - centerIntensity) ^ 2)%R)
           0%R in
       JS.fset scores (y * width + x) (Rmin (variance / (8 * 255 * 255)) 1))
    (JS.falloc (width * height)).

Definition analyzeSpatialCoherence (data : list Z) (width height channels : Z) : list R :=
  JS.forYX (JS.range 2 (height - 2)) (JS.range 2 (width - 2))
    (fun scores x y =>
       let centerIdx := (y * width + x) * channels in
       let centerColor := rgb data centerIdx in
       let '(totalDifference, count) :=
         JS.forYX (JS.range (-2) 3) (JS.range (-2) 3)
           (fun (t : R * R) kx ky =>
              let neighborIdx := ((y + ky) * width + (x + kx)) * channels in
              let neighborColor := rgb data neighborIdx in
              let colorDiff := colorDistance centerColor neighborColor in
              (t.1 + colorDiff, t.2 + 1)%R)
           (0%R, 0%R) in
       JS.fset scores (y * width + x) (totalDifference / count / 255)%R)
    (JS.falloc (width * height)).

Definition erode (mask : list Z) (width height : Z) : list Z :=
  JS.forYX (JS.range 1 (height - 1)) (JS.range 1 (width - 1))
    (fun result x y =>
       let minValue :=
         JS.forYX (JS.range (-1) 2) (JS.range (-1) 2)
           (fun minValue kx ky =>
              let idx := (y + ky) * width + (x + kx) in
              JS.min minValue (JS.get mask idx))
           (Some 255) in
       JS.set result (y * width + x) (JS.to_int minValue))
    (JS.alloc (width * height) 0).

Definition dilate (mask : list Z) (width height : Z) : list Z :=
  JS.forYX (JS.range 1 (height - 1)) (JS.range 1 (width - 1))
    (fun result x y =>
       let maxValue :=
         JS.forYX (JS.range (-1) 2) (JS.range (-1) 2)
           (fun maxValue kx ky =>
              let idx := (y + ky) * width + (x + kx) in
              JS.max maxValue (JS.get mask idx))
           (Some 0) in
       JS.set result (y * width + x) (JS.to_int maxValue))
    (JS.alloc (width * height) 0).

Definition applyMorphologicalOperations (mask : list Z) (width height : Z) : list Z :=
  let eroded := erode mask width height in
  let opened := dilate eroded width height in
  let dilated := dilate opened width height in
  erode dilated width height.

(** The binary mask [createEnhancedAIMask] builds from the four layers,
    before the morphological clean-up. *)
Definition thresholdMask (layers : list R * list R * list R * list R)
    (width height : Z) : list Z :=
  let '(layer0, layer1, layer2, layer3) := layers in
  JS.forYX (JS.range 0 height) (JS.range 0 width)
    (fun mask x y =>
       let idx := y * width + x in
       let backgroundScore :=
         (0 + JS.fget layer0 idx * (3 / 10) + JS.fget layer1 idx * (25 / 100)
          + JS.fget layer2 idx * (25 / 100) + JS.fget layer3 idx * (2 / 10))%R in
       let probability := (1 / (1 + exp (-5 * (backgroundScore - 5 / 10))))%R in
       JS.set mask idx (if Rlt_dec probability (3 / 10) then 0 else 255))
    (JS.alloc (width * height) 0).

Definition createEnhancedAIMask (random : nat -> Q) (data : list Z)
    (width height channels : Z) : list Z :=
  let layers :=
    (analyzeColorClusters random data width height channels,
     analyzeEdgeComplexity data width height channels,
     analyzeTexturePatterns data width height channels,
     analyzeSpatialCoherence data width height channels) in
  let mask := thresholdMask layers width height in
  applyMorphologicalOperations mask width height.

(** The RGBA raster [applyEnhancedMask] hands to [sharp] for encoding:
    the colours are read from the raw original at a stride of 3. *)
Definition applyEnhancedMask (originalData mask : list Z) (width height : Z) : list Z :=
  JS.forYX (JS.range 0 height) (JS.range 0 width)
    (fun outputData x y =>
       let idx := y * width + x in
       let maskValue := JS.get mask idx in
       let outputData :=
         JS.set outputData (idx * 4) (JS.to_int (JS.get originalData (idx * 3))) in
       let outputData :=
         JS.set outputData (idx * 4 + 1) (JS.to_int (JS.get originalData (idx * 3 + 1))) in
       let outputData :=
         JS.set outputData (idx * 4 + 2) (JS.to_int (JS.get originalData (idx * 3 + 2))) in
       JS.set outputData (idx * 4 + 3) (JS.to_int maskValue))
    (JS.alloc (width * height * 4) 0).

End AIBackgroundRemover.


(** * Binary64 arithmetic *)

(** The numbers of JavaScript are IEEE 754 binary64 values; every
    operation below rounds to nearest, ties to even. *)
Module Double.

Definition double := SpecFloat.spec_float.

Definition prec : Z := 53.
Definition emax : Z := 1024.

Definition NaN : double := SpecFloat.S754_nan.

(** The double nearest to an integer; exact below [2 ^ 53]. *)
Definition of_Z (z : Z) : double := SpecFloat.binary_normalize prec emax z 0 false.

Definition add : double -> double -> double := SpecFloat.SFadd prec emax.
Definition sub : double -> double -> double := SpecFloat.SFsub prec emax.
Definition mul : double -> double -> double := SpecFloat.SFmul prec emax.
Definition div : double -> double -> double := SpecFloat.SFdiv prec emax.

(** [Math.sqrt] *)
Definition sqrt : double -> double := SpecFloat.SFsqrt prec emax.

(** [a <= b]; false when an operand is [NaN]. *)
Definition leb : double -> double -> bool := SpecFloat.SFleb.

(** The double a decimal literal stands for, given as a fraction:
    [lit 3 10] is [0.3]. *)
Definition lit (n d : Z) : double := div (of_Z n) (of_Z d).

Declare Scope double_scope.
Delimit Scope double_scope with D.
Bind Scope double_scope with double.
Infix "+" := add : double_scope.
Infix "-" := sub : double_scope.
Infix "*" := mul : double_scope.
Infix "/" := div : double_scope.
Infix "<=?" := leb : double_scope.

(** [Math.pow(v, 2)]; the square of an integer below [2 ^ 26] is
    exact. *)
Definition pow2 (v : double) : double := (v * v)%D.

(** [Math.round(v)]: the integer nearest to the value of [v], halves
    upwards; [None] for [NaN] and the infinities, which a [Buffer]
    stores as 0. *)
Definition round (v : double) : option Z :=
  match v with
  | SpecFloat.S754_zero _ => Some 0
  | SpecFloat.S754_finite s m e =>
      let n := if s then Z.neg m else Z.pos m in
      Some (if 0 <=? e then n * 2 ^ e
            else (2 * n + 2 ^ (- e)) / 2 ^ (- e + 1))
  | _ => None
  end.

(** A byte read from a [Buffer], or a colour channel, as a number;
    [undefined] gives [NaN]. *)
Definition num (v : option Z) : double :=
  match v with Some v => of_Z v | None => NaN end.

(** [Math.sqrt(Math.pow(r - c.r, 2) * 0.3 + Math.pow(g - c.g, 2) * 0.59 +
    Math.pow(b - c.b, 2) * 0.11)] *)
Definition distance (p c : ImageProcessor.Color) : double :=
  sqrt (pow2 (num (ImageProcessor.r p) - num (ImageProcessor.r c)) * lit 3 10 +
        pow2 (num (ImageProcessor.g p) - num (ImageProcessor.g c)) * lit 59 100 +
        pow2 (num (ImageProcessor.b p) - num (ImageProcessor.b c)) * lit 11 100)%D.

Definition createProtectedMask (data : list Z) (width height channels : Z)
    (targetColor : ImageProcessor.Color) (tolerance : double) : list Z :=
  let protectedZone := ImageProcessor.createProtectedZone width height in
  foldl (fun mask i =>
    let pixelIdx := i * channels in
    if JS.truthy (JS.get protectedZone i) then mask
    else
      let distance := distance (ImageProcessor.at_ data pixelIdx) targetColor in
      if (distance <=? tolerance * lit 6 10)%D then JS.set mask i 0
      else if (distance <=? tolerance)%D then
        JS.set mask i
          (JS.to_int (round ((distance - tolerance * lit 6 10)
                             / (tolerance * lit 4 10) * of_Z 255)%D))
      else mask)
    (JS.alloc (width * height) 255) (JS.range 0 (width * height)).

End Double.
(** ** Vocabulary of the statements *)

(** The two halves of [applyMorphologicalOperations]: opening is erosion
    followed by dilation, closing is dilation followed by erosion. *)
Definition opening (mask : list Z) (width height : Z) : list Z :=
  AIBackgroundRemover.dilate (AIBackgroundRemover.erode mask width height) width height.

Definition closing (mask : list Z) (width height : Z) : list Z :=
  AIBackgroundRemover.erode (AIBackgroundRemover.dilate mask width height) width height.

(** A mask holds bytes. *)
Definition bytes (b : list Z) : Prop := Forall (fun v => 0 <= v <= 255) b.

(** Pixel [(x, y)] lies in the image, and on its outer frame. *)
Definition in_image (width height x y : Z) : Prop :=
  0 <= x < width /\ 0 <= y < height.

Definition on_border (width height x y : Z) : Prop :=
  x = 0 \/ x = width - 1 \/ y = 0 \/ y = height - 1.

(** The indices of the 3x3 window around [(x, y)], in the order the
    filters read them. *)
Definition window (width x y : Z) : list Z :=
  (fun k : Z * Z => (y + k.2) * width + (x + k.1)) <$>
  [(-1, -1); (0, -1); (1, -1); (-1, 0); (0, 0); (1, 0); (-1, 1); (0, 1); (1, 1)].

(** The 8 neighbours of [(x, y)] that lie in the image all hold [v]. *)
Definition neighbours_are (mask : list Z) (width height x y v : Z) : Prop :=
  forall dx dy, -1 <= dx <= 1 -> -1 <= dy <= 1 -> (dx, dy) <> (0, 0) ->
    in_image width height (x + dx) (y + dy) ->
    JS.get mask ((y + dy) * width + (x + dx)) = Some v.

(** The running minimum, and maximum, the filters keep over a window. *)
Definition window_min (mask : list Z) (idxs : list Z) : option Z :=
  foldl (fun mv i => JS.min mv (JS.get mask i)) (Some 255) idxs.

Definition window_max (mask : list Z) (idxs : list Z) : option Z :=
  foldl (fun mv i => JS.max mv (JS.get mask i)) (Some 0) idxs.

(** Executable check of [neighbours_are]. *)
Definition neighbours_areb (mask : list Z) (width height x y v : Z) : bool :=
  forallb (fun k : Z * Z =>
    let x' := x + k.1 in let y' := y + k.2 in
    if (0 <=? x') && (x' <? width) && (0 <=? y') && (y' <? height)
    then bool_decide (JS.get mask (y' * width + x') = Some v) else true)
  [(-1, -1); (0, -1); (1, -1); (-1, 0); (1, 0); (-1, 1); (0, 1); (1, 1)].

(** Pixel [(x, y)] lies in the protected zone: the ellipse centred on
    the image whose two semi-axes are a quarter of the smaller side. *)
Definition protected_zone (width height x y : Z) : Prop :=
  let a := (Qmin (inject_Z width) (inject_Z height) * (25 # 100))%Q in
  (((inject_Z x - inject_Z width / 2) / a) ^ 2 +
   ((inject_Z y - inject_Z height / 2) / a) ^ 2 <= 1)%Q.

(** The test [distanceFromCenter <= 1] of [createProtectedZone]. *)
Definition zone_test (width height x y : Z) : bool :=
  let protectSize := (Qmin (inject_Z width) (inject_Z height) * (1 # 2))%Q in
  JS.sqrt_le (((inject_Z x - inject_Z width / 2) / (protectSize / 2)) ^ 2 +
              ((inject_Z y - inject_Z height / 2) / (protectSize / 2)) ^ 2)%Q 1.

(** What the body of the loop of [createProtectedMask], resp.
    [createEnhancedProtectedMask], stores at index [i], if anything. *)
Definition plain_store (data : list Z) (width height channels : Z)
    (targetColor : ImageProcessor.Color) (tolerance : Q) (i : Z) : option Z :=
  if JS.truthy (JS.get (ImageProcessor.createProtectedZone width height) i) then None
  else
    let distance2 :=
      ImageProcessor.weighted (ImageProcessor.at_ data (i * channels)) targetColor in
    if JS.sqrt_le_nan distance2 (tolerance * (6 # 10)) then Some 0
    else if JS.sqrt_le_nan distance2 tolerance then
      Some (JS.round_ramp (default 0%Q distance2)
              (tolerance * (6 # 10)) (tolerance * (4 # 10)))
    else None.

Definition enhanced_store (data : list Z) (width height channels : Z)
    (targetColor : ImageProcessor.Color) (tolerance : Q) (i : Z) : option Z :=
  if JS.truthy (JS.get (ImageProcessor.createProtectedZone width height) i) then None
  else
    let distance2 :=
      ImageProcessor.weighted (ImageProcessor.at_ data (i * channels)) targetColor in
    let x := i mod width in
    let y := i / width in
    let edgeDistance := Z.min (Z.min x (width - x)) (Z.min y (height - y)) in
    let maxEdgeDistance := (inject_Z (Z.min width height) * (35 # 100))%Q in
    if JS.sqrt_le_nan distance2 (tolerance * (7 # 10)) then Some 0
    else if JS.sqrt_le_nan distance2 tolerance &&
            JS.leb (inject_Z edgeDistance) maxEdgeDistance then
      Some (JS.round_ramp (default 0%Q distance2)
              (tolerance * (7 # 10)) (tolerance * (3 # 10)))
    else None.

(** Following the specification's words for the StatisticalSeparation
    stage ("build mask (4.3 enhanced)"): the search of
    [statisticalCandidate] with the candidate masks built by
    [createEnhancedProtectedMask]. *)
Definition statisticalCandidate_enhanced (sharp : ImageProcessor.Sharp)
    (data : list Z) (info : ImageProcessor.Info) : option (list Z) :=
  let w := ImageProcessor.width info in
  let h := ImageProcessor.height info in
  let ch := ImageProcessor.channels info in
  JS.firstSome (fun dominantColor : ImageProcessor.Color * Q =>
    if JS.ltb dominantColor.2 8 then None
    else if JS.leb (1 # 2)
              (ImageProcessor.calculateEnhancedBackgroundScore data w h ch dominantColor.1)
    then
      JS.firstSome (fun tolerance : Q =>
        let mask :=
          ImageProcessor.createEnhancedProtectedMask data w h ch dominantColor.1 tolerance in
        let stats := ImageProcessor.analyzeMaskStatistics sharp mask in
        if JS.leb 15 stats.1 && JS.leb stats.1 80 &&
           ImageProcessor.validateObjectPreservation mask w h
        then Some mask else None)
        [40; 60; 80; 100]%Q
    else None)
    (ImageProcessor.findDominantColors
       (ImageProcessor.createColorHistogram data w h ch) 7).

(** A 20x5 test image of 3 channels: 17 isolated light pixels
    (200, 200, 200), the pixel (5, 1) of colour (174, 174, 174), and
    seven saturated colours laid out so that no two neighbours are
    alike. *)
Definition mosaic_pixel (x y : Z) : list Z :=
  if ((y =? 0) && (x mod 4 =? 0)) ||
     ((y =? 2) && (x mod 4 =? 2) && negb (x =? 10)) ||
     ((y =? 4) && (x mod 4 =? 2)) ||
     ((y =? 1) && (x =? 10)) || ((y =? 3) && ((x =? 19) || (x =? 1)))
  then [200; 200; 200]
  else if (x =? 5) && (y =? 1) then [174; 174; 174]
  else match (x + 3 * y) mod 7 with
       | 0 => [255; 0; 0] | 1 => [128; 0; 0] | 2 => [0; 170; 0] | 3 => [0; 85; 0]
       | 4 => [128; 85; 0] | 5 => [0; 0; 255] | _ => [0; 85; 255]
       end.

Definition mosaic : list Z := i ← seqZ 0 100; mosaic_pixel (i mod 20) (i / 20).

Definition mosaic_info : ImageProcessor.Info :=
  {| ImageProcessor.width := 20; ImageProcessor.height := 5;
     ImageProcessor.channels := 3 |}.

(** A [sharp] whose edge pipeline returns an all-255 buffer and whose
    [toFile] succeeds. *)
Definition quiet_sharp : ImageProcessor.Sharp :=
  {| ImageProcessor.edgeBuffer := Some (replicate 100 255);
     ImageProcessor.toFile := fun _ => true;
     ImageProcessor.fractionalRegions := fun _ => 0 |}.

(** *** Zero regions of a mask

    A pixel is a pair [(x, y)]; its cell in a mask of a [width] x
    [height] image has the row-major index [y * width + x]. *)
Definition idx_of (width : Z) (p : Z * Z) : Z := p.2 * width + p.1.

(** Pixel [p] lies in the image and the mask holds 0 there. *)
Definition zero_at (mask : list Z) (width height : Z) (p : Z * Z) : Prop :=
  in_image width height p.1 p.2 /\ JS.get mask (idx_of width p) = Some 0.

Definition adjacent4 (p q : Z * Z) : Prop :=
  q = (p.1 + 1, p.2) \/ q = (p.1 - 1, p.2) \/ q = (p.1, p.2 + 1) \/ q = (p.1, p.2 - 1).

(** [q] is reached from the zero pixel [p] through 4-adjacent zero
    pixels. *)
Inductive connected (mask : list Z) (width height : Z) (p : Z * Z) : Z * Z -> Prop :=
  | connected_refl : zero_at mask width height p -> connected mask width height p p
  | connected_step q r :
      connected mask width height p q -> adjacent4 q r ->
      zero_at mask width height r -> connected mask width height p r.

(** [R] holds the indices of the 4-connected zero region of [p]. *)
Definition region_of (mask : list Z) (width height : Z) (p : Z * Z) (R : gset Z) : Prop :=
  forall i, i ∈ R <-> exists q, connected mask width height p q /\ i = idx_of width q.

(** The pixels of the centred window of side [side], in scan order. *)
Definition window_pixels (width height side : Z) : list (Z * Z) :=
  y ← JS.range (height / 2 - side / 2) (height / 2 + side / 2);
  x ← JS.range (width / 2 - side / 2) (width / 2 + side / 2);
  [(x, y)].

(** The number of zero cells among the pixels [pixels]. *)
Definition count_zero (mask : list Z) (width : Z) (pixels : list (Z * Z)) : Z :=
  Z.of_nat (length (List.filter
    (fun p => JS.is_zero (JS.get mask (idx_of width p))) pixels)).

(** A set of visited indices is closed when it contains, with a zero
    pixel, the zero pixels adjacent to it. *)
Definition closed (mask : list Z) (width height : Z) (V : gset Z) : Prop :=
  forall q r, zero_at mask width height q -> idx_of width q ∈ V ->
    adjacent4 q r -> zero_at mask width height r -> idx_of width r ∈ V.

(** A number with integer coordinates. *)
Definition pointQ (p : Z * Z) : Q * Q := (inject_Z p.1, inject_Z p.2).

(** The zero region of [p] holds more than 5% of the pixels of the
    image. *)
Definition large_hole (mask : list Z) (width height : Z) (p : Z * Z) : Prop :=
  exists R, region_of mask width height p R /\
            5 * (width * height) < 100 * Z.of_nat (size R).

(** Two 40x40 test masks: the column x = 20 from the top row down to
    row 20 is zero; in [flag_mask] the two top rows are zero as well. *)
Definition pole_mask : list Z :=
  (fun i => if (i mod 40 =? 20) && (i / 40 <=? 20) then 0 else 255) <$> seqZ 0 1600.

Definition flag_mask : list Z :=
  (fun i => if (i / 40 <? 2) || ((i mod 40 =? 20) && (i / 40 <=? 20)) then 0 else 255)
  <$> seqZ 0 1600.


(** *** The layers of the mask synthesizer

    The value each layer stores for pixel [(x, y)], and the probability
    the threshold is applied to. *)
Definition cluster_score (samples : list (R * R * R)) (data : list Z)
    (width channels x y : Z) : R :=
  (default 0%R (AIBackgroundRemover.minDistanceTo samples
                  (AIBackgroundRemover.rgb data ((y * width + x) * channels))) / 255)%R.

Definition edge_score (data : list Z) (width channels x y : Z) : R :=
  let '(gx, gy) :=
    JS.forYX (JS.range (-1) 2) (JS.range (-1) 2)
      (fun (g : R * R) kx ky =>
         let idx := ((y + ky) * width + (x + kx)) * channels in
         let intensity := AIBackgroundRemover.intensityAt data idx in
         let kernelIdx := (ky + 1) * 3 + (kx + 1) in
         (g.1 + intensity * JS.num AIBackgroundRemover.sobelX kernelIdx,
          g.2 + intensity * JS.num AIBackgroundRemover.sobelY kernelIdx)%R)
      (0%R, 0%R) in
  (sqrt (gx * gx + gy * gy) / 255)%R.

Definition texture_variance (data : list Z) (width channels x y : Z) : R :=
  JS.forYX (JS.range (-1) 2) (JS.range (-1) 2)
    (fun (variance : R) kx ky =>
       if (kx =? 0) && (ky =? 0) then variance
       else
         (variance +
          (AIBackgroundRemover.intensityAt data (((y + ky) * width + (x + kx)) * channels)
           - AIBackgroundRemover.intensityAt data ((y * width + x) * channels)) ^ 2)%R)
    0%R.

Definition texture_score (data : list Z) (width channels x y : Z) : R :=
  Rmin (texture_variance data width channels x y / (8 * 255 * 255)) 1.

Definition coherence_sum (data : list Z) (width channels x y : Z) : R * R :=
  JS.forYX (JS.range (-2) 3) (JS.range (-2) 3)
    (fun (t : R * R) kx ky =>
       (t.1 + AIBackgroundRemover.colorDistance
                (AIBackgroundRemover.rgb data ((y * width + x) * channels))
                (AIBackgroundRemover.rgb data (((y + ky) * width + (x + kx)) * channels)),
        t.2 + 1)%R)
    (0%R, 0%R).

Definition coherence_score (data : list Z) (width channels x y : Z) : R :=
  let '(totalDifference, count) := coherence_sum data width channels x y in
  (totalDifference / count / 255)%R.

(** [1 / (1 + Math.exp(-5 * (backgroundScore - 0.5)))] for the four
    layer values of a pixel. *)
Definition probability (l0 l1 l2 l3 : R) : R :=
  (1 / (1 + exp (-5 * ((0 + l0 * (3 / 10) + l1 * (25 / 100) + l2 * (25 / 100)
                        + l3 * (2 / 10)) - 5 / 10))))%R.

(** The 5x5 RGB image that is white except for a black pixel at
    [(0, 0)]. *)
Definition speck_image : list Z := [0; 0; 0] ++ replicate 72 255.

(** The four layers of a run on the speck image. *)
Definition speck_layers (random : nat -> Q) : list R * list R * list R * list R :=
  (AIBackgroundRemover.analyzeColorClusters random speck_image 5 5 3,
   AIBackgroundRemover.analyzeEdgeComplexity speck_image 5 5 3,
   AIBackgroundRemover.analyzeTexturePatterns speck_image 5 5 3,
   AIBackgroundRemover.analyzeSpatialCoherence speck_image 5 5 3).

(** Every score of a layer is at least 0. *)
Definition nonneg (layer : list R) : Prop := Forall (fun v => (0 <= v)%R) layer.

(** The mask holds 0 at every pixel of the image. *)
Definition all_zero (mask : list Z) (width height : Z) : Prop :=
  forall x y, in_image width height x y -> JS.get mask (y * width + x) = Some 0.

(** *** Orders and shapes of masks *)

(** [m] keeps no more than [m']: at every pixel of the image the byte of
    [m] is at most the byte of [m']. *)
Definition mask_le (m m' : list Z) (width height : Z) : Prop :=
  forall x y, in_image width height x y ->
    exists v v', JS.get m (y * width + x) = Some v /\
                 JS.get m' (y * width + x) = Some v' /\ v <= v'.

(** A hard mask: every byte is 0 or 255. *)
Definition binary (m : list Z) : Prop := Forall (fun v => v = 0 \/ v = 255) m.

(** Pixel [(x, y)] is on the outer frame or next to it. *)
Definition near_border (width height x y : Z) : Prop :=
  x <= 1 \/ width - 2 <= x \/ y <= 1 \/ height - 2 <= y.

(** *** RGBA rasters *)

(** The byte a [Buffer] holds after the assignment of [v]: [undefined]
    is stored as 0. *)
Definition stored (v : option Z) : Z := JS.to_int v mod 256.

(** One step of a loop that fills the four cells of pixel [i] of an
    RGBA raster with [g i 0], ..., [g i 3]. *)
Definition rgba_cells (g : Z -> Z -> Z) (out : list Z) (i : Z) : list Z :=
  JS.set (JS.set (JS.set (JS.set out (i * 4) (g i 0)) (i * 4 + 1) (g i 1))
            (i * 4 + 2) (g i 2)) (i * 4 + 3) (g i 3).

(** The values the two composers store: colours from [data] at a stride
    of [channels], alpha from [mask]. *)
Definition rgba_of (data mask : list Z) (channels : Z) (i k : Z) : Z :=
  match k with
  | 0 => JS.to_int (JS.get data (i * channels))
  | 1 => JS.to_int (JS.get data (i * channels + 1))
  | 2 => JS.to_int (JS.get data (i * channels + 2))
  | _ => JS.to_int (JS.get mask i)
  end.

(** The mask removes nothing: no cell holds 0. *)
Definition untouched (mask : list Z) : Prop := forall i, JS.get mask i <> Some 0.


(** A stage accepted [mask]: its removal lies within the band of the
    stage and the validator passed. *)
Definition within_band (mask : list Z) (info : ImageProcessor.Info) (lo hi : Q) : Prop :=
  (lo <= ImageProcessor.removedPercentage mask)%Q /\
  (ImageProcessor.removedPercentage mask <= hi)%Q /\
  ImageProcessor.validateObjectPreservation mask
    (ImageProcessor.width info) (ImageProcessor.height info) = true.

(** The state the loop of [enhancedFloodFill] keeps: zeros are only
    added, every new zero is connected to the seed through zeros, and
    every queued pixel is the seed or a neighbour of such a zero. *)
Definition flood_inv (width height : Z) (mask0 : list Z) (seed : Z * Z)
    (queue : list (Z * Z)) (s : list Z * gset Z * Z) : Prop :=
  (forall r, zero_at mask0 width height r -> zero_at s.1.1 width height r) /\
  length s.1.1 = length mask0 /\
  (forall r, zero_at s.1.1 width height r ->
     zero_at mask0 width height r \/ connected s.1.1 width height seed r) /\
  Forall (fun p => p = seed \/
            exists q, connected s.1.1 width height seed q /\ adjacent4 q p) queue.

(** A hard mask of an image: one byte per pixel, each 0 or 255. *)
Definition hard_mask (width height : Z) (m : list Z) : Prop :=
  Z.of_nat (length m) = Z.max 0 (width * height) /\ binary m.

(** The pixel of a row-major index. *)
Definition pixel_of (width : Z) (i : Z) : Z * Z := (i mod width, i / width).

(** The indices [markConnectedRegion] pushes for the pixel [(x, y)]:
    those of its 4-neighbours that lie in the image, hold 0 and are not
    in [visited]. *)
Definition pushed (mask : list Z) (width height : Z) (visited : gset Z) (x y : Z)
    : list Z :=
  omap (fun neighbor : Z * Z =>
          if (0 <=? neighbor.1) && (neighbor.1 <? width) &&
             (0 <=? neighbor.2) && (neighbor.2 <? height) &&
             (JS.is_zero (JS.get mask (neighbor.2 * width + neighbor.1)) &&
              negb (bool_decide (neighbor.2 * width + neighbor.1 ∈ visited)))
          then Some (neighbor.2 * width + neighbor.1) else None)
       [ (x + 1, y); (x - 1, y); (x, y + 1); (x, y - 1) ].

(** The body of the loop of [markConnectedRegion]. *)
Definition markStep (mask : list Z) (width height : Z) (idx : Z) (visited : gset Z)
    : option (gset Z * list Z) :=
  if bool_decide (idx ∈ visited) then None
  else Some ({[ idx ]} ∪ visited,
             pushed mask width height ({[ idx ]} ∪ visited) (idx mod width) (idx / width)).

(** The state of the scan of [countConnectedRegions] after the indices
    below [next]: [reps] holds the first pixel of every region counted,
    [visited] the indices of their regions. *)
Definition scan_inv (mask : list Z) (width height : Z) (next : Z)
    (s : gset Z * Z) (reps : list (Z * Z)) : Prop :=
  s.2 = Z.of_nat (length reps) /\
  (forall p, p ∈ reps -> zero_at mask width height p) /\
  (forall k, k ∈ s.1 <->
     exists p q, p ∈ reps /\ connected mask width height p q /\ k = idx_of width q) /\
  (forall j, 0 <= j < next -> JS.get mask j = Some 0 -> j ∈ s.1) /\
  (forall a b p q, reps !! a = Some p -> reps !! b = Some q ->
     connected mask width height p q -> a = b).

(** *** Histograms of quantised colours *)

Global Instance Color_eq_dec : EqDecision ImageProcessor.Color.
Proof. solve_decision. Defined.

(** The number of occurrences of the key [k] among [keys]. *)
Definition occ (k : ImageProcessor.Color) (keys : list ImageProcessor.Color) : Z :=
  Z.of_nat (length (filter (fun c => c = k) keys)).

(** The counting loop shared by [analyzeColorClusters],
    [getMostFrequentColor] and [createColorHistogram], on the keys of the
    pixels. *)
Definition tally (keys : list ImageProcessor.Color)
    : list (ImageProcessor.Color * Z) :=
  foldl (fun counts key => ImageProcessor.increment key counts) [] keys.

(** [counts] holds, once each, the keys that occur in [keys] with their
    numbers of occurrences. *)
Definition tally_of (keys : list ImageProcessor.Color)
    (counts : list (ImageProcessor.Color * Z)) : Prop :=
  NoDup counts.*1 /\
  forall k n, (k, n) ∈ counts <-> occ k keys = n /\ 0 < n.

(** A list in descending order of [key]. *)
Definition descending {A : Type} (key : A -> Q) (l : list A) : Prop :=
  StronglySorted (fun a b => (key b <= key a)%Q) l.


(** *** The plain builder in binary64 *)

Section Binary64.

Import Double.

(** The perceptual distance [sqrt (0.3 dr^2 + 0.59 dg^2 + 0.11 db^2)]
    between a pixel and a colour, each operation rounded to binary64. *)
Definition perceptual_distance (p c : ImageProcessor.Color) : double :=
  let dr := (num (ImageProcessor.r p) - num (ImageProcessor.r c))%D in
  let dg := (num (ImageProcessor.g p) - num (ImageProcessor.g c))%D in
  let db := (num (ImageProcessor.b p) - num (ImageProcessor.b c))%D in
  sqrt (lit 3 10 * pow2 dr + lit 59 100 * pow2 dg + lit 11 100 * pow2 db)%D.

(** The linear ramp from 0 at distance [0.6 T] to 255 at distance [T],
    each operation rounded to binary64. *)
Definition ramp (d T : double) : double :=
  ((d - lit 6 10 * T) / (lit 4 10 * T) * of_Z 255)%D.

(** What the body of the loop of [Double.createProtectedMask] stores at
    index [i], if anything. *)
Definition double_store (data : list Z) (width height channels : Z)
    (targetColor : ImageProcessor.Color) (tolerance : double) (i : Z) : option Z :=
  if JS.truthy (JS.get (ImageProcessor.createProtectedZone width height) i) then None
  else
    let d := distance (ImageProcessor.at_ data (i * channels)) targetColor in
    if (d <=? tolerance * lit 6 10)%D then Some 0
    else if (d <=? tolerance)%D then
      Some (JS.to_int (round ((d - tolerance * lit 6 10)
                              / (tolerance * lit 4 10) * of_Z 255)%D))
    else None.

End Binary64.

(** *** The alpha channel of a raster *)

(** The bytes [4 i + 3] of an RGBA raster of [n] pixels. *)
Definition alpha_channel (rgba : list Z) (n : Z) : list Z :=
  (fun i => JS.to_int (JS.get rgba (i * 4 + 3))) <$> JS.range 0 n.

(** A mask of the image: one byte per pixel. *)
Definition byte_mask (width height : Z) (m : list Z) : Prop :=
  Z.of_nat (length m) = Z.max 0 (width * height) /\ bytes m.
(** ** Buffers and loops: general facts *)

Section BufferFacts.

Lemma get_alloc n v i : 0 <= i < n -> JS.get (JS.alloc n v) i = Some v.
Proof.
  intros Hi. unfold JS.get, JS.alloc.
  destruct (Z.ltb_spec i 0); [lia|].
  apply lookup_replicate_2. lia.
Qed.

Lemma length_alloc n v : Z.of_nat (length (JS.alloc n v)) = Z.max 0 n.
Proof. unfold JS.alloc. rewrite length_replicate. lia. Qed.

Lemma length_set b i v : length (JS.set b i v) = length b.
Proof. unfold JS.set. destruct (i <? 0); [done|]. apply length_insert. Qed.

Lemma get_set_eq b i v :
  0 <= i < Z.of_nat (length b) -> JS.get (JS.set b i v) i = Some (v mod 256).
Proof.
  intros Hi. unfold JS.get, JS.set.
  destruct (Z.ltb_spec i 0); [lia|].
  apply list_lookup_insert_eq. lia.
Qed.

Lemma get_set_ne b i j v : i <> j -> JS.get (JS.set b i v) j = JS.get b j.
Proof.
  intros Hij. unfold JS.get, JS.set.
  destruct (Z.ltb_spec j 0); [done|].
  destruct (Z.ltb_spec i 0); [done|].
  apply list_lookup_insert_ne. lia.
Qed.

Lemma get_Some_lt b i v : JS.get b i = Some v -> 0 <= i < Z.of_nat (length b).
Proof.
  unfold JS.get. destruct (Z.ltb_spec i 0); [done|].
  intros H1. apply lookup_lt_Some in H1. lia.
Qed.

Lemma get_lt_is_Some b i : 0 <= i < Z.of_nat (length b) -> is_Some (JS.get b i).
Proof.
  intros Hi. unfold JS.get. destruct (Z.ltb_spec i 0); [lia|].
  apply lookup_lt_is_Some. lia.
Qed.

Lemma elem_of_range lo hi k : k ∈ JS.range lo hi <-> lo <= k < hi.
Proof. unfold JS.range. rewrite elem_of_seqZ. lia. Qed.

(** Row-major indices of distinct in-range pixels are distinct. *)
Lemma index_inj w x y x' y' :
  0 <= x < w -> 0 <= x' < w -> y * w + x = y' * w + x' -> x = x' /\ y = y'.
Proof. intros Hx Hx' He. assert (y = y') by nia. subst. lia. Qed.

(** A pair of nested loops that stores [f x y] at index [y * w + x]: the
    cells of the pixels the loops visit hold [f], every other cell keeps
    its value. *)
Lemma forYX_set_length w (f : Z -> Z -> Z) ys xs b :
  length (JS.forYX ys xs (fun r x y => JS.set r (y * w + x) (f x y)) b) = length b.
Proof.
  unfold JS.forYX. revert b.
  induction ys as [|y ys IH]; intros b; simpl; [done|].
  rewrite IH. clear IH. revert b.
  induction xs as [|x xs IH]; intros b; simpl; [done|].
  rewrite IH. apply length_set.
Qed.

Lemma forYX_set_other w (f : Z -> Z -> Z) ys xs b i :
  (forall x y, x ∈ xs -> y ∈ ys -> y * w + x <> i) ->
  JS.get (JS.forYX ys xs (fun r x y => JS.set r (y * w + x) (f x y)) b) i = JS.get b i.
Proof.
  unfold JS.forYX. revert b.
  induction ys as [|y ys IH]; intros b Hne; simpl; [done|].
  rewrite IH by (intros; apply Hne; [done|by right]).
  assert (Hy : forall x, x ∈ xs -> y * w + x <> i) by (intros; apply Hne; [done|by left]).
  clear IH Hne. revert b.
  induction xs as [|x xs IH]; intros b; simpl; [done|].
  rewrite IH by (intros; apply Hy; by right).
  apply get_set_ne. apply Hy. by left.
Qed.

Lemma forYX_set_at w (f : Z -> Z -> Z) ys xs b x y :
  (forall x', x' ∈ xs -> 0 <= x' < w) ->
  0 <= y * w + x < Z.of_nat (length b) ->
  x ∈ xs -> y ∈ ys ->
  JS.get (JS.forYX ys xs (fun r x y => JS.set r (y * w + x) (f x y)) b) (y * w + x)
  = Some (f x y mod 256).
Proof.
  intros Hxs. unfold JS.forYX. revert b.
  induction ys as [|y0 ys IH]; intros b Hlen Hx Hy; [by apply elem_of_nil in Hy|].
  simpl.
  destruct (decide (y ∈ ys)) as [Hin|Hnin].
  - apply IH; [|done|done].
    pose proof (forYX_set_length w f [y0] xs b) as Hl.
    unfold JS.forYX in Hl. simpl in Hl. rewrite Hl. done.
  - apply elem_of_cons in Hy as [->|Hy]; [|done].
    pose proof (forYX_set_other w f ys xs) as Ho. unfold JS.forYX in Ho.
    rewrite Ho.
    2:{ intros x' y' Hx' Hy' He.
        apply index_inj in He as [_ ->]; [done|by apply Hxs|by apply Hxs]. }
    clear IH Ho Hnin. revert b Hlen.
    induction xs as [|x0 xs IH]; intros b Hlen; [by apply elem_of_nil in Hx|].
    simpl.
    destruct (decide (x ∈ xs)) as [Hin|Hnin].
    + apply IH; [intros; apply Hxs; by right|done|].
      by rewrite length_set.
    + apply elem_of_cons in Hx as [->|Hx]; [|done].
      pose proof (forYX_set_other w f [y0] xs) as Ho. unfold JS.forYX in Ho.
      simpl in Ho. rewrite Ho.
      * by apply get_set_eq.
      * intros x' y' Hx' Hy' He. apply list_elem_of_singleton in Hy' as ->.
        assert (x' = x0) by lia. by subst.
Qed.

(** The same for loops that store under a condition: [g] tells, for each
    pixel, whether the body stores and which value. *)
Lemma forYX_upd_length w (g : Z -> Z -> option Z) body ys xs b :
  (forall r x y, body r x y =
     match g x y with Some v => JS.set r (y * w + x) v | None => r end) ->
  length (JS.forYX ys xs body b) = length b.
Proof.
  intros Hbody. unfold JS.forYX. revert b.
  induction ys as [|y ys IH]; intros b; simpl; [done|].
  rewrite IH. clear IH. revert b.
  induction xs as [|x xs IH]; intros b; simpl; [done|].
  rewrite IH, Hbody. destruct (g x y); [apply length_set|done].
Qed.

Lemma forYX_upd_other w (g : Z -> Z -> option Z) body ys xs b i :
  (forall r x y, body r x y =
     match g x y with Some v => JS.set r (y * w + x) v | None => r end) ->
  (forall x y, x ∈ xs -> y ∈ ys -> y * w + x <> i) ->
  JS.get (JS.forYX ys xs body b) i = JS.get b i.
Proof.
  intros Hbody. unfold JS.forYX. revert b.
  induction ys as [|y ys IH]; intros b Hne; simpl; [done|].
  rewrite IH by (intros; apply Hne; [done|by right]).
  assert (Hy : forall x, x ∈ xs -> y * w + x <> i) by (intros; apply Hne; [done|by left]).
  clear IH Hne. revert b.
  induction xs as [|x xs IH]; intros b; simpl; [done|].
  rewrite IH by (intros; apply Hy; by right).
  rewrite Hbody. destruct (g x y); [|done].
  apply get_set_ne. apply Hy. by left.
Qed.

Lemma forYX_upd_at w (g : Z -> Z -> option Z) body ys xs b x y :
  (forall r x y, body r x y =
     match g x y with Some v => JS.set r (y * w + x) v | None => r end) ->
  (forall x', x' ∈ xs -> 0 <= x' < w) ->
  NoDup xs -> NoDup ys ->
  0 <= y * w + x < Z.of_nat (length b) ->
  x ∈ xs -> y ∈ ys ->
  JS.get (JS.forYX ys xs body b) (y * w + x)
  = match g x y with Some v => Some (v mod 256) | None => JS.get b (y * w + x) end.
Proof.
  intros Hbody Hxs Hdx Hdy. unfold JS.forYX. revert b.
  induction Hdy as [|y0 ys Hy0 Hdy IH]; intros b Hlen Hx Hy; [by apply elem_of_nil in Hy|].
  simpl.
  pose proof (forYX_upd_length w g body [y0] xs b Hbody) as Hl.
  unfold JS.forYX in Hl. simpl in Hl.
  apply elem_of_cons in Hy as [->|Hy].
  - pose proof (forYX_upd_other w g body ys xs) as Ho. unfold JS.forYX in Ho.
    rewrite Ho; [|done|].
    2:{ intros x' y' Hx' Hy' He.
        apply index_inj in He as [_ ->]; [done|by apply Hxs|by apply Hxs]. }
    clear IH Ho Hl Hy0 Hdy. revert b Hlen.
    induction Hdx as [|x0 xs Hx0 Hdx IH]; intros b Hlen; [by apply elem_of_nil in Hx|].
    simpl.
    pose proof (forYX_upd_other w g body [y0] xs) as Ho. unfold JS.forYX in Ho.
    simpl in Ho.
    apply elem_of_cons in Hx as [->|Hx].
    + rewrite Ho; [|done|].
      2:{ intros x' y' Hx' Hy' He. apply list_elem_of_singleton in Hy' as ->.
          assert (x' = x0) by lia. by subst. }
      rewrite Hbody. destruct (g x0 y0); [|done]. by apply get_set_eq.
    + rewrite IH; [|intros; apply Hxs; by right|done|].
      2:{ rewrite Hbody. destruct (g x0 y0); [by rewrite length_set|done]. }
      destruct (g x y0); [done|].
      rewrite Hbody. destruct (g x0 y0); [|done].
      apply get_set_ne. intros He. assert (x0 = x) by lia. by subst.
  - rewrite IH; [|by rewrite Hl|done|done].
    destruct (g x y); [done|].
    pose proof (forYX_upd_other w g body [y0] xs b (y * w + x) Hbody) as Ho.
    unfold JS.forYX in Ho. simpl in Ho. apply Ho.
    intros x' y' Hx' Hy' He. apply list_elem_of_singleton in Hy' as ->.
    apply index_inj in He as [_ ->]; [done|by apply Hxs|by apply Hxs].
Qed.

(** A loop over the indices [0 .. n - 1] whose body stores at its own
    index only. *)
Lemma foldl_upd_length (g : Z -> option Z) body b (l : list Z) :
  (forall m j, body m j = match g j with Some v => JS.set m j v | None => m end) ->
  length (foldl body b l) = length b.
Proof.
  intros Hbody. revert b. induction l as [|j l IH]; intros b; simpl; [done|].
  rewrite IH, Hbody. destruct (g j); [apply length_set|done].
Qed.

Lemma foldl_upd_other (g : Z -> option Z) body b (l : list Z) i :
  (forall m j, body m j = match g j with Some v => JS.set m j v | None => m end) ->
  i ∉ l -> JS.get (foldl body b l) i = JS.get b i.
Proof.
  intros Hbody. revert b. induction l as [|j l IH]; intros b Hi; simpl; [done|].
  rewrite IH by (intros ?; apply Hi; by right).
  rewrite Hbody. destruct (g j); [|done].
  apply get_set_ne. intros ->. apply Hi. by left.
Qed.

Lemma foldl_upd_at (g : Z -> option Z) body b (l : list Z) i :
  (forall m j, body m j = match g j with Some v => JS.set m j v | None => m end) ->
  NoDup l -> i ∈ l -> 0 <= i < Z.of_nat (length b) ->
  JS.get (foldl body b l) i
  = match g i with Some v => Some (v mod 256) | None => JS.get b i end.
Proof.
  intros Hbody Hd. revert b.
  induction Hd as [|j l Hj Hd IH]; intros b Hi Hlen; [by apply elem_of_nil in Hi|].
  simpl. apply elem_of_cons in Hi as [->|Hi].
  - rewrite (foldl_upd_other g) by done.
    rewrite Hbody. destruct (g j); [|done]. by apply get_set_eq.
  - rewrite IH; [|done|].
    2:{ rewrite Hbody. destruct (g j); [by rewrite length_set|done]. }
    destruct (g i); [done|].
    rewrite Hbody. destruct (g j); [|done].
    apply get_set_ne. intros ->. done.
Qed.

Lemma NoDup_range lo hi : NoDup (JS.range lo hi).
Proof. apply NoDup_seqZ. Qed.


End BufferFacts.

(** ** Work-queue loops: invariants and termination *)

Section WhileQueue.

Context {A S : Type} (cont : S -> bool) (body : A -> S -> option (S * list A)).

(** A property of the queue and the state that every iteration keeps
    holds when the loop ends, and the loop ends on an empty queue or on
    a false condition. *)
Lemma whileQueue_inv (P : list A -> S -> Prop) fuel q s s_end :
  P q s ->
  (forall a q s, P (a :: q) s -> cont s = true -> body a s = None -> P q s) ->
  (forall a q s s' new,
     P (a :: q) s -> cont s = true -> body a s = Some (s', new) -> P (q ++ new) s') ->
  JS.whileQueue cont body fuel q s = Some s_end ->
  exists q_end, P q_end s_end /\ (q_end = [] \/ cont s_end = false).
Proof.
  intros HP Hskip Hstep. revert q s HP.
  induction fuel as [|fuel IH]; intros q s HP Hrun.
  - destruct q as [|a q]; simpl in Hrun.
    + injection Hrun as <-. exists []. auto.
    + destruct (cont s) eqn:Hc; [done|].
      injection Hrun as <-. exists (a :: q). auto.
  - destruct q as [|a q]; simpl in Hrun.
    + injection Hrun as <-. exists []. auto.
    + destruct (cont s) eqn:Hc.
      * destruct (body a s) as [[s' new]|] eqn:Hb.
        -- apply (IH (q ++ new) s'); [|done]. by eapply Hstep.
        -- apply (IH q s); [|done]. by eapply Hskip.
      * injection Hrun as <-. exists (a :: q). auto.
Qed.

(** The same for a property of the state alone. *)
Lemma whileQueue_state_inv (P : S -> Prop) fuel q s s_end :
  P s ->
  (forall a s s' new, P s -> cont s = true -> body a s = Some (s', new) -> P s') ->
  JS.whileQueue cont body fuel q s = Some s_end -> P s_end.
Proof.
  intros HP Hstep Hrun.
  destruct (whileQueue_inv (fun _ s => P s) fuel q s s_end) as (q_end & Hend & _);
    eauto.
Qed.

(** The loop ends within [fuel] iterations when a measure of the state
    bounds the items still to come. *)
Lemma whileQueue_is_Some (Inv : list A -> S -> Prop) (mu : S -> nat) fuel q s :
  Inv q s ->
  (forall a q s, Inv (a :: q) s -> cont s = true -> body a s = None -> Inv q s) ->
  (forall a q s s' new,
     Inv (a :: q) s -> cont s = true -> body a s = Some (s', new) ->
     Inv (q ++ new) s' /\ (mu s' + length new <= mu s)%nat) ->
  (mu s + length q <= fuel)%nat ->
  is_Some (JS.whileQueue cont body fuel q s).
Proof.
  intros HI Hskip Hstep. revert q s HI.
  induction fuel as [|fuel IH]; intros q s HI Hfuel.
  - destruct q as [|a q]; simpl in *; [done|lia].
  - destruct q as [|a q]; simpl in *; [done|].
    destruct (cont s) eqn:Hc; [|done].
    destruct (body a s) as [[s' new]|] eqn:Hb.
    + destruct (Hstep a q s s' new HI Hc Hb) as [HI' Hmu].
      apply IH; [done|]. rewrite length_app. lia.
    + apply IH; [by eapply Hskip|]. lia.
Qed.

End WhileQueue.
(** ** The morphology engine *)

Section Morphology.

Lemma bytes_get b i v : bytes b -> JS.get b i = Some v -> 0 <= v <= 255.
Proof.
  unfold bytes, JS.get. intros Hb. destruct (i <? 0); [done|].
  intros Hl. rewrite Forall_forall in Hb. apply Hb.
  apply list_elem_of_lookup. eauto.
Qed.

Lemma bytes_alloc n : bytes (JS.alloc n 0).
Proof. unfold bytes, JS.alloc. apply Forall_replicate. lia. Qed.

Lemma bytes_set b i v : bytes b -> bytes (JS.set b i v).
Proof.
  unfold bytes, JS.set. intros Hb. destruct (i <? 0); [done|].
  apply Forall_insert; [done|]. pose proof (Z.mod_pos_bound v 256). lia.
Qed.

Lemma bytes_forYX_set w (f : Z -> Z -> Z) ys xs b :
  bytes b -> bytes (JS.forYX ys xs (fun r x y => JS.set r (y * w + x) (f x y)) b).
Proof.
  unfold JS.forYX. revert b.
  induction ys as [|y ys IH]; intros b Hb; simpl; [done|].
  apply IH. clear IH. revert b Hb.
  induction xs as [|x xs IH]; intros b Hb; simpl; [done|].
  apply IH. by apply bytes_set.
Qed.

Lemma window_range : JS.range (-1) 2 = [-1; 0; 1].
Proof. reflexivity. Qed.

Lemma foldl_min_spec mask idxs a :
  (forall i, i ∈ idxs -> exists v, JS.get mask i = Some v) ->
  exists r, foldl (fun mv i => JS.min mv (JS.get mask i)) (Some a) idxs = Some r /\
            r <= a /\
            (forall i v, i ∈ idxs -> JS.get mask i = Some v -> r <= v) /\
            (forall lo, lo <= a ->
               (forall i v, i ∈ idxs -> JS.get mask i = Some v -> lo <= v) -> lo <= r).
Proof.
  revert a. induction idxs as [|i idxs IH]; intros a Hdef; simpl.
  - exists a. repeat split; [lia| |done].
    intros i v Hi. by apply elem_of_nil in Hi.
  - destruct (Hdef i) as [v Hv]; [by left|]. rewrite Hv. simpl.
    destruct (IH (Z.min a v)) as (r & Hr & Hle & Hall & Hlo).
    { intros j Hj. apply Hdef. by right. }
    exists r. split; [done|]. split; [lia|]. split.
    + intros j u Hj Hu. apply elem_of_cons in Hj as [->|Hj]; [|by eapply Hall].
      rewrite Hv in Hu. injection Hu as <-. lia.
    + intros lo Hlo1 Hlo2. apply Hlo.
      * assert (lo <= v) by (apply (Hlo2 i); [by left|done]). lia.
      * intros j u Hj Hu. apply (Hlo2 j); [by right|done].
Qed.

Lemma foldl_max_spec mask idxs a :
  (forall i, i ∈ idxs -> exists v, JS.get mask i = Some v) ->
  exists r, foldl (fun mv i => JS.max mv (JS.get mask i)) (Some a) idxs = Some r /\
            a <= r /\
            (forall i v, i ∈ idxs -> JS.get mask i = Some v -> v <= r) /\
            (forall hi, a <= hi ->
               (forall i v, i ∈ idxs -> JS.get mask i = Some v -> v <= hi) -> r <= hi).
Proof.
  revert a. induction idxs as [|i idxs IH]; intros a Hdef; simpl.
  - exists a. repeat split; [lia| |done].
    intros i v Hi. by apply elem_of_nil in Hi.
  - destruct (Hdef i) as [v Hv]; [by left|]. rewrite Hv. simpl.
    destruct (IH (Z.max a v)) as (r & Hr & Hle & Hall & Hhi).
    { intros j Hj. apply Hdef. by right. }
    exists r. split; [done|]. split; [lia|]. split.
    + intros j u Hj Hu. apply elem_of_cons in Hj as [->|Hj]; [|by eapply Hall].
      rewrite Hv in Hu. injection Hu as <-. lia.
    + intros hi Hhi1 Hhi2. apply Hhi.
      * assert (v <= hi) by (apply (Hhi2 i); [by left|done]). lia.
      * intros j u Hj Hu. apply (Hhi2 j); [by right|done].
Qed.

Lemma index_range w h x y : in_image w h x y -> 0 <= y * w + x < w * h.
Proof. unfold in_image. nia. Qed.

Lemma erode_length m w h : 0 <= w * h ->
  Z.of_nat (length (AIBackgroundRemover.erode m w h)) = w * h.
Proof.
  intros Hwh. unfold AIBackgroundRemover.erode.
  rewrite forYX_set_length, length_alloc. lia.
Qed.

Lemma dilate_length m w h : 0 <= w * h ->
  Z.of_nat (length (AIBackgroundRemover.dilate m w h)) = w * h.
Proof.
  intros Hwh. unfold AIBackgroundRemover.dilate.
  rewrite forYX_set_length, length_alloc. lia.
Qed.

Lemma erode_bytes m w h : bytes (AIBackgroundRemover.erode m w h).
Proof. apply bytes_forYX_set, bytes_alloc. Qed.

Lemma dilate_bytes m w h : bytes (AIBackgroundRemover.dilate m w h).
Proof. apply bytes_forYX_set, bytes_alloc. Qed.

(** Inside the frame the filters store the minimum, resp. maximum, of
    the window. *)
Lemma erode_interior m w h x y :
  1 <= x <= w - 2 -> 1 <= y <= h - 2 ->
  JS.get (AIBackgroundRemover.erode m w h) (y * w + x)
  = Some (JS.to_int (window_min m (window w x y)) mod 256).
Proof.
  intros Hx Hy. unfold AIBackgroundRemover.erode.
  rewrite forYX_set_at.
  - rewrite window_range. reflexivity.
  - intros x'. rewrite elem_of_range. lia.
  - rewrite length_alloc. nia.
  - apply elem_of_range. lia.
  - apply elem_of_range. lia.
Qed.

Lemma dilate_interior m w h x y :
  1 <= x <= w - 2 -> 1 <= y <= h - 2 ->
  JS.get (AIBackgroundRemover.dilate m w h) (y * w + x)
  = Some (JS.to_int (window_max m (window w x y)) mod 256).
Proof.
  intros Hx Hy. unfold AIBackgroundRemover.dilate.
  rewrite forYX_set_at.
  - rewrite window_range. reflexivity.
  - intros x'. rewrite elem_of_range. lia.
  - rewrite length_alloc. nia.
  - apply elem_of_range. lia.
  - apply elem_of_range. lia.
Qed.

(** On the frame the loops never write: the cell keeps the 0 of
    [Buffer.alloc]. *)
Lemma erode_frame m w h x y :
  in_image w h x y -> on_border w h x y ->
  JS.get (AIBackgroundRemover.erode m w h) (y * w + x) = Some 0.
Proof.
  intros Him Hb. unfold AIBackgroundRemover.erode.
  rewrite forYX_set_other.
  - apply get_alloc. by apply index_range.
  - intros x' y'. rewrite !elem_of_range. intros Hx' Hy' He.
    destruct Him. apply index_inj in He as [-> ->]; [|lia|lia].
    unfold on_border in Hb. lia.
Qed.

Lemma dilate_frame m w h x y :
  in_image w h x y -> on_border w h x y ->
  JS.get (AIBackgroundRemover.dilate m w h) (y * w + x) = Some 0.
Proof.
  intros Him Hb. unfold AIBackgroundRemover.dilate.
  rewrite forYX_set_other.
  - apply get_alloc. by apply index_range.
  - intros x' y'. rewrite !elem_of_range. intros Hx' Hy' He.
    destruct Him. apply index_inj in He as [-> ->]; [|lia|lia].
    unfold on_border in Hb. lia.
Qed.

(** The cells of a window around an interior pixel are pixels of the
    image at distance at most 1. *)
Lemma elem_of_window w x y i :
  i ∈ window w x y <->
  exists dx dy, -1 <= dx <= 1 /\ -1 <= dy <= 1 /\ i = (y + dy) * w + (x + dx).
Proof.
  unfold window. rewrite list_elem_of_fmap. split.
  - intros [[dx dy] [-> Hin]]. exists dx, dy. simpl.
    repeat (apply elem_of_cons in Hin as [Hin|Hin]; [injection Hin as -> ->; lia|]).
    by apply elem_of_nil in Hin.
  - intros (dx & dy & Hdx & Hdy & ->). exists (dx, dy). split; [done|].
    assert (Hc : (dx = -1 \/ dx = 0 \/ dx = 1) /\ (dy = -1 \/ dy = 0 \/ dy = 1)) by lia.
    destruct Hc as [[-> | [-> | ->]] [-> | [-> | ->]]];
      repeat (first [by left | right]).
Qed.

Lemma window_defined m w h x y :
  Z.of_nat (length m) = w * h ->
  1 <= x <= w - 2 -> 1 <= y <= h - 2 ->
  forall i, i ∈ window w x y -> exists v, JS.get m i = Some v.
Proof.
  intros Hlen Hx Hy i Hi. apply elem_of_window in Hi as (dx & dy & Hdx & Hdy & ->).
  apply get_lt_is_Some. rewrite Hlen. apply index_range. unfold in_image. lia.
Qed.

Lemma neighbours_areb_sound m w h x y v :
  neighbours_areb m w h x y v = true -> neighbours_are m w h x y v.
Proof.
  unfold neighbours_areb, neighbours_are. rewrite forallb_forall.
  intros Hall dx dy Hdx Hdy Hne [Hx Hy].
  specialize (Hall (dx, dy)). simpl in Hall.
  destruct (Z.leb_spec 0 (x + dx)); [|lia].
  destruct (Z.ltb_spec (x + dx) w); [|lia].
  destruct (Z.leb_spec 0 (y + dy)); [|lia].
  destruct (Z.ltb_spec (y + dy) h); [|lia].
  simpl in Hall. eapply bool_decide_eq_true_1. apply Hall.
  assert (Hc : (dx = -1 \/ dx = 0 \/ dx = 1) /\ (dy = -1 \/ dy = 0 \/ dy = 1)) by lia.
  destruct Hc as [[-> | [-> | ->]] [-> | [-> | ->]]]; simpl; try tauto.
Qed.

(** Erosion clears every pixel of the window of a foreground pixel whose
    neighbours are background. *)
Lemma erode_near_isolated m w h x y dx dy :
  Z.of_nat (length m) = w * h -> bytes m ->
  1 <= x <= w - 2 -> 1 <= y <= h - 2 ->
  neighbours_are m w h x y 0 ->
  -1 <= dx <= 1 -> -1 <= dy <= 1 ->
  JS.get (AIBackgroundRemover.erode m w h) ((y + dy) * w + (x + dx)) = Some 0.
Proof.
  intros Hlen Hb Hx Hy Hn Hdx Hdy.
  destruct (decide (1 <= x + dx <= w - 2 /\ 1 <= y + dy <= h - 2)) as [[Hqx Hqy]|Hfr].
  - rewrite erode_interior by done.
    destruct (foldl_min_spec m (window w (x + dx) (y + dy)) 255) as (r & Hr & _ & Hle & Hlo).
    { by eapply window_defined. }
    unfold window_min. rewrite Hr. simpl.
    assert (0 <= r).
    { apply Hlo; [lia|]. intros i v _ Hv. by apply (bytes_get m i v). }
    assert (r <= 0); [|replace r with 0 by lia; done].
    destruct (decide ((dx, dy) = (0, 0))) as [Heq|Hne].
    + injection Heq as -> ->.
      apply (Hle ((y + 0 + 0) * w + (x + 0 + 1))).
      * apply elem_of_window. exists 1, 0. lia.
      * replace ((y + 0 + 0) * w + (x + 0 + 1)) with ((y + 0) * w + (x + 1)) by lia.
        apply Hn; [lia|lia|done|]. unfold in_image. lia.
    + apply (Hle ((y + dy) * w + (x + dx))).
      * apply elem_of_window. exists 0, 0. lia.
      * apply Hn; [done|done|done|]. unfold in_image. lia.
  - apply erode_frame; unfold in_image, on_border; lia.
Qed.

Lemma dilate_near_isolated m w h x y dx dy :
  Z.of_nat (length m) = w * h -> bytes m ->
  2 <= x <= w - 3 -> 2 <= y <= h - 3 ->
  neighbours_are m w h x y 255 ->
  -1 <= dx <= 1 -> -1 <= dy <= 1 ->
  JS.get (AIBackgroundRemover.dilate m w h) ((y + dy) * w + (x + dx)) = Some 255.
Proof.
  intros Hlen Hb Hx Hy Hn Hdx Hdy.
  rewrite dilate_interior by lia.
  destruct (foldl_max_spec m (window w (x + dx) (y + dy)) 0) as (r & Hr & _ & Hle & Hhi).
  { eapply window_defined; [done|lia|lia]. }
  unfold window_max. rewrite Hr. simpl.
  assert (r <= 255).
  { apply Hhi; [lia|]. intros i v _ Hv. by apply (bytes_get m i v). }
  assert (255 <= r); [|replace r with 255 by lia; done].
  destruct (decide ((dx, dy) = (0, 0))) as [Heq|Hne].
  - injection Heq as -> ->.
    apply (Hle ((y + 0 + 0) * w + (x + 0 + 1))).
    + apply elem_of_window. exists 1, 0. lia.
    + replace ((y + 0 + 0) * w + (x + 0 + 1)) with ((y + 0) * w + (x + 1)) by lia.
      apply Hn; [lia|lia|done|]. unfold in_image. lia.
  - apply (Hle ((y + dy) * w + (x + dx))).
    + apply elem_of_window. exists 0, 0. lia.
    + apply Hn; [done|done|done|]. unfold in_image. lia.
Qed.

(** A window whose cells all hold [c] has minimum and maximum [c]. *)
Lemma window_min_const m idxs c :
  0 <= c <= 255 -> idxs <> [] ->
  (forall i, i ∈ idxs -> JS.get m i = Some c) -> window_min m idxs = Some c.
Proof.
  intros Hc Hne Hall.
  destruct (foldl_min_spec m idxs 255) as (r & Hr & _ & Hle & Hlo); [by eauto|].
  unfold window_min. rewrite Hr. f_equal.
  assert (c <= r).
  { apply Hlo; [lia|]. intros i v Hi Hv. rewrite (Hall i Hi) in Hv. injection Hv. lia. }
  destruct idxs as [|i idxs]; [done|].
  assert (r <= c) by (apply (Hle i); [by left|apply Hall; by left]). lia.
Qed.

Lemma window_max_const m idxs c :
  0 <= c <= 255 -> idxs <> [] ->
  (forall i, i ∈ idxs -> JS.get m i = Some c) -> window_max m idxs = Some c.
Proof.
  intros Hc Hne Hall.
  destruct (foldl_max_spec m idxs 0) as (r & Hr & _ & Hle & Hhi); [by eauto|].
  unfold window_max. rewrite Hr. f_equal.
  assert (r <= c).
  { apply Hhi; [lia|]. intros i v Hi Hv. rewrite (Hall i Hi) in Hv. injection Hv. lia. }
  destruct idxs as [|i idxs]; [done|].
  assert (c <= r) by (apply (Hle i); [by left|apply Hall; by left]). lia.
Qed.

Lemma window_nonempty w x y : window w x y <> [].
Proof. done. Qed.

Lemma opening_isolated_foreground m w h x y :
  Z.of_nat (length m) = w * h -> bytes m -> in_image w h x y ->
  neighbours_are m w h x y 0 ->
  JS.get (opening m w h) (y * w + x) = Some 0.
Proof.
  intros Hlen Hb Him Hn. unfold opening.
  destruct (decide (1 <= x <= w - 2 /\ 1 <= y <= h - 2)) as [[Hx Hy]|Hfr].
  - rewrite dilate_interior by done.
    rewrite (window_max_const _ _ 0); [done|lia|apply window_nonempty|].
    intros i Hi. apply elem_of_window in Hi as (dx & dy & Hdx & Hdy & ->).
    by apply erode_near_isolated.
  - apply dilate_frame; [done|]. unfold in_image, on_border in *. lia.
Qed.

Lemma closing_isolated_background m w h x y :
  Z.of_nat (length m) = w * h -> bytes m ->
  2 <= x <= w - 3 -> 2 <= y <= h - 3 ->
  neighbours_are m w h x y 255 ->
  JS.get (closing m w h) (y * w + x) = Some 255.
Proof.
  intros Hlen Hb Hx Hy Hn. unfold closing.
  rewrite erode_interior by lia.
  rewrite (window_min_const _ _ 255); [done|lia|apply window_nonempty|].
  intros i Hi. apply elem_of_window in Hi as (dx & dy & Hdx & Hdy & ->).
  by apply dilate_near_isolated.
Qed.

End Morphology.

(** ** The mask builders *)

Section MaskBuilders.

Import ImageProcessor.

Lemma createProtectedZone_length w h :
  Z.of_nat (length (createProtectedZone w h)) = Z.max 0 (w * h).
Proof.
  unfold createProtectedZone.
  rewrite (forYX_upd_length w (fun x y => if zone_test w h x y then Some 1 else None)).
  - apply length_alloc.
  - intros r x y. unfold zone_test. simpl. by destruct (JS.sqrt_le _ _).
Qed.

Lemma sqrt_le_one v : JS.sqrt_le v 1 = true <-> (v <= 1)%Q.
Proof.
  unfold JS.sqrt_le, JS.leb. simpl. rewrite Qle_bool_iff.
  split; intros H.
  - apply (Qle_trans _ (1 * 1)); [done|]. apply Qle_refl.
  - apply (Qle_trans _ 1); [done|]. apply Qle_refl.
Qed.

Lemma zone_test_spec w h x y : zone_test w h x y = true <-> protected_zone w h x y.
Proof.
  unfold zone_test, protected_zone. simpl. rewrite sqrt_le_one.
  assert (Ha : (Qmin (inject_Z w) (inject_Z h) * (25 # 100) ==
                Qmin (inject_Z w) (inject_Z h) * (1 # 2) / 2)%Q) by field.
  by rewrite Ha.
Qed.

Lemma createProtectedZone_get w h x y :
  in_image w h x y ->
  JS.get (createProtectedZone w h) (y * w + x)
  = Some (if zone_test w h x y then 1 else 0).
Proof.
  intros Him. unfold createProtectedZone.
  rewrite (forYX_upd_at w (fun x y => if zone_test w h x y then Some 1 else None)).
  - destruct (zone_test w h x y); [done|].
    apply get_alloc. by apply index_range.
  - intros r x' y'. unfold zone_test. simpl. by destruct (JS.sqrt_le _ _).
  - intros x'. rewrite elem_of_range. lia.
  - apply NoDup_range.
  - apply NoDup_range.
  - rewrite length_alloc. pose proof (index_range w h x y Him). lia.
  - apply elem_of_range. destruct Him. lia.
  - apply elem_of_range. destruct Him. lia.
Qed.

(** The zone buffer holds 1 exactly on the pixels of the ellipse. *)
Lemma createProtectedZone_spec w h x y :
  in_image w h x y ->
  JS.truthy (JS.get (createProtectedZone w h) (y * w + x)) = true <->
  protected_zone w h x y.
Proof.
  intros Him. rewrite createProtectedZone_get by done.
  rewrite <- zone_test_spec. by destruct (zone_test w h x y).
Qed.

Lemma createProtectedMask_get data w h ch target T i :
  0 <= i < w * h ->
  JS.get (createProtectedMask data w h ch target T) i
  = match plain_store data w h ch target T i with
    | Some v => Some (v mod 256)
    | None => Some 255
    end.
Proof.
  intros Hi. unfold createProtectedMask.
  rewrite (foldl_upd_at (plain_store data w h ch target T)).
  - destruct (plain_store _ _ _ _ _ _ _); [done|]. by apply get_alloc.
  - intros m j. unfold plain_store.
    destruct (JS.truthy _); [done|]. simpl.
    destruct (JS.sqrt_le_nan _ (T * _)); [done|].
    by destruct (JS.sqrt_le_nan _ T).
  - apply NoDup_range.
  - apply elem_of_range. lia.
  - rewrite length_alloc. lia.
Qed.

Lemma createEnhancedProtectedMask_get data w h ch target T i :
  0 <= i < w * h ->
  JS.get (createEnhancedProtectedMask data w h ch target T) i
  = match enhanced_store data w h ch target T i with
    | Some v => Some (v mod 256)
    | None => Some 255
    end.
Proof.
  intros Hi. unfold createEnhancedProtectedMask.
  rewrite (foldl_upd_at (enhanced_store data w h ch target T)).
  - destruct (enhanced_store _ _ _ _ _ _ _); [done|]. by apply get_alloc.
  - intros m j. unfold enhanced_store.
    destruct (JS.truthy _); [done|]. simpl.
    destruct (JS.sqrt_le_nan _ (T * _)); [done|].
    by destruct (JS.sqrt_le_nan _ T && _).
  - apply NoDup_range.
  - apply elem_of_range. lia.
  - rewrite length_alloc. lia.
Qed.

End MaskBuilders.

(** ** C3: the protected zone stays opaque *)

(** C3. For every image, target colour and tolerance, every pixel inside
    the elliptical protected zone (centred on the image, semi-axes
    0.25 * min(width, height)) has value 255 in the mask of
    [createProtectedMask] and in the mask of
    [createEnhancedProtectedMask]. *)
Theorem C3_protected_zone_is_opaque (data : list Z) (w h ch : Z)
    (target : ImageProcessor.Color) (T : Q) (x y : Z) :
  in_image w h x y -> protected_zone w h x y ->
  JS.get (ImageProcessor.createProtectedMask data w h ch target T) (y * w + x) = Some 255 /\
  JS.get (ImageProcessor.createEnhancedProtectedMask data w h ch target T) (y * w + x)
  = Some 255.
Proof.
  intros Him Hz. pose proof (index_range w h x y Him) as Hi.
  apply createProtectedZone_spec in Hz; [|done].
  rewrite createProtectedMask_get, createEnhancedProtectedMask_get by done.
  unfold plain_store, enhanced_store. by rewrite Hz.
Qed.

Lemma C3_protected_zone_is_opaque_witness :
  let white := {| ImageProcessor.r := Some 255; ImageProcessor.g := Some 255;
                  ImageProcessor.b := Some 255 |} in
  JS.get (ImageProcessor.createProtectedMask (replicate 48 255) 4 4 3 white 35)
    (2 * 4 + 2) = Some 255 /\
  JS.get (ImageProcessor.createEnhancedProtectedMask (replicate 48 255) 4 4 3 white 35)
    (2 * 4 + 2) = Some 255.
Proof.
  intros white.
  apply (C3_protected_zone_is_opaque (replicate 48 255) 4 4 3 white 35 2 2).
  - unfold in_image. lia.
  - apply zone_test_spec. reflexivity.
Defined.
(** ** C2: the values of the plain mask builder *)

(** *** The exact arithmetic of the cascade model

    What [JS.sqrt_le], [JS.sqrt_ge] and [JS.round_ramp] compute, in terms
    of the real square root. *)

Section PerceptualDistance.

Import ImageProcessor.

Lemma Q2R_inject_Z z : Q2R (inject_Z z) = IZR z.
Proof. unfold Q2R. simpl. lra. Qed.

(** [JS.sqrt_le] and [JS.sqrt_ge] decide the comparisons with the real
    square root. *)
Lemma sqrt_le_spec (v t : Q) :
  (0 <= v)%Q -> JS.sqrt_le v t = true <-> (sqrt (Q2R v) <= Q2R t)%R.
Proof.
  intros Hv0. apply Qle_Rle in Hv0. rewrite RMicromega.Q2R_0 in Hv0.
  unfold JS.sqrt_le, JS.leb. rewrite andb_true_iff, !Qle_bool_iff. split.
  - intros [Ht Hv]. apply Qle_Rle in Ht, Hv.
    rewrite Q2R_mult in Hv. rewrite RMicromega.Q2R_0 in Ht.
    rewrite <- (sqrt_square (Q2R t)) by done. by apply sqrt_le_1_alt.
  - intros Hs. pose proof (sqrt_pos (Q2R v)) as Hp.
    split; apply Rle_Qle.
    + rewrite RMicromega.Q2R_0. lra.
    + rewrite Q2R_mult. rewrite <- (sqrt_sqrt (Q2R v)) at 1 by done.
      apply Rmult_le_compat; lra.
Qed.

Lemma sqrt_ge_spec (v c : Q) :
  (0 <= v)%Q -> JS.sqrt_ge v c = true <-> (Q2R c <= sqrt (Q2R v))%R.
Proof.
  intros Hv0. apply Qle_Rle in Hv0. rewrite RMicromega.Q2R_0 in Hv0.
  pose proof (sqrt_pos (Q2R v)) as Hp.
  unfold JS.sqrt_ge, JS.leb. rewrite orb_true_iff, !Qle_bool_iff. split.
  - intros [Hc|Hc]; apply Qle_Rle in Hc.
    + rewrite RMicromega.Q2R_0 in Hc. lra.
    + rewrite Q2R_mult in Hc.
      destruct (Rle_dec (Q2R c) 0) as [Hneg|Hpos]; [lra|].
      rewrite <- (sqrt_square (Q2R c)) by lra. by apply sqrt_le_1_alt.
  - intros Hs. destruct (Rle_dec (Q2R c) 0) as [Hneg|Hpos].
    + left. apply Rle_Qle. by rewrite RMicromega.Q2R_0.
    + right. apply Rle_Qle. rewrite Q2R_mult.
      rewrite <- (sqrt_sqrt (Q2R v)) by done.
      apply Rmult_le_compat; lra.
Qed.

(** The number of [j] in [1 .. n] that are at most [k]. *)
Lemma count_le k (n : nat) :
  0 <= k ->
  Z.of_nat (length (List.filter (fun j => j <=? k) (seqZ 1 (Z.of_nat n))))
  = Z.min k (Z.of_nat n).
Proof.
  intros Hk. induction n as [|n IH].
  - simpl. lia.
  - rewrite seqZ_S, List.filter_app, length_app, Nat2Z.inj_add, IH.
    simpl. destruct (Z.leb_spec (1 + Z.of_nat n) k); simpl; lia.
Qed.

(** [JS.round_ramp] is [Math.round] of the ramp. *)
Lemma round_ramp_spec (v a b : Q) :
  (0 <= v)%Q -> (0 <= Q2R a)%R -> (0 < Q2R b)%R ->
  (Q2R a < sqrt (Q2R v) <= Q2R a + Q2R b)%R ->
  JS.round_ramp v a b
  = Int_part ((sqrt (Q2R v) - Q2R a) / Q2R b * 255 + / 2) /\
  0 <= JS.round_ramp v a b <= 255.
Proof.
  intros Hv Ha Hb [Hlo Hhi].
  set (t := ((sqrt (Q2R v) - Q2R a) / Q2R b * 255 + / 2)%R).
  set (k := Int_part t).
  assert (Ht : (/ 2 < t <= 255 + / 2)%R).
  { unfold t. split.
    - assert (0 < (sqrt (Q2R v) - Q2R a) / Q2R b * 255)%R; [|lra].
      apply Rmult_lt_0_compat; [|lra].
      apply Rdiv_lt_0_compat; lra.
    - assert ((sqrt (Q2R v) - Q2R a) / Q2R b <= 1)%R; [|lra].
      apply (Rmult_le_reg_r (Q2R b)); [done|].
      unfold Rdiv. rewrite Rmult_assoc, Rinv_l by lra. lra. }
  destruct (base_Int_part t) as [Hk1 Hk2]. fold k in Hk1, Hk2.
  assert (Hk : 0 <= k <= 255).
  { split.
    - apply le_IZR. destruct (Z_lt_le_dec k 0) as [Hneg|]; [|by apply IZR_le].
      assert (IZR k <= -1)%R by (apply IZR_le; lia). lra.
    - apply Z.lt_succ_r. apply lt_IZR. rewrite succ_IZR.
      assert (IZR 255 = 255%R) by done. lra. }
  assert (Hcount : JS.round_ramp v a b = k).
  { unfold JS.round_ramp, JS.range. change (256 - 1) with (Z.of_nat 255).
    rewrite (filter_ext_in _ (fun j => j <=? k)).
    - rewrite count_le by lia. lia.
    - intros j Hj. apply list_elem_of_In, elem_of_seqZ in Hj.
      apply eq_true_iff_eq. rewrite sqrt_ge_spec by done.
      rewrite Z.leb_le.
      rewrite Q2R_plus, Q2R_div, Q2R_mult, Q2R_minus, Q2R_inject_Z.
      2:{ intros Hz. apply Qeq_eqR in Hz. revert Hz. unfold Q2R. simpl. lra. }
      replace (Q2R (1 # 2)) with (/ 2)%R by (unfold Q2R; simpl; lra).
      replace (Q2R 255) with 255%R by (unfold Q2R; simpl; lra).
      assert (Heq : (Q2R a + (IZR j - / 2) * Q2R b / 255 <= sqrt (Q2R v) <->
                     IZR j <= t)%R).
      { unfold t. split; intros Hle.
        - assert ((IZR j - / 2) <= (sqrt (Q2R v) - Q2R a) / Q2R b * 255)%R; [|lra].
          apply (Rmult_le_reg_r (Q2R b / 255)); [lra|].
          replace ((sqrt (Q2R v) - Q2R a) / Q2R b * 255 * (Q2R b / 255))%R
            with (sqrt (Q2R v) - Q2R a)%R by (field; lra).
          lra.
        - assert ((IZR j - / 2) * (Q2R b / 255)
                  <= (sqrt (Q2R v) - Q2R a) / Q2R b * 255 * (Q2R b / 255))%R.
          { apply Rmult_le_compat_r; lra. }
          replace ((sqrt (Q2R v) - Q2R a) / Q2R b * 255 * (Q2R b / 255))%R
            with (sqrt (Q2R v) - Q2R a)%R in H by (field; lra).
          lra. }
      rewrite Heq. split; intros Hle.
      + apply Z.lt_succ_r. apply lt_IZR. rewrite succ_IZR. lra.
      + apply IZR_le in Hle. lra. }
  rewrite Hcount. done.
Qed.

Lemma weighted_defined (pr pg pb tr tg tb : Z) :
  weighted {| r := Some pr; g := Some pg; b := Some pb |}
           {| r := Some tr; g := Some tg; b := Some tb |}
  = Some (inject_Z ((pr - tr) ^ 2) * (3 # 10) + inject_Z ((pg - tg) ^ 2) * (59 # 100)
          + inject_Z ((pb - tb) ^ 2) * (11 # 100))%Q.
Proof. reflexivity. Qed.

Lemma weighted_nonneg (dr dg db : Z) :
  (0 <= inject_Z (dr ^ 2) * (3 # 10) + inject_Z (dg ^ 2) * (59 # 100)
        + inject_Z (db ^ 2) * (11 # 100))%Q.
Proof.
  assert (Hsq : forall z : Z, (0 <= inject_Z (z ^ 2))%Q).
  { intros z. unfold Qle. simpl. nia. }
  assert (Hadd : forall a c : Q, (0 <= a)%Q -> (0 <= c)%Q -> (0 <= a + c)%Q).
  { intros a c Ha Hc. apply (Qplus_le_compat 0 a 0 c); done. }
  repeat apply Hadd; apply Qmult_le_0_compat; try apply Hsq; done.
Qed.

Lemma weighted_real (dr dg db : Z) :
  Q2R (inject_Z (dr ^ 2) * (3 # 10) + inject_Z (dg ^ 2) * (59 # 100)
       + inject_Z (db ^ 2) * (11 # 100))
  = (3 / 10 * IZR dr ^ 2 + 59 / 100 * IZR dg ^ 2 + 11 / 100 * IZR db ^ 2)%R.
Proof.
  rewrite !Q2R_plus, !Q2R_mult, !Q2R_inject_Z.
  replace (Q2R (3 # 10)) with (3 / 10)%R by (unfold Q2R; simpl; lra).
  replace (Q2R (59 # 100)) with (59 / 100)%R by (unfold Q2R; simpl; lra).
  replace (Q2R (11 # 100)) with (11 / 100)%R by (unfold Q2R; simpl; lra).
  rewrite !(pow_IZR _ 2). change (Z.of_nat 2) with 2. lra.
Qed.

End PerceptualDistance.

(** *** The builder in binary64 *)

Section PlainBuilder.

Import Double.

Lemma mul_comm (a b : double) : (a * b)%D = (b * a)%D.
Proof.
  unfold mul.
  destruct a as [s|s| |s m e], b as [s'|s'| |s' m' e']; simpl; try done;
    rewrite ?(xorb_comm s s'), ?(Pos.mul_comm m m'), ?(Z.add_comm e e'); done.
Qed.

Lemma perceptual_distance_eq (p c : ImageProcessor.Color) :
  perceptual_distance p c = distance p c.
Proof.
  unfold perceptual_distance, distance. cbv zeta.
  by rewrite (mul_comm (lit 3 10)), (mul_comm (lit 59 100)), (mul_comm (lit 11 100)).
Qed.

Lemma ramp_eq (d T : double) :
  ramp d T = ((d - T * lit 6 10) / (T * lit 4 10) * of_Z 255)%D.
Proof. unfold ramp. by rewrite (mul_comm (lit 6 10)), (mul_comm (lit 4 10)). Qed.

Lemma double_createProtectedMask_get data w h ch target T i :
  0 <= i < w * h ->
  JS.get (createProtectedMask data w h ch target T) i
  = match double_store data w h ch target T i with
    | Some v => Some (v mod 256)
    | None => Some 255
    end.
Proof.
  intros Hi. unfold createProtectedMask.
  rewrite (foldl_upd_at (double_store data w h ch target T)).
  - destruct (double_store _ _ _ _ _ _ _); [done|]. by apply get_alloc.
  - intros m j. unfold double_store.
    destruct (JS.truthy _); [done|]. cbv zeta.
    destruct (leb _ (T * _)); [done|].
    by destruct (leb _ T).
  - apply NoDup_range.
  - apply elem_of_range. lia.
  - rewrite length_alloc. lia.
Qed.

(** C2. The code computes in binary64, and so does the statement: every
    operation below is the IEEE one.  For every image, target colour and
    tolerance [T], the mask of [createProtectedMask] holds, at each
    pixel outside the protected zone, 0 when the perceptual distance
    [d = sqrt (0.3 dr^2 + 0.59 dg^2 + 0.11 db^2)] to the target is at
    most [0.6 T]; the rounded ramp [round ((d - 0.6 T) / (0.4 T) * 255)]
    when [0.6 T < d <= T]; and 255 otherwise, which includes a pixel or
    a tolerance that is not a number. *)
Theorem C2_plain_mask_values (data : list Z) (w h ch : Z)
    (target : ImageProcessor.Color) (T : double) (x y : Z) :
  in_image w h x y -> ~ protected_zone w h x y ->
  let d := perceptual_distance (ImageProcessor.at_ data ((y * w + x) * ch)) target in
  let v := JS.get (createProtectedMask data w h ch target T) (y * w + x) in
  ((d <=? lit 6 10 * T)%D = true -> v = Some 0) /\
  ((d <=? lit 6 10 * T)%D = false -> (d <=? T)%D = true ->
   v = Some (stored (round (ramp d T)))) /\
  ((d <=? lit 6 10 * T)%D = false -> (d <=? T)%D = false -> v = Some 255).
Proof.
  intros Him Hz d v.
  assert (Hv : v = match double_store data w h ch target T (y * w + x) with
                   | Some u => Some (u mod 256) | None => Some 255 end).
  { apply double_createProtectedMask_get. by apply index_range. }
  unfold double_store in Hv.
  destruct (JS.truthy _) eqn:Hzone in Hv.
  { exfalso. apply Hz. by apply createProtectedZone_spec. }
  cbv zeta in Hv.
  rewrite <- perceptual_distance_eq, <- ramp_eq, <- (mul_comm (lit 6 10)) in Hv.
  fold d in Hv.
  destruct (d <=? lit 6 10 * T)%D; [by repeat split|].
  destruct (d <=? T)%D; by repeat split.
Qed.

End PlainBuilder.

Lemma C2_plain_mask_values_witness :
  let black := {| ImageProcessor.r := Some 0; ImageProcessor.g := Some 0;
                  ImageProcessor.b := Some 0 |} in
  JS.get (Double.createProtectedMask [32; 32; 32] 1 1 3 black (Double.of_Z 40))
    (0 * 1 + 0) = Some 127.
Proof.
  intros black.
  refine (proj1 (proj2 (C2_plain_mask_values [32; 32; 32] 1 1 3 black
                          (Double.of_Z 40) 0 0 _ _)) _ _).
  - unfold in_image. lia.
  - rewrite <- zone_test_spec. discriminate.
  - vm_compute. reflexivity.
  - vm_compute. reflexivity.
Defined.
(** ** C6: the statistics of a mask *)

(** C6 fails on the code: [analyzeMaskStatistics] lays the mask out on a
    grid of side [Math.sqrt(mask.length)].  For the mask [0 255 0 255]
    of a 4x1 image it reports 50% removed and a single region, the two
    zero pixels being stacked in a 2x2 grid, while in the 4x1 grid they
    are two regions; [countConnectedRegions] itself, given the width and
    the height of the image, counts 2. *)
Theorem C6_statistics_assume_a_square_image (sharp : ImageProcessor.Sharp) :
  ImageProcessor.analyzeMaskStatistics sharp [0; 255; 0; 255] = (50%Q, 1) /\
  ImageProcessor.countConnectedRegions [0; 255; 0; 255] 4 1 = 2.
Proof. split; vm_compute; reflexivity. Qed.

(** ** C1: the forced removal *)

(** C1 fails on the code.  On the uniform 20x5 image of colour
    (200, 200, 200) the first three stages reject; whenever the edge
    stage rejects too, [forceBackgroundRemoval] rejects its own three
    masks, leaves the [try] block without having written anything (the
    opaque pass-through is only built in the [catch] block), and
    [removeBackground] still reports success. *)
Theorem C1_forced_removal_can_write_nothing (sharp : ImageProcessor.Sharp) :
  let data := replicate 300 200 in
  let info := {| ImageProcessor.width := 20; ImageProcessor.height := 5;
                 ImageProcessor.channels := 3 |} in
  ImageProcessor.aggressiveEdgeProcessing sharp data info = None ->
  ImageProcessor.advancedBackgroundDetection sharp data info = None /\
  ImageProcessor.floodFillBackgroundRemoval sharp data info = None /\
  ImageProcessor.statisticalBackgroundSeparation sharp data info = None /\
  ImageProcessor.forceBackgroundRemoval sharp data info = ImageProcessor.WroteNothing /\
  ImageProcessor.removeBackground sharp (Some (data, info))
  = ({| ImageProcessor.success := true;
        ImageProcessor.method := Some "Forced Background Removal";
        ImageProcessor.error := Some "Applied aggressive background removal as fallback" |},
     None).
Proof.
  intros data info Hedge.
  assert (H1 : ImageProcessor.advancedBackgroundDetection sharp data info = None)
    by (vm_compute; reflexivity).
  assert (H2 : ImageProcessor.floodFillBackgroundRemoval sharp data info = None)
    by (vm_compute; reflexivity).
  assert (H3 : ImageProcessor.statisticalBackgroundSeparation sharp data info = None)
    by (vm_compute; reflexivity).
  assert (H5 : ImageProcessor.forceBackgroundRemoval sharp data info
               = ImageProcessor.WroteNothing) by (vm_compute; reflexivity).
  split; [exact H1|]. split; [exact H2|]. split; [exact H3|]. split; [exact H5|].
  unfold ImageProcessor.removeBackground. rewrite H1, H2, H3, Hedge, H5.
  reflexivity.
Qed.

Lemma C1_forced_removal_can_write_nothing_witness :
  let sharp := {| ImageProcessor.edgeBuffer := Some (replicate 100 255);
                  ImageProcessor.toFile := fun _ => true;
                  ImageProcessor.fractionalRegions := fun _ => 0 |} in
  ImageProcessor.removeBackground sharp
    (Some (replicate 300 200,
           {| ImageProcessor.width := 20; ImageProcessor.height := 5;
              ImageProcessor.channels := 3 |}))
  = ({| ImageProcessor.success := true;
        ImageProcessor.method := Some "Forced Background Removal";
        ImageProcessor.error := Some "Applied aggressive background removal as fallback" |},
     None).
Proof.
  intros sharp.
  refine (proj2 (proj2 (proj2 (proj2 (C1_forced_removal_can_write_nothing sharp _))))).
  vm_compute. reflexivity.
Defined.
(** ** C7: the statistical stage *)

Section Statistical.

Import ImageProcessor.

Lemma firstSome_Some {A B : Type} (f : A -> option B) (l : list A) (v : B) :
  JS.firstSome f l = Some v -> exists a, a ∈ l /\ f a = Some v.
Proof.
  induction l as [|a l IH]; simpl; [done|].
  destruct (f a) as [u|] eqn:Ha.
  - intros [= ->]. exists a. split; [by left|done].
  - intros Hl. destruct (IH Hl) as (a' & Hin & Ha'). exists a'. split; [by right|done].
Qed.

Lemma firstSome_is_Some {A B : Type} (f : A -> option B) (l : list A) (a : A) :
  a ∈ l -> is_Some (f a) -> is_Some (JS.firstSome f l).
Proof.
  induction l as [|a0 l IH]; intros Hin Ha; [by apply elem_of_nil in Hin|].
  simpl. destruct (f a0) eqn:Ha0; [done|].
  apply elem_of_cons in Hin as [->|Hin].
  - rewrite Ha0 in Ha. by destruct Ha.
  - by apply IH.
Qed.

Lemma ltb_false a c : JS.ltb a c = false <-> (c <= a)%Q.
Proof.
  unfold JS.ltb. rewrite negb_false_iff. apply Qle_bool_iff.
Qed.

Lemma leb_true a c : JS.leb a c = true <-> (a <= c)%Q.
Proof. apply Qle_bool_iff. Qed.

End Statistical.

(** C7, as stated, fails.  On the [mosaic] image the first two stages
    reject and [removeBackground] succeeds with the statistical stage;
    the mask that stage accepts, built for the dominant colour
    (200, 200, 200) at tolerance 40, holds the ramp value 32 at pixel
    (5, 1), where the enhanced builder stores 0; the search over
    enhanced masks accepts a different mask. *)
Lemma C7_counterexample :
  ImageProcessor.method
    (ImageProcessor.removeBackground quiet_sharp (Some (mosaic, mosaic_info))).1
  = Some "Statistical Background Separation" /\
  (exists mask, ImageProcessor.statisticalCandidate quiet_sharp mosaic mosaic_info
                = Some mask /\
                JS.get mask (1 * 20 + 5) = Some 32) /\
  (exists mask, statisticalCandidate_enhanced quiet_sharp mosaic mosaic_info
                = Some mask /\
                JS.get mask (1 * 20 + 5) = Some 0) /\
  ImageProcessor.statisticalCandidate quiet_sharp mosaic mosaic_info
  <> statisticalCandidate_enhanced quiet_sharp mosaic mosaic_info.
Proof.
  split; [by vm_compute|].
  split; [eexists; split; [by vm_compute|by vm_compute]|].
  split; [eexists; split; [by vm_compute|by vm_compute]|].
  vm_compute. discriminate.
Qed.

(** C7, amended.  In the StatisticalSeparation stage the candidate masks
    are built with the plain builder [createProtectedMask]: the mask the
    stage accepts is [createProtectedMask] of a dominant colour with
    frequency at least 8% and background score at least 0.5, at a
    tolerance among 40, 60, 80, 100, its removal lies in 15-80% and the
    validator passes; and the stage accepts a mask as soon as one such
    candidate exists. *)
Theorem C7_statistical_stage_uses_plain_builder (sharp : ImageProcessor.Sharp)
    (data : list Z) (info : ImageProcessor.Info) :
  let w := ImageProcessor.width info in
  let h := ImageProcessor.height info in
  let ch := ImageProcessor.channels info in
  let acceptable (color : ImageProcessor.Color) (frequency T : Q) (mask : list Z) :=
    (color, frequency) ∈ ImageProcessor.findDominantColors
                            (ImageProcessor.createColorHistogram data w h ch) 7 /\
    (8 <= frequency)%Q /\
    (1 # 2 <= ImageProcessor.calculateEnhancedBackgroundScore data w h ch color)%Q /\
    T ∈ [40; 60; 80; 100]%Q /\
    mask = ImageProcessor.createProtectedMask data w h ch color T /\
    (15 <= ImageProcessor.removedPercentage mask)%Q /\
    (ImageProcessor.removedPercentage mask <= 80)%Q /\
    ImageProcessor.validateObjectPreservation mask w h = true in
  (forall mask, ImageProcessor.statisticalCandidate sharp data info = Some mask ->
     exists color frequency T, acceptable color frequency T mask) /\
  (forall color frequency T mask, acceptable color frequency T mask ->
     is_Some (ImageProcessor.statisticalCandidate sharp data info)).
Proof.
  intros w h ch acceptable. unfold ImageProcessor.statisticalCandidate.
  fold w h ch. split.
  - intros mask Hm.
    apply firstSome_Some in Hm as ([color frequency] & Hin & Hm).
    cbv beta zeta in Hm. cbn [fst snd] in Hm.
    destruct (JS.ltb frequency 8) eqn:Hf; [done|].
    destruct (JS.leb (1 # 2) _) eqn:Hs; [|done].
    apply firstSome_Some in Hm as (T & HT & Hm).
    cbv beta zeta in Hm. unfold ImageProcessor.analyzeMaskStatistics in Hm.
    cbv zeta in Hm. cbn [fst snd] in Hm.
    destruct (JS.leb 15 _) eqn:H15; [|done].
    destruct (JS.leb _ 80) eqn:H80; [|done].
    destruct (ImageProcessor.validateObjectPreservation _ _ _) eqn:Hv; [|done].
    cbn [andb] in Hm. injection Hm as <-.
    exists color, frequency, T. unfold acceptable.
    apply ltb_false in Hf. apply leb_true in Hs, H15, H80. done.
  - intros color frequency T mask (Hin & Hf & Hs & HT & -> & H15 & H80 & Hv).
    apply (firstSome_is_Some _ _ (color, frequency)); [done|].
    cbv beta zeta. cbn [fst snd].
    apply ltb_false in Hf. apply leb_true in Hs. rewrite Hf, Hs.
    apply (firstSome_is_Some _ _ T); [done|].
    cbv beta zeta. unfold ImageProcessor.analyzeMaskStatistics.
    cbv zeta. cbn [fst snd].
    apply leb_true in H15, H80. rewrite H15, H80, Hv. by eexists.
Qed.

Lemma C7_statistical_stage_uses_plain_builder_witness :
  exists color frequency T,
    ImageProcessor.statisticalCandidate quiet_sharp mosaic mosaic_info
    = Some (ImageProcessor.createProtectedMask mosaic 20 5 3 color T) /\
    (8 <= frequency)%Q /\ T ∈ [40; 60; 80; 100]%Q.
Proof.
  destruct (ImageProcessor.statisticalCandidate quiet_sharp mosaic mosaic_info)
    as [mask|] eqn:Hm; [|by vm_compute in Hm].
  destruct (proj1 (C7_statistical_stage_uses_plain_builder quiet_sharp mosaic mosaic_info)
              mask Hm) as (color & frequency & T & _ & Hf & _ & HT & -> & _).
  exists color, frequency, T.
  split; [reflexivity|]. split; [exact Hf|exact HT].
Defined.
(** ** C4: the region grower *)

Section RegionGrower.

Import ImageProcessor.

Lemma ltb_cap p N :
  JS.ltb (inject_Z p) (inject_Z N * (65 # 100)) = true <-> 100 * p < 65 * N.
Proof.
  unfold JS.ltb. rewrite negb_true_iff.
  destruct (Qle_bool _ _) eqn:E.
  - apply Qle_bool_iff in E. unfold Qle in E. simpl in E. split; [done|lia].
  - split; [intros _|done].
    destruct (Z_lt_le_dec (100 * p) (65 * N)) as [|Hge]; [done|].
    assert (Qle_bool (inject_Z N * (65 # 100)) (inject_Z p) = true); [|congruence].
    apply Qle_bool_iff. unfold Qle. simpl. lia.
Qed.

(** What one seed does: [processedPixels] counts the pixels it absorbs,
    stays below the cap plus one, and no protected cell is written. *)
Lemma floodLoop_spec data mask visited zone sx sy w h ch T mask' visited' n :
  0 <= w * h ->
  floodLoop data mask visited zone sx sy w h ch T = Some (mask', visited', n) ->
  0 <= n /\ 100 * n < 65 * (w * h) + 100 /\
  size visited' = (size visited + Z.to_nat n)%nat /\
  length mask' = length mask /\
  (forall i, JS.truthy (JS.get zone i) = true -> JS.get mask' i = JS.get mask i).
Proof.
  intros HN Hrun. unfold floodLoop in Hrun.
  apply (whileQueue_state_inv _ _
    (fun s : list Z * gset Z * Z =>
       0 <= s.2 /\ 100 * s.2 < 65 * (w * h) + 100 /\
       size s.1.2 = (size visited + Z.to_nat s.2)%nat /\
       length s.1.1 = length mask /\
       (forall i, JS.truthy (JS.get zone i) = true -> JS.get s.1.1 i = JS.get mask i)))
    in Hrun.
  - exact Hrun.
  - simpl. repeat split; first [lia|done].
  - intros [x y] [[m v] k] [[m1 v1] k1] new (Hk & Hcap & Hsize & Hlen & Hzone) Hc Hb.
    cbn [fst snd] in *. apply ltb_cap in Hc.
    cbv beta iota zeta in Hb.
    destruct (_ || _) eqn:Hskip in Hb; [done|].
    destruct (JS.sqrt_le_nan _ _) in Hb; [|done].
    injection Hb as <- <- <- <-.
    apply orb_false_iff in Hskip as [Hskip Hprot].
    apply orb_false_iff in Hskip as [_ Hvis].
    apply bool_decide_eq_false in Hvis.
    repeat split; try lia.
    + rewrite size_union by set_solver. rewrite size_singleton. lia.
    + by rewrite length_set.
    + intros i Hi. rewrite get_set_ne; [by apply Hzone|].
      intros <-. congruence.
Qed.

Lemma floodLoop_terminates data mask visited zone sx sy w h ch T :
  w * h <= Z.of_nat (length mask) ->
  is_Some (floodLoop data mask visited zone sx sy w h ch T).
Proof.
  intros Hlen. unfold floodLoop.
  apply (whileQueue_is_Some _ _
    (fun _ (s : list Z * gset Z * Z) => 0 <= s.2)
    (fun s : list Z * gset Z * Z => (4 * Z.to_nat (w * h - s.2))%nat)).
  - done.
  - done.
  - intros [x y] q [[m v] k] [[m1 v1] k1] new Hk Hc Hb.
    cbn [fst snd] in *. apply ltb_cap in Hc.
    cbv beta iota zeta in Hb.
    destruct (_ || _) in Hb; [done|].
    destruct (JS.sqrt_le_nan _ _) in Hb; [|done].
    injection Hb as <- <- <- <-. simpl. lia.
  - simpl. lia.
Qed.

Lemma enhancedFloodFill_protected data mask visited zone sx sy w h ch T i :
  0 <= w * h -> JS.truthy (JS.get zone i) = true ->
  JS.get (enhancedFloodFill data mask visited zone sx sy w h ch T).1 i = JS.get mask i.
Proof.
  intros HN Hi. unfold enhancedFloodFill.
  destruct (floodLoop _ _ _ _ _ _ _ _ _ _) as [[[m v] n]|] eqn:Hrun; [|done].
  apply floodLoop_spec in Hrun as (_ & _ & _ & _ & Hzone); [|done]. by apply Hzone.
Qed.

Lemma createEnhancedFloodFillMask_protected data w h ch x y :
  in_image w h x y -> protected_zone w h x y ->
  JS.get (createEnhancedFloodFillMask data w h ch) (y * w + x) = Some 255.
Proof.
  intros Him Hz. pose proof (index_range w h x y Him) as Hi.
  apply createProtectedZone_spec in Hz; [|done].
  unfold createEnhancedFloodFillMask.
  generalize (floodFillStartPoints data w h ch). intros seeds.
  assert (Hstart : JS.get (JS.alloc (w * h) 255, (∅ : gset Z)).1 (y * w + x) = Some 255).
  { simpl. by apply get_alloc. }
  revert Hstart. generalize (JS.alloc (w * h) 255, (∅ : gset Z)).
  induction seeds as [|seed seeds IH]; intros s Hs; simpl; [done|].
  apply IH. rewrite enhancedFloodFill_protected; [done|lia|done].
Qed.

End RegionGrower.

(** C4, as stated, fails.  On the uniform 20x5 image of colour
    (200, 200, 200) the flood-fill stage, all seeds together, absorbs 94
    of the 100 pixels: [processedPixels] starts again from 0 for every
    seed. *)
Lemma C4_counterexample :
  ImageProcessor.removedPercentage
    (ImageProcessor.createEnhancedFloodFillMask (replicate 300 200) 20 5 3) = 94%Q /\
  (65 < 94)%Q.
Proof. split; by vm_compute. Qed.

(** C4, amended.  The cap of 65% of the pixel count bounds what one
    seed absorbs: a call of [enhancedFloodFill] ends, absorbs exactly
    [processedPixels] pixels that were not visited before, and
    [processedPixels] stays below 0.65 * width * height + 1.  The seeds
    together are not bounded by the cap.  No seed absorbs a pixel of the
    protected zone: every such pixel keeps the value 255 in the
    flood-fill mask. *)
Theorem C4_cap_per_seed_and_protected_zone (data : list Z) (w h ch : Z) :
  0 <= w -> 0 <= h ->
  (forall mask visited zone sx sy T,
     w * h <= Z.of_nat (length mask) ->
     exists mask' visited' processedPixels,
       ImageProcessor.floodLoop data mask visited zone sx sy w h ch T
       = Some (mask', visited', processedPixels) /\
       0 <= processedPixels /\
       (inject_Z processedPixels < inject_Z (w * h) * (65 # 100) + 1)%Q /\
       size visited' = (size visited + Z.to_nat processedPixels)%nat) /\
  (forall x y, in_image w h x y -> protected_zone w h x y ->
     JS.get (ImageProcessor.createEnhancedFloodFillMask data w h ch) (y * w + x)
     = Some 255).
Proof.
  intros Hw Hh. split.
  - intros mask visited zone sx sy T Hlen.
    destruct (floodLoop_terminates data mask visited zone sx sy w h ch T Hlen)
      as [[[mask' visited'] n] Hrun].
    exists mask', visited', n. split; [done|].
    apply floodLoop_spec in Hrun as (Hn & Hcap & Hsize & _); [|nia].
    repeat split; try done.
    unfold Qlt. simpl. lia.
  - intros x y. apply createEnhancedFloodFillMask_protected.
Qed.

Lemma C4_cap_per_seed_and_protected_zone_witness :
  JS.get (ImageProcessor.createEnhancedFloodFillMask (replicate 300 200) 20 5 3)
    (2 * 20 + 10) = Some 255.
Proof.
  refine (proj2 (C4_cap_per_seed_and_protected_zone (replicate 300 200) 20 5 3 _ _)
            10 2 _ _).
  - lia.
  - lia.
  - unfold in_image. lia.
  - apply zone_test_spec. reflexivity.
Defined.
(** ** C5: the validator *)

Section IntegerPoints.

Import ImageProcessor.

Lemma Qred_inject_Z z : Qred (inject_Z z) = inject_Z z.
Proof. apply Qred_identity. simpl. apply Z.gcd_1_r. Qed.

Lemma is_int_inject q z : (q == inject_Z z)%Q -> JS.is_int q = Some z.
Proof.
  intros Hq. unfold JS.is_int.
  rewrite (Qred_complete _ _ Hq), Qred_inject_Z. reflexivity.
Qed.

Lemma ltb_inject a c : JS.ltb (inject_Z a) (inject_Z c) = (a <? c).
Proof.
  unfold JS.ltb. destruct (Z.ltb_spec a c) as [Hlt|Hge].
  - apply negb_true_iff. destruct (Qle_bool _ _) eqn:E; [|done].
    apply Qle_bool_iff in E. rewrite <- Zle_Qle in E. lia.
  - apply negb_false_iff. apply Qle_bool_iff. by rewrite <- Zle_Qle.
Qed.

Lemma leb_inject a c : JS.leb (inject_Z a) (inject_Z c) = (a <=? c).
Proof.
  unfold JS.leb. destruct (Z.leb_spec a c) as [Hle|Hgt].
  - apply Qle_bool_iff. by rewrite <- Zle_Qle.
  - destruct (Qle_bool _ _) eqn:E; [|done].
    apply Qle_bool_iff in E. rewrite <- Zle_Qle in E. lia.
Qed.

Lemma inject_Z_succ z : (inject_Z z + 1)%Q = inject_Z (z + 1).
Proof. unfold Qplus, inject_Z. simpl. f_equal. lia. Qed.

Lemma inject_Z_pred z : (inject_Z z - 1)%Q = inject_Z (z - 1).
Proof. unfold Qminus, Qplus, Qopp, inject_Z. simpl. f_equal. lia. Qed.

Lemma index_Q w (p : Z * Z) :
  (inject_Z p.2 * inject_Z w + inject_Z p.1 == inject_Z (idx_of w p))%Q.
Proof. unfold idx_of. rewrite inject_Z_plus, inject_Z_mult. reflexivity. Qed.

(** On a pixel with integer coordinates, an iteration of the loop of
    [measureHoleSize] works on the row-major index of the pixel. *)
Lemma measureStep_int mask w h (p : Z * Z) (V : gset Z) (n : Z) :
  measureStep mask w h (pointQ p) (V, n)
  = if (p.1 <? 0) || (w <=? p.1) || (p.2 <? 0) || (h <=? p.2) ||
       bool_decide (idx_of w p ∈ V) || negb (JS.is_zero (JS.get mask (idx_of w p)))
    then None
    else Some (({[ idx_of w p ]} ∪ V, n + 1),
               pointQ <$> [ (p.1 + 1, p.2); (p.1 - 1, p.2);
                            (p.1, p.2 + 1); (p.1, p.2 - 1) ]).
Proof.
  destruct p as [x y]. unfold measureStep, pointQ. cbn [fst snd].
  pose proof (is_int_inject _ _ (index_Q w (x, y))) as Hi.
  cbn [fst snd] in Hi. rewrite Hi. clear Hi.
  change 0%Q with (inject_Z 0). rewrite !ltb_inject, !leb_inject.
  destruct (_ || _); [done|].
  cbn [fmap list_fmap fst snd].
  by rewrite !inject_Z_succ, !inject_Z_pred.
Qed.

End IntegerPoints.

Section ZeroRegions.

Import ImageProcessor.

Variables (mask : list Z) (w h : Z).

Lemma idx_of_inj p q :
  in_image w h p.1 p.2 -> in_image w h q.1 q.2 -> idx_of w p = idx_of w q -> p = q.
Proof.
  destruct p as [x y], q as [x' y']. unfold idx_of, in_image. simpl.
  intros [Hx _] [Hx' _] He. apply index_inj in He as [-> ->]; done.
Qed.

Lemma pointQ_inj p q : pointQ p = pointQ q -> p = q.
Proof.
  destruct p as [x y], q as [x' y']. unfold pointQ, inject_Z. simpl.
  by intros [= -> ->].
Qed.

Lemma adjacent4_sym p q : adjacent4 p q -> adjacent4 q p.
Proof.
  destruct p as [x y], q as [x' y']. unfold adjacent4. simpl.
  intros [H|[H|[H|H]]]; injection H as -> ->.
  - right; left. f_equal; lia.
  - left. f_equal; lia.
  - right; right; right. f_equal; lia.
  - right; right; left. f_equal; lia.
Qed.

Lemma connected_zero p q :
  connected mask w h p q -> zero_at mask w h p /\ zero_at mask w h q.
Proof. induction 1; tauto. Qed.

Lemma connected_trans p q r :
  connected mask w h p q -> connected mask w h q r -> connected mask w h p r.
Proof.
  intros Hpq Hqr. induction Hqr as [|r s _ IH Hadj Hs]; [done|].
  by eapply connected_step.
Qed.

Lemma connected_sym p q : connected mask w h p q -> connected mask w h q p.
Proof.
  induction 1 as [|q r Hpq IH Hadj Hr]; [by apply connected_refl|].
  apply (connected_trans r q p); [|done].
  apply (connected_step _ _ _ _ r q); [by apply connected_refl| |].
  - by apply adjacent4_sym.
  - by apply connected_zero in Hpq as [_ ?].
Qed.

Lemma region_of_unique p R1 R2 :
  region_of mask w h p R1 -> region_of mask w h p R2 -> R1 = R2.
Proof.
  intros H1 H2. apply set_eq. intros i. by rewrite (H1 i), (H2 i).
Qed.

(** Connected pixels have the same region. *)
Lemma region_of_connected p q R :
  connected mask w h p q -> region_of mask w h p R -> region_of mask w h q R.
Proof.
  intros Hpq HR i. rewrite (HR i). split; intros (r & Hr & ->); exists r; split; try done.
  - apply (connected_trans q p r); [by apply connected_sym|done].
  - by apply (connected_trans p q r).
Qed.

Lemma closed_connected V q r :
  closed mask w h V -> idx_of w q ∈ V -> connected mask w h q r -> idx_of w r ∈ V.
Proof.
  intros HV Hq Hqr. induction Hqr as [|r s Hqr IH Hadj Hs]; [done|].
  apply (HV r s); [|done|done|done]. by apply connected_zero in Hqr as [_ ?].
Qed.

Lemma is_zero_get i : JS.is_zero (JS.get mask i) = true <-> JS.get mask i = Some 0.
Proof.
  destruct (JS.get mask i) as [[| |]|]; simpl; split; intros; congruence.
Qed.

(** What an iteration does on a pixel: it skips a pixel that lies
    outside the image, is visited or is not zero, and absorbs any other
    one. *)
Lemma measureStep_skip p V n :
  measureStep mask w h (pointQ p) (V, n) = None ->
  ~ zero_at mask w h p \/ idx_of w p ∈ V.
Proof.
  rewrite measureStep_int.
  destruct (_ || _) eqn:Hc; [intros _|done].
  repeat (apply orb_true_iff in Hc as [Hc|Hc]).
  - left. intros [[? ?] _]. lia.
  - left. intros [[? ?] _]. lia.
  - left. intros [[? ?] _]. lia.
  - left. intros [[? ?] _]. lia.
  - right. by apply bool_decide_eq_true in Hc.
  - left. intros [_ Hz]. apply is_zero_get in Hz. rewrite Hz in Hc. done.
Qed.

Lemma measureStep_absorb p V n s new :
  measureStep mask w h (pointQ p) (V, n) = Some (s, new) ->
  zero_at mask w h p /\ (idx_of w p ∉ V) /\
  s = ({[ idx_of w p ]} ∪ V, n + 1) /\
  new = pointQ <$> [ (p.1 + 1, p.2); (p.1 - 1, p.2); (p.1, p.2 + 1); (p.1, p.2 - 1) ].
Proof.
  rewrite measureStep_int.
  destruct (_ || _) eqn:Hc; [done|]. intros [= <- <-].
  apply orb_false_iff in Hc as [Hc Hz]. apply orb_false_iff in Hc as [Hc Hv].
  apply orb_false_iff in Hc as [Hc Hy2]. apply orb_false_iff in Hc as [Hc Hy1].
  apply orb_false_iff in Hc as [Hx1 Hx2].
  apply bool_decide_eq_false in Hv. apply negb_false_iff in Hz. apply is_zero_get in Hz.
  repeat split; try done; lia.
Qed.

(** The loop of [measureHoleSize] ends. *)
Lemma measureLoop_terminates sx sy V :
  is_Some (measureLoop mask sx sy w h V).
Proof.
  unfold measureLoop.
  set (U := list_to_set (seqZ 0 (Z.of_nat (length mask))) : gset Z).
  apply (whileQueue_is_Some _ _ (fun _ _ => True)
           (fun s : gset Z * Z => (4 * size (U ∖ s.1))%nat)); [done|done| |].
  - intros [x y] q [Vs k] s' new _ _ Hb. split; [done|].
    unfold measureStep in Hb.
    destruct (JS.is_int _) as [i|]; [|done].
    destruct (_ || _) eqn:Hc in Hb; [done|]. injection Hb as <- <-.
    apply orb_false_iff in Hc as [Hc Hz]. apply orb_false_iff in Hc as [_ Hv].
    apply bool_decide_eq_false in Hv. apply negb_false_iff in Hz.
    apply is_zero_get, get_Some_lt in Hz.
    assert (Hi : i ∈ U ∖ Vs).
    { apply elem_of_difference. split; [|done].
      apply elem_of_list_to_set, elem_of_seqZ. lia. }
    cbn [fst length].
    assert (Hsplit : U ∖ Vs = {[ i ]} ∪ U ∖ ({[ i ]} ∪ Vs)).
    { apply set_eq. intros j. destruct (decide (j = i)); set_solver. }
    assert (Hsz : size (U ∖ Vs) = Datatypes.S (size (U ∖ ({[ i ]} ∪ Vs)))).
    { rewrite Hsplit at 1. rewrite size_union by set_solver.
      by rewrite size_singleton. }
    lia.
  - cbn [fst length].
    assert (size (U ∖ V) <= length mask)%nat; [|lia].
    assert (HU : size U = length mask).
    { unfold U. rewrite size_list_to_set by apply NoDup_seqZ.
      rewrite length_seqZ. lia. }
    rewrite <- HU. apply subseteq_size. set_solver.
Qed.

(** [measureHoleSize], started on an unvisited zero pixel with a closed
    visited set, visits exactly the zero region of the pixel and returns
    its size. *)
Lemma measureLoop_region p V V' n :
  closed mask w h V -> zero_at mask w h p -> idx_of w p ∉ V ->
  measureLoop mask (inject_Z p.1) (inject_Z p.2) w h V = Some (V', n) ->
  exists R, region_of mask w h p R /\ V' = R ∪ V /\ R ## V /\ n = Z.of_nat (size R).
Proof.
  intros HV Hp HpV Hrun. unfold measureLoop in Hrun.
  apply (whileQueue_inv _ _
    (fun (queue : list (Q * Q)) (s : gset Z * Z) =>
       V ⊆ s.1 /\
       (forall i, i ∈ s.1 -> i ∉ V -> exists q, connected mask w h p q /\ i = idx_of w q) /\
       Z.of_nat (size s.1) = Z.of_nat (size V) + s.2 /\
       (forall e, e ∈ queue -> exists q, e = pointQ q /\
          (q = p \/ exists q0, connected mask w h p q0 /\ adjacent4 q0 q)) /\
       (idx_of w p ∈ s.1 \/ pointQ p ∈ queue) /\
       (forall q r, connected mask w h p q -> idx_of w q ∈ s.1 -> adjacent4 q r ->
          zero_at mask w h r -> idx_of w r ∈ s.1 \/ pointQ r ∈ queue)))
    in Hrun.
  - destruct Hrun as (q_end & (Hsub & Hconn & Hsize & _ & Hseed & Hfront) & [->|?]);
      [|done].
    cbn [fst snd] in *.
    assert (Hall : forall q, connected mask w h p q -> idx_of w q ∈ V' /\ idx_of w q ∉ V).
    { intros q Hq. induction Hq as [|q r Hq [IH1 IH2] Hadj Hr].
      - split; [|done]. destruct Hseed as [?|Hin]; [done|by apply elem_of_nil in Hin].
      - split.
        + destruct (Hfront q r Hq IH1 Hadj Hr) as [?|Hin]; [done|by apply elem_of_nil in Hin].
        + intros HrV. apply IH2. apply (HV r q); [done|done|by apply adjacent4_sym|].
          by apply connected_zero in Hq as [_ ?]. }
    exists (V' ∖ V). repeat split.
    + intros Hi. apply elem_of_difference in Hi as [Hi1 Hi2]. by apply Hconn.
    + intros (q & Hq & ->). apply elem_of_difference. by apply Hall.
    + apply set_eq. intros i. destruct (decide (i ∈ V)); set_solver.
    + set_solver.
    + assert (Hd : V' = (V' ∖ V) ∪ V).
      { apply set_eq. intros i. destruct (decide (i ∈ V)); set_solver. }
      rewrite Hd in Hsize at 1. rewrite size_union in Hsize by set_solver. lia.
  - cbn [fst snd]. repeat split; try done.
    + lia.
    + intros e He. apply list_elem_of_singleton in He as ->. exists p. split; [|by left].
      by destruct p.
    + right. destruct p. by left.
    + intros q r Hq HqV Hadj Hr. left. apply (HV q r); try done.
      by apply connected_zero in Hq as [_ ?].
  - intros a q [Vs k] (Hsub & Hconn & Hsize & Hq & Hseed & Hfront) _ Hb.
    cbn [fst snd] in *.
    destruct (Hq a) as (qa & -> & Hqa); [by left|].
    apply measureStep_skip in Hb.
    repeat split; try done.
    + intros e He. apply Hq. by right.
    + destruct Hseed as [?|Hin]; [by left|].
      apply elem_of_cons in Hin as [Hin|?]; [|by right].
      apply pointQ_inj in Hin as <-. left. by destruct Hb.
    + intros q1 r Hq1 Hq1V Hadj Hr.
      destruct (Hfront q1 r Hq1 Hq1V Hadj Hr) as [?|Hin]; [by left|].
      apply elem_of_cons in Hin as [Hin|?]; [|by right].
      apply pointQ_inj in Hin as <-. left. by destruct Hb.
  - intros a q [Vs k] s' new (Hsub & Hconn & Hsize & Hq & Hseed & Hfront) _ Hb.
    cbn [fst snd] in *.
    destruct (Hq a) as (qa & -> & Hqa); [by left|].
    apply measureStep_absorb in Hb as (Hza & HaV & -> & ->).
    cbn [fst snd].
    assert (Hca : connected mask w h p qa).
    { destruct Hqa as [->|(q0 & Hq0 & Hadj)]; [by apply connected_refl|].
      by eapply connected_step. }
    repeat split.
    + set_solver.
    + intros i Hi HiV. apply elem_of_union in Hi as [Hi|Hi]; [|by apply Hconn].
      apply elem_of_singleton in Hi as ->. by exists qa.
    + rewrite size_union by set_solver. rewrite size_singleton. lia.
    + intros e He. apply elem_of_app in He as [He|He]; [apply Hq; by right|].
      apply list_elem_of_fmap in He as (r & -> & Hr). exists r. split; [done|].
      right. exists qa. split; [done|].
      unfold adjacent4.
      repeat (apply elem_of_cons in Hr as [->|Hr]; [tauto|]).
      by apply elem_of_nil in Hr.
    + destruct Hseed as [?|Hin]; [left; set_solver|].
      apply elem_of_cons in Hin as [Hin|?]; [|right; set_solver].
      apply pointQ_inj in Hin as <-. left. set_solver.
    + intros q1 r Hq1 Hq1V Hadj Hr.
      apply elem_of_union in Hq1V as [Hq1V|Hq1V].
      * apply elem_of_singleton in Hq1V.
        apply idx_of_inj in Hq1V;
          [|by apply connected_zero in Hq1 as [_ [? _]]|by destruct Hza].
        subst q1. right. apply elem_of_app. right.
        apply list_elem_of_fmap. exists r. split; [done|].
        destruct Hadj as [ -> | [ -> | [ -> | -> ] ] ]; set_solver.
      * destruct (Hfront q1 r Hq1 Hq1V Hadj Hr) as [?|Hin]; [left; set_solver|].
        apply elem_of_cons in Hin as [Hin|?]; [|right; set_solver].
        apply pointQ_inj in Hin as <-. left. set_solver.
Qed.

Lemma closed_union p R V :
  closed mask w h V -> region_of mask w h p R -> closed mask w h (R ∪ V).
Proof.
  intros HV HR q r Hq HqV Hadj Hr.
  apply elem_of_union in HqV as [HqR|HqV].
  - apply elem_of_union_l. apply HR in HqR as (q' & Hq' & He).
    apply idx_of_inj in He; [|by destruct Hq|by apply connected_zero in Hq' as [_ [? _]]].
    subst q'. apply HR. exists r. split; [|done]. by eapply connected_step.
  - apply elem_of_union_r. by apply (HV q r).
Qed.

Lemma hole_ratio n A :
  0 < A -> JS.ltb (5 # 100) (inject_Z n / inject_Z A) = true <-> 5 * A < 100 * n.
Proof.
  intros HA. destruct A as [|a|a]; try lia.
  unfold JS.ltb, Qle_bool, Qdiv, Qmult, Qinv, inject_Z. simpl.
  rewrite negb_true_iff, Z.leb_gt. lia.
Qed.

(** The scan of [checkForProblematicHoles] finds a hole exactly when one
    of the scanned pixels is zero and lies in a large region. *)
Lemma scanHoles_spec pts V :
  0 < w * h ->
  (forall p, p ∈ pts -> in_image w h p.1 p.2) ->
  closed mask w h V ->
  (forall q, zero_at mask w h q -> idx_of w q ∈ V -> ~ large_hole mask w h q) ->
  scanHoles mask w h (pointQ <$> pts) V = true <->
  exists p, p ∈ pts /\ zero_at mask w h p /\ large_hole mask w h p.
Proof.
  intros HA. revert V. induction pts as [|p pts IH]; intros V Him HV Hsmall.
  - simpl. split; [done|]. intros (p & Hp & _). by apply elem_of_nil in Hp.
  - assert (Hrest : forall V', closed mask w h V' ->
      (forall q, zero_at mask w h q -> idx_of w q ∈ V' -> ~ large_hole mask w h q) ->
      ~ (zero_at mask w h p /\ large_hole mask w h p) ->
      scanHoles mask w h (pointQ <$> pts) V' = true <->
      exists p0, p0 ∈ p :: pts /\ zero_at mask w h p0 /\ large_hole mask w h p0).
    { intros V' HV' Hsmall' Hnot. rewrite IH; [|intros; apply Him; by right|done|done].
      split; intros (p0 & Hp0 & Hz & Hl).
      - exists p0. split; [by right|done].
      - apply elem_of_cons in Hp0 as [->|Hp0]; [tauto|]. by exists p0. }
    rewrite fmap_cons. unfold pointQ at 1. cbn [scanHoles].
    pose proof (is_int_inject _ _ (index_Q w p)) as Hi. rewrite Hi. clear Hi.
    destruct (JS.is_zero _) eqn:Hz; cbn [andb].
    2:{ apply Hrest; [done|done|]. intros [[_ Hz'] _].
        apply is_zero_get in Hz'. congruence. }
    apply is_zero_get in Hz.
    assert (Hzp : zero_at mask w h p) by (split; [apply Him; by left|done]).
    destruct (bool_decide _) eqn:Hv; cbn [negb].
    { apply bool_decide_eq_true in Hv. apply Hrest; [done|done|].
      intros [_ Hl]. by apply (Hsmall p). }
    apply bool_decide_eq_false in Hv.
    unfold measureHoleSize.
    destruct (measureLoop_terminates (inject_Z p.1) (inject_Z p.2) V) as [[V' n] Hrun].
    rewrite Hrun.
    apply measureLoop_region in Hrun as (R & HR & -> & Hdisj & ->); [|done|done|done].
    destruct (JS.ltb _ _) eqn:Hratio.
    + split; [intros _|done]. exists p. split; [by left|]. split; [done|].
      exists R. split; [done|]. by apply hole_ratio in Hratio.
    + assert (Hnl : ~ large_hole mask w h p).
      { intros (R' & HR' & Hlarge). rewrite (region_of_unique p R' R HR' HR) in Hlarge.
        apply hole_ratio in Hlarge; [|done]. congruence. }
      apply Hrest; [by eapply closed_union| |tauto].
      intros q Hq HqV. apply elem_of_union in HqV as [HqR|HqV]; [|by apply Hsmall].
      apply HR in HqR as (q' & Hq' & He).
      apply idx_of_inj in He; [|by destruct Hq|by apply connected_zero in Hq' as [_ [? _]]].
      subst q'. intros (R' & HR' & Hlarge). apply Hnl. exists R'. split; [|done].
      apply (region_of_connected q p); [by apply connected_sym|done].
Qed.

End ZeroRegions.

Section Windows.

Import ImageProcessor.

Lemma Qmin_inject a c : (Qmin (inject_Z a) (inject_Z c) == inject_Z (Z.min a c))%Q.
Proof.
  destruct (Z.le_ge_cases a c) as [Hle|Hge].
  - rewrite Z.min_l by done. apply Q.min_l. by rewrite <- Zle_Qle.
  - rewrite Z.min_r by done. apply Q.min_r. by rewrite <- Zle_Qle.
Qed.

Lemma Qmax_inject a c : (Qmax (inject_Z a) (inject_Z c) == inject_Z (Z.max a c))%Q.
Proof.
  destruct (Z.le_ge_cases a c) as [Hle|Hge].
  - rewrite Z.max_r by done. apply Q.max_r. by rewrite <- Zle_Qle.
  - rewrite Z.max_l by done. apply Q.max_l. by rewrite <- Zle_Qle.
Qed.

(** A loop between integer bounds takes the integers in between. *)
Lemma qrange_int lo hi a c :
  (lo == inject_Z a)%Q -> (hi == inject_Z c)%Q ->
  JS.qrange lo hi 1 = inject_Z <$> JS.range a c.
Proof.
  intros Hlo Hhi. unfold JS.qrange, JS.range.
  assert (Hn : Qceiling ((hi - lo) / 1) = c - a).
  { rewrite <- (Qceiling_Z (c - a)). apply Qceiling_comp.
    rewrite Hlo, Hhi. unfold Zminus. rewrite inject_Z_plus, inject_Z_opp. field. }
  rewrite Hn.
  replace (seqZ a (c - a)) with (Z.add a <$> seqZ 0 (c - a))
    by (rewrite fmap_add_seqZ; f_equal; lia).
  rewrite <- list_fmap_compose. apply list_fmap_ext. intros _ k _. simpl.
  rewrite <- (Qred_inject_Z (a + k)). apply Qred_complete.
  rewrite Hlo, inject_Z_plus. ring.
Qed.

Lemma window_bind (ys xs : list Z) :
  (y ← inject_Z <$> ys; x ← inject_Z <$> xs; [(x, y)])
  = pointQ <$> (y ← ys; x ← xs; [(x, y)]).
Proof.
  induction ys as [|y ys IH]; [done|].
  rewrite fmap_cons. cbn [mbind list_bind]. rewrite fmap_app. f_equal; [|exact IH].
  clear IH. induction xs as [|x xs IH]; [done|].
  rewrite fmap_cons. cbn [mbind list_bind]. rewrite fmap_app. by f_equal.
Qed.

(** When the image has even sides and the window an even integer side
    that fits, the window of [validateObjectPreservation] and of
    [checkForProblematicHoles] is made of the pixels of the centred
    square. *)
Lemma centerWindow_int w h (cs : Q) (side : Z) :
  (cs == inject_Z side)%Q -> (2 | side) -> (2 | w) -> (2 | h) ->
  0 <= side <= w -> side <= h ->
  centerWindow w h cs = pointQ <$> window_pixels w h side.
Proof.
  intros Hcs [s ->] [w2 ->] [h2 ->] Hw Hh.
  unfold centerWindow, window_pixels.
  rewrite !Z.div_mul by done.
  assert (Hcx : (inject_Z (w2 * 2) / 2 - cs / 2 == inject_Z (w2 - s))%Q).
  { rewrite Hcs. unfold Zminus.
    rewrite inject_Z_plus, inject_Z_opp, !inject_Z_mult. field. }
  assert (Hcy : (inject_Z (h2 * 2) / 2 - cs / 2 == inject_Z (h2 - s))%Q).
  { rewrite Hcs. unfold Zminus.
    rewrite inject_Z_plus, inject_Z_opp, !inject_Z_mult. field. }
  assert (Hys : JS.qrange (Qmax 0 (inject_Z (h2 * 2) / 2 - cs / 2))
                  (Qmin (inject_Z (h2 * 2)) (inject_Z (h2 * 2) / 2 - cs / 2 + cs)) 1
                = inject_Z <$> JS.range (h2 - s) (h2 + s)).
  { apply qrange_int.
    - rewrite Hcy. change 0%Q with (inject_Z 0). rewrite Qmax_inject.
      by rewrite Z.max_r by lia.
    - rewrite Hcy, Hcs, <- inject_Z_plus, Qmin_inject.
      rewrite Z.min_r by lia. apply inject_Z_injective. lia. }
  assert (Hxs : JS.qrange (Qmax 0 (inject_Z (w2 * 2) / 2 - cs / 2))
                  (Qmin (inject_Z (w2 * 2)) (inject_Z (w2 * 2) / 2 - cs / 2 + cs)) 1
                = inject_Z <$> JS.range (w2 - s) (w2 + s)).
  { apply qrange_int.
    - rewrite Hcx. change 0%Q with (inject_Z 0). rewrite Qmax_inject.
      by rewrite Z.max_r by lia.
    - rewrite Hcx, Hcs, <- inject_Z_plus, Qmin_inject.
      rewrite Z.min_r by lia. apply inject_Z_injective. lia. }
  cbv zeta. rewrite Hys, Hxs. apply window_bind.
Qed.

End Windows.

Section Validator.

Import ImageProcessor.

Lemma getQ_int mask w (p : Z * Z) :
  JS.getQ mask (inject_Z p.2 * inject_Z w + inject_Z p.1) = JS.get mask (idx_of w p).
Proof. unfold JS.getQ. by rewrite (is_int_inject _ _ (index_Q w p)). Qed.

Lemma count_zero_cons mask w p pts :
  count_zero mask w (p :: pts)
  = (if JS.is_zero (JS.get mask (idx_of w p)) then 1 else 0) + count_zero mask w pts.
Proof.
  unfold count_zero. simpl. destruct (JS.is_zero _); simpl length; lia.
Qed.

Lemma count_zero_bounds mask w pts :
  0 <= count_zero mask w pts <= Z.of_nat (length pts).
Proof.
  induction pts as [|p pts IH]; [done|].
  rewrite count_zero_cons. simpl length. destruct (JS.is_zero _); lia.
Qed.

(** The counting loop of [validateObjectPreservation] over a window of
    pixels. *)
Lemma center_count mask w pts r t :
  foldl (fun (c : Z * Z) (p : Q * Q) =>
           let idx := (p.2 * inject_Z w + p.1)%Q in
           (if JS.is_zero (JS.getQ mask idx) then c.1 + 1 else c.1, c.2 + 1))
        (r, t) (pointQ <$> pts)
  = (r + count_zero mask w pts, t + Z.of_nat (length pts)).
Proof.
  revert r t. induction pts as [|p pts IH]; intros r t.
  - simpl. f_equal; unfold count_zero; simpl; lia.
  - rewrite fmap_cons. cbn [foldl]. unfold pointQ at 1. cbn [fst snd].
    rewrite getQ_int, IH, count_zero_cons. simpl length.
    destruct (JS.is_zero _); f_equal; lia.
Qed.

Lemma removal_ratio r t :
  0 <= r <= t ->
  JS.ltb (12 # 100) (if 0 <? t then inject_Z r / inject_Z t else 0) = true
  <-> 12 * t < 100 * r.
Proof.
  intros Hr. destruct t as [|t|t]; try lia.
  - simpl. split; [done|lia].
  - simpl. unfold JS.ltb, Qle_bool, Qdiv, Qmult, Qinv, inject_Z. simpl.
    rewrite negb_true_iff, Z.leb_gt. lia.
Qed.

Lemma window_pixels_in_image w h side p :
  0 <= side -> (2 | side) -> (2 | w) -> (2 | h) -> side <= w -> side <= h ->
  p ∈ window_pixels w h side -> in_image w h p.1 p.2.
Proof.
  intros Hs [s ->] [w2 ->] [h2 ->] Hw Hh. unfold window_pixels.
  rewrite !Z.div_mul by done. intros Hp.
  apply list_elem_of_bind in Hp as (y & Hp & Hy).
  apply list_elem_of_bind in Hp as (x & Hp & Hx).
  apply list_elem_of_singleton in Hp as ->.
  apply elem_of_range in Hx, Hy. unfold in_image. simpl. lia.
Qed.

End Validator.

(** C5, as stated, fails.  In the 40x40 mask [flag_mask] the zero pixels
    are 7 of the 144 pixels of the central window of side 12 (4.9%), and
    6 pixels of the core window of side 10, so no zero region lying
    inside the core window holds more than 5% (80 pixels) of the image;
    yet the validator rejects the mask: the hole it measures from the
    core pixel (20, 15) is the whole region of 99 pixels, most of which
    lie outside the core window. *)
Lemma C5_counterexample :
  ImageProcessor.validateObjectPreservation flag_mask 40 40 = false /\
  100 * count_zero flag_mask 40 (window_pixels 40 40 12)
  <= 12 * Z.of_nat (length (window_pixels 40 40 12)) /\
  100 * count_zero flag_mask 40 (window_pixels 40 40 10) <= 5 * (40 * 40) /\
  (ImageProcessor.measureHoleSize flag_mask 20 15 40 40 ∅).1 = 99.
Proof. repeat split; by vm_compute. Qed.

(** C5, amended.  For an image whose smaller side is a multiple of 40
    and whose sides are even (both windows then start on pixels),
    [validateObjectPreservation] rejects exactly the masks that either
    have more than 12% zero pixels in the central window of side
    0.3 * min(width, height), or have a zero pixel in the core window of
    side 0.25 * min(width, height) whose 4-connected zero region, taken
    over the whole image, holds more than 5% of the pixels of the image;
    every other mask is accepted. *)
Theorem C5_validator_rejects_holes_reaching_the_core (mask : list Z) (w h : Z) :
  0 < Z.min w h -> (40 | Z.min w h) -> (2 | w) -> (2 | h) ->
  let central := window_pixels w h (3 * Z.min w h / 10) in
  let core := window_pixels w h (Z.min w h / 4) in
  ImageProcessor.validateObjectPreservation mask w h = false <->
  12 * Z.of_nat (length central) < 100 * count_zero mask w central \/
  exists p, p ∈ core /\ zero_at mask w h p /\ large_hole mask w h p.
Proof.
  intros Hm [k Hk] Hw Hh central core.
  assert (Hmin : Z.min w h <= w /\ Z.min w h <= h) by lia.
  assert (H30 : 3 * Z.min w h / 10 = 12 * k).
  { rewrite Hk. replace (3 * (k * 40)) with (12 * k * 10) by lia. by apply Z.div_mul. }
  assert (H25 : Z.min w h / 4 = 10 * k).
  { rewrite Hk. replace (k * 40) with (10 * k * 4) by lia. by apply Z.div_mul. }
  unfold ImageProcessor.validateObjectPreservation,
    ImageProcessor.checkForProblematicHoles.
  rewrite (centerWindow_int w h _ (3 * Z.min w h / 10)); cycle 1.
  { rewrite Qmin_inject, H30, Hk. unfold Qeq. simpl. lia. }
  { rewrite H30. exists (6 * k). lia. }
  { done. } { done. } { lia. } { lia. }
  rewrite (centerWindow_int w h _ (Z.min w h / 4)); cycle 1.
  { rewrite Qmin_inject, H25, Hk. unfold Qeq. simpl. lia. }
  { rewrite H25. exists (5 * k). lia. }
  { done. } { done. } { lia. } { lia. }
  fold central core. rewrite center_count. cbv zeta. cbn [fst snd]. rewrite !Z.add_0_l.
  pose proof (count_zero_bounds mask w central) as Hc.
  pose proof (removal_ratio _ _ Hc) as Hratio.
  destruct (JS.ltb (12 # 100) _) eqn:H12.
  { split; [intros _|done]. left. by apply Hratio. }
  assert (Hnot : ~ 12 * Z.of_nat (length central) < 100 * count_zero mask w central).
  { intros Hlt. apply Hratio in Hlt. congruence. }
  pose proof (scanHoles_spec mask w h core ∅) as Hscan.
  destruct (ImageProcessor.scanHoles mask w h (pointQ <$> core) ∅) eqn:Hs.
  - split; [intros _|done]. right. apply Hscan; try done.
    + nia.
    + intros p Hp. apply (window_pixels_in_image w h (Z.min w h / 4)); try done; try lia.
      rewrite H25. exists (5 * k). lia.
  - split; [done|]. intros [Hlt|Hex]; [done|].
    apply Hscan in Hex; try done.
    + nia.
    + intros p Hp. apply (window_pixels_in_image w h (Z.min w h / 4)); try done; try lia.
      rewrite H25. exists (5 * k). lia.
Qed.

Lemma C5_validator_rejects_holes_reaching_the_core_witness :
  ImageProcessor.validateObjectPreservation pole_mask 40 40 = false <->
  12 * Z.of_nat (length (window_pixels 40 40 (3 * Z.min 40 40 / 10)))
  < 100 * count_zero pole_mask 40 (window_pixels 40 40 (3 * Z.min 40 40 / 10)) \/
  exists p, p ∈ window_pixels 40 40 (Z.min 40 40 / 4) /\
            zero_at pole_mask 40 40 p /\ large_hole pole_mask 40 40 p.
Proof.
  apply (C5_validator_rejects_holes_reaching_the_core pole_mask 40 40).
  - reflexivity.
  - exists 1. reflexivity.
  - exists 20. reflexivity.
  - exists 20. reflexivity.
Defined.
(** ** The mask synthesizer and its random samples *)

Section FloatArrays.

Lemma fget_falloc n i : JS.fget (JS.falloc n) i = 0%R.
Proof.
  unfold JS.fget, JS.falloc. destruct (i <? 0); [done|].
  destruct (replicate (Z.to_nat n) 0%R !! Z.to_nat i) as [v|] eqn:Hv; [|done].
  apply lookup_replicate in Hv as [-> _]. done.
Qed.

Lemma length_fset a i v : length (JS.fset a i v) = length a.
Proof. unfold JS.fset. destruct (i <? 0); [done|]. apply length_insert. Qed.

Lemma fget_fset_eq a i v :
  0 <= i < Z.of_nat (length a) -> JS.fget (JS.fset a i v) i = v.
Proof.
  intros Hi. unfold JS.fget, JS.fset.
  destruct (Z.ltb_spec i 0); [lia|].
  rewrite list_lookup_insert_eq by lia. done.
Qed.

Lemma fget_fset_ne a i j v : i <> j -> JS.fget (JS.fset a i v) j = JS.fget a j.
Proof.
  intros Hij. unfold JS.fget, JS.fset.
  destruct (Z.ltb_spec j 0); [done|].
  destruct (Z.ltb_spec i 0); [done|].
  rewrite list_lookup_insert_ne by lia. done.
Qed.

Lemma length_falloc n : Z.of_nat (length (JS.falloc n)) = Z.max 0 n.
Proof. unfold JS.falloc. rewrite length_replicate. lia. Qed.

(** An invariant of the state of a pair of nested loops. *)
Lemma forYX_inv {S C : Type} (P : S -> Prop) (ys xs : list C) body s :
  P s -> (forall s x y, P s -> P (body s x y)) -> P (JS.forYX ys xs body s).
Proof.
  intros Hs Hbody. unfold JS.forYX. revert s Hs.
  induction ys as [|y ys IH]; intros s Hs; simpl; [done|].
  apply IH. clear IH. revert s Hs.
  induction xs as [|x xs IH]; intros s Hs; simpl; [done|].
  apply IH. by apply Hbody.
Qed.

(** Nested loops that store [f x y] at index [y * w + x] of a
    [Float32Array]. *)
Lemma forYX_fset_length w (f : Z -> Z -> R) ys xs a :
  length (JS.forYX ys xs (fun r x y => JS.fset r (y * w + x) (f x y)) a) = length a.
Proof.
  apply (forYX_inv (fun r => length r = length a)); [done|].
  intros s x y Hs. by rewrite length_fset.
Qed.

Lemma forYX_fset_other w (f : Z -> Z -> R) ys xs a i :
  (forall x y, x ∈ xs -> y ∈ ys -> y * w + x <> i) ->
  JS.fget (JS.forYX ys xs (fun r x y => JS.fset r (y * w + x) (f x y)) a) i = JS.fget a i.
Proof.
  unfold JS.forYX. revert a.
  induction ys as [|y ys IH]; intros a Hne; simpl; [done|].
  rewrite IH by (intros; apply Hne; [done|by right]).
  assert (Hy : forall x, x ∈ xs -> y * w + x <> i) by (intros; apply Hne; [done|by left]).
  clear IH Hne. revert a.
  induction xs as [|x xs IH]; intros a; simpl; [done|].
  rewrite IH by (intros; apply Hy; by right).
  apply fget_fset_ne. apply Hy. by left.
Qed.

Lemma forYX_fset_at w (f : Z -> Z -> R) ys xs a x y :
  (forall x', x' ∈ xs -> 0 <= x' < w) ->
  0 <= y * w + x < Z.of_nat (length a) ->
  x ∈ xs -> y ∈ ys ->
  JS.fget (JS.forYX ys xs (fun r x y => JS.fset r (y * w + x) (f x y)) a) (y * w + x)
  = f x y.
Proof.
  intros Hxs. unfold JS.forYX. revert a.
  induction ys as [|y0 ys IH]; intros a Hlen Hx Hy; [by apply elem_of_nil in Hy|].
  simpl.
  destruct (decide (y ∈ ys)) as [Hin|Hnin].
  - apply IH; [|done|done].
    pose proof (forYX_fset_length w f [y0] xs a) as Hl.
    unfold JS.forYX in Hl. simpl in Hl. rewrite Hl. done.
  - apply elem_of_cons in Hy as [->|Hy]; [|done].
    pose proof (forYX_fset_other w f ys xs) as Ho. unfold JS.forYX in Ho.
    rewrite Ho.
    2:{ intros x' y' Hx' Hy' He.
        apply index_inj in He as [_ ->]; [done|by apply Hxs|by apply Hxs]. }
    clear IH Ho Hnin. revert a Hlen.
    induction xs as [|x0 xs IH]; intros a Hlen; [by apply elem_of_nil in Hx|].
    simpl.
    destruct (decide (x ∈ xs)) as [Hin|Hnin].
    + apply IH; [intros; apply Hxs; by right|done|].
      by rewrite length_fset.
    + apply elem_of_cons in Hx as [->|Hx]; [|done].
      pose proof (forYX_fset_other w f [y0] xs) as Ho. unfold JS.forYX in Ho.
      simpl in Ho. rewrite Ho.
      * by apply fget_fset_eq.
      * intros x' y' Hx' Hy' He. apply list_elem_of_singleton in Hy' as ->.
        assert (x' = x0) by lia. by subst.
Qed.

Lemma nonneg_fget a i : nonneg a -> (0 <= JS.fget a i)%R.
Proof.
  intros Ha. unfold JS.fget. destruct (i <? 0); [lra|].
  destruct (a !! Z.to_nat i) as [v|] eqn:Hv; simpl; [|lra].
  unfold nonneg in Ha. rewrite Forall_lookup in Ha. by apply (Ha _ _ Hv).
Qed.

Lemma nonneg_falloc n : nonneg (JS.falloc n).
Proof. apply Forall_replicate. lra. Qed.

Lemma nonneg_fset a i v : nonneg a -> (0 <= v)%R -> nonneg (JS.fset a i v).
Proof.
  intros Ha Hv. unfold JS.fset. destruct (i <? 0); [done|].
  by apply Forall_insert.
Qed.

End FloatArrays.

Section Layers.

Variables (data : list Z) (w h ch : Z).

Lemma analyzeColorClusters_get random x y :
  in_image w h x y ->
  JS.fget (AIBackgroundRemover.analyzeColorClusters random data w h ch) (y * w + x)
  = cluster_score (AIBackgroundRemover.samplePoints random data w h ch) data w ch x y.
Proof.
  intros [Hx Hy]. unfold AIBackgroundRemover.analyzeColorClusters. cbv zeta.
  rewrite (forYX_fset_at w
    (cluster_score (AIBackgroundRemover.samplePoints random data w h ch) data w ch)).
  - done.
  - intros x'. rewrite elem_of_range. lia.
  - rewrite length_falloc. nia.
  - apply elem_of_range. lia.
  - apply elem_of_range. lia.
Qed.

Lemma analyzeEdgeComplexity_eq :
  AIBackgroundRemover.analyzeEdgeComplexity data w h ch
  = JS.forYX (JS.range 1 (h - 1)) (JS.range 1 (w - 1))
      (fun r x y => JS.fset r (y * w + x) (edge_score data w ch x y))
      (JS.falloc (w * h)).
Proof.
  unfold AIBackgroundRemover.analyzeEdgeComplexity, edge_score.
  f_equal.
Qed.

Lemma analyzeTexturePatterns_eq :
  AIBackgroundRemover.analyzeTexturePatterns data w h ch
  = JS.forYX (JS.range 1 (h - 1)) (JS.range 1 (w - 1))
      (fun r x y => JS.fset r (y * w + x) (texture_score data w ch x y))
      (JS.falloc (w * h)).
Proof. reflexivity. Qed.

Lemma analyzeSpatialCoherence_eq :
  AIBackgroundRemover.analyzeSpatialCoherence data w h ch
  = JS.forYX (JS.range 2 (h - 2)) (JS.range 2 (w - 2))
      (fun r x y => JS.fset r (y * w + x) (coherence_score data w ch x y))
      (JS.falloc (w * h)).
Proof. reflexivity. Qed.

Lemma edge_score_nonneg x y : (0 <= edge_score data w ch x y)%R.
Proof.
  unfold edge_score.
  destruct (JS.forYX _ _ _ _) as [gx gy].
  apply Rmult_le_pos; [apply sqrt_pos|lra].
Qed.

Lemma texture_score_nonneg x y : (0 <= texture_score data w ch x y)%R.
Proof.
  unfold texture_score. apply Rmin_glb; [|lra].
  apply Rmult_le_pos; [|lra].
  unfold texture_variance. apply (forYX_inv (fun v => (0 <= v)%R)); [lra|].
  intros v kx ky Hv. destruct ((kx =? 0) && (ky =? 0)); [done|].
  apply Rplus_le_le_0_compat; [done|apply pow2_ge_0].
Qed.

Lemma coherence_score_nonneg x y : (0 <= coherence_score data w ch x y)%R.
Proof.
  unfold coherence_score.
  assert (Ht : (0 <= (coherence_sum data w ch x y).1
                /\ 0 <= (coherence_sum data w ch x y).2)%R).
  { unfold coherence_sum. apply (forYX_inv (fun t : R * R => (0 <= t.1 /\ 0 <= t.2)%R)).
    - simpl. lra.
    - intros t kx ky [H1 H2]. simpl. split; [|lra].
      apply Rplus_le_le_0_compat; [done|apply sqrt_pos]. }
  destruct (coherence_sum data w ch x y) as [t c]. simpl in Ht. destruct Ht as [H1 H2].
  apply Rmult_le_pos; [|lra].
  apply Rmult_le_pos; [done|].
  destruct (Req_dec c 0) as [->|Hc]; [rewrite Rinv_0; lra|].
  left. apply Rinv_0_lt_compat. lra.
Qed.

Lemma forYX_fset_nonneg (f : Z -> Z -> R) ys xs a :
  (forall x y, (0 <= f x y)%R) -> nonneg a ->
  nonneg (JS.forYX ys xs (fun r x y => JS.fset r (y * w + x) (f x y)) a).
Proof.
  intros Hf Ha. apply (forYX_inv nonneg); [done|].
  intros s x y Hs. by apply nonneg_fset.
Qed.

Lemma analyzeEdgeComplexity_nonneg :
  nonneg (AIBackgroundRemover.analyzeEdgeComplexity data w h ch).
Proof.
  rewrite analyzeEdgeComplexity_eq.
  apply forYX_fset_nonneg; [apply edge_score_nonneg|apply nonneg_falloc].
Qed.

Lemma analyzeTexturePatterns_nonneg :
  nonneg (AIBackgroundRemover.analyzeTexturePatterns data w h ch).
Proof.
  rewrite analyzeTexturePatterns_eq.
  apply forYX_fset_nonneg; [apply texture_score_nonneg|apply nonneg_falloc].
Qed.

Lemma analyzeSpatialCoherence_nonneg :
  nonneg (AIBackgroundRemover.analyzeSpatialCoherence data w h ch).
Proof.
  rewrite analyzeSpatialCoherence_eq.
  apply forYX_fset_nonneg; [apply coherence_score_nonneg|apply nonneg_falloc].
Qed.

(** The threshold, pixel by pixel. *)
Lemma thresholdMask_get l0 l1 l2 l3 x y :
  in_image w h x y ->
  JS.get (AIBackgroundRemover.thresholdMask (l0, l1, l2, l3) w h) (y * w + x)
  = Some (if Rlt_dec (probability (JS.fget l0 (y * w + x)) (JS.fget l1 (y * w + x))
                                  (JS.fget l2 (y * w + x)) (JS.fget l3 (y * w + x)))
                     (3 / 10)
          then 0 else 255).
Proof.
  intros [Hx Hy]. unfold AIBackgroundRemover.thresholdMask. cbv zeta.
  rewrite (forYX_set_at w (fun x y =>
    if Rlt_dec (probability (JS.fget l0 (y * w + x)) (JS.fget l1 (y * w + x))
                            (JS.fget l2 (y * w + x)) (JS.fget l3 (y * w + x)))
               (3 / 10)
    then 0 else 255)).
  - by destruct (Rlt_dec _ _).
  - intros x'. rewrite elem_of_range. lia.
  - rewrite length_alloc. nia.
  - apply elem_of_range. lia.
  - apply elem_of_range. lia.
Qed.

Lemma thresholdMask_length layers : 0 <= w * h ->
  Z.of_nat (length (AIBackgroundRemover.thresholdMask layers w h)) = w * h.
Proof.
  intros Hwh. destruct layers as [[[l0 l1] l2] l3].
  unfold AIBackgroundRemover.thresholdMask.
  rewrite (forYX_set_length w (fun x y =>
    if Rlt_dec (probability (JS.fget l0 (y * w + x)) (JS.fget l1 (y * w + x))
                            (JS.fget l2 (y * w + x)) (JS.fget l3 (y * w + x)))
               (3 / 10)
    then 0 else 255)).
  rewrite length_alloc. lia.
Qed.

Lemma thresholdMask_bytes layers : bytes (AIBackgroundRemover.thresholdMask layers w h).
Proof.
  destruct layers as [[[l0 l1] l2] l3].
  unfold AIBackgroundRemover.thresholdMask.
  apply (bytes_forYX_set w (fun x y =>
    if Rlt_dec (probability (JS.fget l0 (y * w + x)) (JS.fget l1 (y * w + x))
                            (JS.fget l2 (y * w + x)) (JS.fget l3 (y * w + x)))
               (3 / 10)
    then 0 else 255)).
  apply bytes_alloc.
Qed.

(** The threshold in terms of the score: a pixel whose colour score is
    at least 5/3 is kept, a pixel whose four scores are 0 is removed. *)
Lemma probability_high l0 l1 l2 l3 :
  (5 / 3 <= l0)%R -> (0 <= l1)%R -> (0 <= l2)%R -> (0 <= l3)%R ->
  ~ (probability l0 l1 l2 l3 < 3 / 10)%R.
Proof.
  intros H0 H1 H2 H3. unfold probability.
  set (s := (0 + l0 * (3 / 10) + l1 * (25 / 100) + l2 * (25 / 100) + l3 * (2 / 10))%R).
  assert (Hs : (5 / 10 <= s)%R) by (unfold s; nra).
  assert (He : (exp (-5 * (s - 5 / 10)) <= 1)%R).
  { rewrite <- exp_0. destruct (Req_dec (-5 * (s - 5 / 10)) 0) as [->|Hne]; [lra|].
    left. apply exp_increasing. lra. }
  pose proof (exp_pos (-5 * (s - 5 / 10))) as Hp.
  intros Hlt.
  assert (Hhalf : (1 / 2 <= 1 / (1 + exp (-5 * (s - 5 / 10))))%R).
  { apply Rmult_le_reg_r with (1 + exp (-5 * (s - 5 / 10)))%R; [lra|].
    field_simplify; lra. }
  lra.
Qed.

Lemma probability_zero : (probability 0 0 0 0 < 3 / 10)%R.
Proof.
  unfold probability.
  replace (-5 * (0 + 0 * (3 / 10) + 0 * (25 / 100) + 0 * (25 / 100) + 0 * (2 / 10) - 5 / 10))%R
    with (5 / 2)%R by lra.
  pose proof (exp_ineq1 (5 / 2)) as He.
  assert (Hgt : (7 / 2 < exp (5 / 2))%R) by lra.
  apply Rmult_lt_reg_r with (1 + exp (5 / 2))%R; [lra|].
  field_simplify; lra.
Qed.

End Layers.

Section CleanUp.

Variables (m : list Z) (w h : Z).
Hypothesis Hlen : Z.of_nat (length m) = w * h.
Hypothesis Hbytes : bytes m.

Lemma erode_has_zero x y i :
  1 <= x <= w - 2 -> 1 <= y <= h - 2 ->
  i ∈ window w x y -> JS.get m i = Some 0 ->
  JS.get (AIBackgroundRemover.erode m w h) (y * w + x) = Some 0.
Proof.
  intros Hx Hy Hi H0. rewrite erode_interior by done.
  destruct (foldl_min_spec m (window w x y) 255) as (r & Hr & _ & Hle & Hlo).
  { by eapply window_defined. }
  unfold window_min. rewrite Hr. simpl.
  assert (0 <= r).
  { apply Hlo; [lia|]. intros j v _ Hv. by apply (bytes_get m j v). }
  assert (r <= 0) by (by apply (Hle i)).
  by replace r with 0 by lia.
Qed.

Lemma dilate_has_255 x y i :
  1 <= x <= w - 2 -> 1 <= y <= h - 2 ->
  i ∈ window w x y -> JS.get m i = Some 255 ->
  JS.get (AIBackgroundRemover.dilate m w h) (y * w + x) = Some 255.
Proof.
  intros Hx Hy Hi H0. rewrite dilate_interior by done.
  destruct (foldl_max_spec m (window w x y) 0) as (r & Hr & _ & Hle & Hhi).
  { by eapply window_defined. }
  unfold window_max. rewrite Hr. simpl.
  assert (r <= 255).
  { apply Hhi; [lia|]. intros j v _ Hv. by apply (bytes_get m j v). }
  assert (255 <= r) by (by apply (Hle i)).
  by replace r with 255 by lia.
Qed.

End CleanUp.

Section CleanUpMask.

Variables (m : list Z) (w h : Z).
Hypothesis Hlen : Z.of_nat (length m) = w * h.
Hypothesis Hbytes : bytes m.

Lemma erode_all_255 m' x y :
  1 <= x <= w - 2 -> 1 <= y <= h - 2 ->
  (forall i, i ∈ window w x y -> JS.get m' i = Some 255) ->
  JS.get (AIBackgroundRemover.erode m' w h) (y * w + x) = Some 255.
Proof.
  intros Hx Hy Hall. rewrite erode_interior by done.
  by rewrite (window_min_const _ _ 255); [|lia|apply window_nonempty|].
Qed.

Lemma erode_all_zero m' : all_zero m' w h -> all_zero (AIBackgroundRemover.erode m' w h) w h.
Proof.
  intros Hz x y Him.
  destruct (decide (1 <= x <= w - 2 /\ 1 <= y <= h - 2)) as [[Hx Hy]|Hfr].
  - rewrite erode_interior by done.
    rewrite (window_min_const _ _ 0); [done|lia|apply window_nonempty|].
    intros i Hi. apply elem_of_window in Hi as (dx & dy & Hdx & Hdy & ->).
    apply Hz. unfold in_image. lia.
  - apply erode_frame; [done|]. unfold in_image, on_border in *. lia.
Qed.

Lemma dilate_all_zero m' : all_zero m' w h -> all_zero (AIBackgroundRemover.dilate m' w h) w h.
Proof.
  intros Hz x y Him.
  destruct (decide (1 <= x <= w - 2 /\ 1 <= y <= h - 2)) as [[Hx Hy]|Hfr].
  - rewrite dilate_interior by done.
    rewrite (window_max_const _ _ 0); [done|lia|apply window_nonempty|].
    intros i Hi. apply elem_of_window in Hi as (dx & dy & Hdx & Hdy & ->).
    apply Hz. unfold in_image. lia.
  - apply dilate_frame; [done|]. unfold in_image, on_border in *. lia.
Qed.

(** When the 3x3 window of every pixel inside the frame holds a 0, the
    clean-up returns a mask that is 0 everywhere. *)
Lemma morphology_clears :
  (forall x y, 1 <= x <= w - 2 -> 1 <= y <= h - 2 ->
     exists i, i ∈ window w x y /\ JS.get m i = Some 0) ->
  all_zero (AIBackgroundRemover.applyMorphologicalOperations m w h) w h.
Proof.
  intros Hwin. unfold AIBackgroundRemover.applyMorphologicalOperations. cbv zeta.
  apply erode_all_zero, dilate_all_zero, dilate_all_zero.
  intros x y Him.
  destruct (decide (1 <= x <= w - 2 /\ 1 <= y <= h - 2)) as [[Hx Hy]|Hfr].
  - destruct (Hwin x y Hx Hy) as (i & Hi & H0). by apply (erode_has_zero m w h Hlen Hbytes x y i).
  - apply erode_frame; [done|]. unfold in_image, on_border in *. lia.
Qed.

(** A pixel at least two pixels away from the border whose 3x3 window
    is all 255 is 255 after the clean-up. *)
Lemma morphology_keeps_block x y :
  2 <= x <= w - 3 -> 2 <= y <= h - 3 ->
  (forall i, i ∈ window w x y -> JS.get m i = Some 255) ->
  JS.get (AIBackgroundRemover.applyMorphologicalOperations m w h) (y * w + x) = Some 255.
Proof.
  intros Hx Hy Hall. unfold AIBackgroundRemover.applyMorphologicalOperations. cbv zeta.
  assert (Hwh : 0 <= w * h) by nia.
  set (eroded := AIBackgroundRemover.erode m w h).
  set (opened := AIBackgroundRemover.dilate eroded w h).
  set (dilated := AIBackgroundRemover.dilate opened w h).
  assert (He : JS.get eroded (y * w + x) = Some 255).
  { apply erode_all_255; [lia|lia|done]. }
  assert (Hcentre : forall dx dy, -1 <= dx <= 1 -> -1 <= dy <= 1 ->
            y * w + x ∈ window w (x + dx) (y + dy)).
  { intros dx dy Hdx Hdy. apply elem_of_window. exists (- dx), (- dy). lia. }
  assert (Ho : forall dx dy, -1 <= dx <= 1 -> -1 <= dy <= 1 ->
            JS.get opened ((y + dy) * w + (x + dx)) = Some 255).
  { intros dx dy Hdx Hdy.
    apply (dilate_has_255 eroded w h) with (i := y * w + x);
      [by apply erode_length|apply erode_bytes|lia|lia|by apply Hcentre|done]. }
  assert (Hd : forall dx dy, -1 <= dx <= 1 -> -1 <= dy <= 1 ->
            JS.get dilated ((y + dy) * w + (x + dx)) = Some 255).
  { intros dx dy Hdx Hdy.
    apply (dilate_has_255 opened w h) with (i := y * w + x);
      [by apply dilate_length|apply dilate_bytes|lia|lia|by apply Hcentre|].
    replace (y * w + x) with ((y + 0) * w + (x + 0)) by lia. apply Ho; lia. }
  apply erode_all_255; [lia|lia|].
  intros i Hi. apply elem_of_window in Hi as (dx & dy & Hdx & Hdy & ->). by apply Hd.
Qed.

End CleanUpMask.

Section Samples.

Lemma fmap_const_seq {A : Type} (c : A) (start n : nat) :
  (fun _ : nat => c) <$> seq start n = replicate n c.
Proof.
  revert start. induction n as [|n IH]; intros start; simpl; [done|].
  f_equal. apply IH.
Qed.

Lemma minDistanceTo_replicate n s p :
  AIBackgroundRemover.minDistanceTo (replicate (S n) s) p
  = Some (AIBackgroundRemover.colorDistance p s).
Proof.
  unfold AIBackgroundRemover.minDistanceTo. simpl.
  induction n as [|n IH]; simpl; [done|].
  rewrite Rmin_left by lra. apply IH.
Qed.

(** The sample colours depend on the first 2000 values of
    [Math.random()] only. *)
Lemma samplePoints_ext random1 random2 data w h ch :
  (forall k, (k < 2000)%nat -> (random1 k == random2 k)%Q) ->
  AIBackgroundRemover.samplePoints random1 data w h ch
  = AIBackgroundRemover.samplePoints random2 data w h ch.
Proof.
  intros Heq. unfold AIBackgroundRemover.samplePoints.
  apply list_eq_Forall2, Forall2_fmap, Forall_Forall2_diag, Forall_forall.
  intros i Hi. apply elem_of_seq in Hi. cbv zeta.
  assert (Hx : Qfloor (random1 (2 * i)%nat * inject_Z w)
               = Qfloor (random2 (2 * i)%nat * inject_Z w)).
  { apply Qfloor_comp. rewrite (Heq (2 * i)%nat) by lia. reflexivity. }
  assert (Hy : Qfloor (random1 (2 * i + 1)%nat * inject_Z h)
               = Qfloor (random2 (2 * i + 1)%nat * inject_Z h)).
  { apply Qfloor_comp. rewrite (Heq (2 * i + 1)%nat) by lia. reflexivity. }
  by rewrite Hx, Hy.
Qed.

Lemma num_speck_white i : 3 <= i < 75 -> JS.num speck_image i = 255%R.
Proof.
  intros Hi. unfold JS.num, JS.get, speck_image.
  destruct (Z.ltb_spec i 0); [lia|].
  rewrite lookup_app_r by (simpl; lia).
  rewrite lookup_replicate_2 by (simpl; lia). done.
Qed.

Lemma rgb_speck_white x y :
  in_image 5 5 x y -> (x, y) <> (0, 0) ->
  AIBackgroundRemover.rgb speck_image ((y * 5 + x) * 3) = (255%R, 255%R, 255%R).
Proof.
  intros [Hx Hy] Hne. unfold AIBackgroundRemover.rgb.
  assert (1 <= y * 5 + x) by (destruct (decide (y = 0)); [subst; assert (x <> 0) by congruence; lia|lia]).
  rewrite !num_speck_white by lia. done.
Qed.

Lemma intensity_speck_white x y :
  in_image 5 5 x y -> (x, y) <> (0, 0) ->
  AIBackgroundRemover.intensityAt speck_image ((y * 5 + x) * 3) = 255%R.
Proof.
  intros [Hx Hy] Hne. unfold AIBackgroundRemover.intensityAt.
  assert (1 <= y * 5 + x) by (destruct (decide (y = 0)); [subst; assert (x <> 0) by congruence; lia|lia]).
  rewrite !num_speck_white by lia. lra.
Qed.

Lemma samples_all_black :
  AIBackgroundRemover.samplePoints (fun _ => 0%Q) speck_image 5 5 3
  = replicate 1000 (0%R, 0%R, 0%R).
Proof.
  unfold AIBackgroundRemover.samplePoints. cbv zeta.
  change (Qfloor (0 * inject_Z 5)) with 0.
  rewrite fmap_const_seq. done.
Qed.

Lemma samples_all_white :
  AIBackgroundRemover.samplePoints (fun _ => (1 # 2)%Q) speck_image 5 5 3
  = replicate 1000 (255%R, 255%R, 255%R).
Proof.
  unfold AIBackgroundRemover.samplePoints. cbv zeta.
  change (Qfloor ((1 # 2) * inject_Z 5)) with 2.
  rewrite fmap_const_seq. reflexivity.
Qed.

Lemma distance_white_black :
  (425 <= AIBackgroundRemover.colorDistance (255, 255, 255) (0, 0, 0))%R.
Proof.
  unfold AIBackgroundRemover.colorDistance. simpl.
  rewrite <- (sqrt_square 425) at 1 by lra.
  apply sqrt_le_1_alt. lra.
Qed.

Lemma distance_same p : AIBackgroundRemover.colorDistance p p = 0%R.
Proof.
  unfold AIBackgroundRemover.colorDistance.
  replace ((p.1.1 - p.1.1) ^ 2 + (p.1.2 - p.1.2) ^ 2 + (p.2 - p.2) ^ 2)%R with 0%R by ring.
  apply sqrt_0.
Qed.

End Samples.

(** *** Two runs on the speck image

    In the first run every [Math.random()] returns 0 and all samples are
    the black pixel; in the second every call returns 1/2 and all
    samples are the white pixel [(2, 2)]. *)
Section TwoRuns.

Lemma num_eval b i v : JS.get b i = Some v -> JS.num b i = IZR v.
Proof. intros Hv. unfold JS.num. by rewrite Hv. Qed.

Lemma edge_layer_border x y :
  in_image 5 5 x y -> on_border 5 5 x y ->
  JS.fget (AIBackgroundRemover.analyzeEdgeComplexity speck_image 5 5 3) (y * 5 + x) = 0%R.
Proof.
  intros [Hx Hy] Hb. rewrite analyzeEdgeComplexity_eq.
  rewrite forYX_fset_other; [apply fget_falloc|].
  intros x' y'. rewrite !elem_of_range. unfold on_border in Hb. lia.
Qed.

Lemma texture_layer_border x y :
  in_image 5 5 x y -> on_border 5 5 x y ->
  JS.fget (AIBackgroundRemover.analyzeTexturePatterns speck_image 5 5 3) (y * 5 + x) = 0%R.
Proof.
  intros [Hx Hy] Hb. rewrite analyzeTexturePatterns_eq.
  rewrite forYX_fset_other; [apply fget_falloc|].
  intros x' y'. rewrite !elem_of_range. unfold on_border in Hb. lia.
Qed.

Lemma coherence_layer_off_centre x y :
  in_image 5 5 x y -> (x, y) <> (2, 2) ->
  JS.fget (AIBackgroundRemover.analyzeSpatialCoherence speck_image 5 5 3) (y * 5 + x) = 0%R.
Proof.
  intros [Hx Hy] Hne. rewrite analyzeSpatialCoherence_eq.
  rewrite forYX_fset_other; [apply fget_falloc|].
  intros x' y'. rewrite !elem_of_range. intros Hx' Hy' He.
  apply Hne. f_equal; lia.
Qed.

Lemma edge_score_flat x y :
  2 <= x <= 3 -> 2 <= y <= 3 -> edge_score speck_image 5 3 x y = 0%R.
Proof.
  intros Hx Hy. unfold edge_score. rewrite window_range.
  cbn [JS.forYX foldl fst snd].
  rewrite !intensity_speck_white
    by first [unfold in_image; lia | intros [= ? ?]; lia].
  repeat (erewrite num_eval by reflexivity).
  assert (Haux : forall gx gy : R, gx = 0%R -> gy = 0%R ->
            (sqrt (gx * gx + gy * gy) / 255)%R = 0%R).
  { intros gx gy -> ->. rewrite Rmult_0_l, Rplus_0_l, sqrt_0. lra. }
  apply Haux; lra.
Qed.

Lemma texture_score_flat x y :
  2 <= x <= 3 -> 2 <= y <= 3 -> texture_score speck_image 5 3 x y = 0%R.
Proof.
  intros Hx Hy. unfold texture_score, texture_variance. rewrite window_range.
  cbn [JS.forYX foldl Z.eqb Pos.eqb andb].
  rewrite !intensity_speck_white
    by first [unfold in_image; lia | intros [= ? ?]; lia].
  match goal with |- Rmin (?v / _) 1 = _ => replace v with 0%R by ring end.
  rewrite Rmin_left; lra.
Qed.

Lemma edge_layer_flat x y :
  2 <= x <= 3 -> 2 <= y <= 3 ->
  JS.fget (AIBackgroundRemover.analyzeEdgeComplexity speck_image 5 5 3) (y * 5 + x) = 0%R.
Proof.
  intros Hx Hy. rewrite analyzeEdgeComplexity_eq.
  rewrite (forYX_fset_at 5 (edge_score speck_image 5 3)).
  - by apply edge_score_flat.
  - intros x'. rewrite elem_of_range. lia.
  - rewrite length_falloc. lia.
  - apply elem_of_range. lia.
  - apply elem_of_range. lia.
Qed.

Lemma texture_layer_flat x y :
  2 <= x <= 3 -> 2 <= y <= 3 ->
  JS.fget (AIBackgroundRemover.analyzeTexturePatterns speck_image 5 5 3) (y * 5 + x) = 0%R.
Proof.
  intros Hx Hy. rewrite analyzeTexturePatterns_eq.
  rewrite (forYX_fset_at 5 (texture_score speck_image 5 3)).
  - by apply texture_score_flat.
  - intros x'. rewrite elem_of_range. lia.
  - rewrite length_falloc. lia.
  - apply elem_of_range. lia.
  - apply elem_of_range. lia.
Qed.

(** With black samples every white pixel is kept by the threshold. *)
Lemma black_samples_keep x y :
  in_image 5 5 x y -> (x, y) <> (0, 0) ->
  JS.get (AIBackgroundRemover.thresholdMask (speck_layers (fun _ => 0%Q)) 5 5) (y * 5 + x)
  = Some 255.
Proof.
  intros Him Hne. unfold speck_layers. rewrite thresholdMask_get by done.
  destruct (Rlt_dec _ _) as [Hlt|]; [exfalso|done].
  revert Hlt. apply probability_high.
  - rewrite analyzeColorClusters_get by done.
    rewrite samples_all_black. unfold cluster_score.
    rewrite minDistanceTo_replicate, rgb_speck_white by done. simpl.
    pose proof distance_white_black. lra.
  - apply nonneg_fget, analyzeEdgeComplexity_nonneg.
  - apply nonneg_fget, analyzeTexturePatterns_nonneg.
  - apply nonneg_fget, analyzeSpatialCoherence_nonneg.
Qed.

(** With white samples the threshold removes the white pixels of the
    frame and the pixel [(3, 3)]. *)
Lemma white_samples_remove x y :
  in_image 5 5 x y -> (x, y) <> (0, 0) ->
  on_border 5 5 x y \/ (x = 3 /\ y = 3) ->
  JS.get (AIBackgroundRemover.thresholdMask (speck_layers (fun _ => (1 # 2)%Q)) 5 5) (y * 5 + x)
  = Some 0.
Proof.
  intros Him Hne Hwhere. unfold speck_layers. rewrite thresholdMask_get by done.
  rewrite analyzeColorClusters_get by done.
  rewrite samples_all_white. unfold cluster_score.
  rewrite minDistanceTo_replicate, rgb_speck_white, distance_same by done. simpl.
  replace (0 / 255)%R with 0%R by lra.
  rewrite coherence_layer_off_centre.
  2: done.
  2:{ intros [= -> ->]. unfold on_border in Hwhere. lia. }
  destruct Hwhere as [Hb|[-> ->]].
  - rewrite edge_layer_border, texture_layer_border by done.
    destruct (Rlt_dec _ _) as [|Hn]; [done|]. destruct Hn. apply probability_zero.
  - rewrite edge_layer_flat, texture_layer_flat by lia.
    destruct (Rlt_dec _ _) as [|Hn]; [done|]. destruct Hn. apply probability_zero.
Qed.

Lemma black_run_centre :
  JS.get (AIBackgroundRemover.createEnhancedAIMask (fun _ => 0%Q) speck_image 5 5 3) 12
  = Some 255.
Proof.
  unfold AIBackgroundRemover.createEnhancedAIMask. cbv zeta.
  change 12 with (2 * 5 + 2).
  apply morphology_keeps_block.
  - lia.
  - lia.
  - intros i Hi. apply elem_of_window in Hi as (dx & dy & Hdx & Hdy & ->).
    apply (black_samples_keep (2 + dx) (2 + dy)); [unfold in_image; lia|].
    intros [= ? ?]. lia.
Qed.

Lemma white_run_centre :
  JS.get (AIBackgroundRemover.createEnhancedAIMask (fun _ => (1 # 2)%Q) speck_image 5 5 3) 12
  = Some 0.
Proof.
  unfold AIBackgroundRemover.createEnhancedAIMask. cbv zeta.
  change 12 with (2 * 5 + 2).
  apply morphology_clears; [rewrite thresholdMask_length; lia|apply thresholdMask_bytes| |
                            unfold in_image; lia].
  intros x y Hx Hy.
  destruct (decide (y = 1)) as [->|Hy1].
  - exists (0 * 5 + 2). split.
    + apply elem_of_window. exists (2 - x), (-1). lia.
    + apply white_samples_remove; [unfold in_image; lia|done|left; unfold on_border; lia].
  - destruct (decide (x = 1)) as [->|Hx1].
    + exists (2 * 5 + 0). split.
      * apply elem_of_window. exists (-1), (2 - y). lia.
      * apply white_samples_remove; [unfold in_image; lia|done|left; unfold on_border; lia].
    + exists (3 * 5 + 3). split.
      * apply elem_of_window. exists (3 - x), (3 - y). lia.
      * apply white_samples_remove; [unfold in_image; lia|done|by right].
Qed.

End TwoRuns.

(** C9, as stated, fails: the code draws its samples from
    [Math.random()], which takes no seed.  On the 5x5 image that is
    white except for a black pixel at (0,0), the run in which every
    draw is 0 returns a mask with 255 at the centre pixel, and the run
    in which every draw is 1/2 returns a mask with 0 there. *)
Lemma C9_counterexample :
  let run1 := AIBackgroundRemover.createEnhancedAIMask (fun _ => 0%Q) speck_image 5 5 3 in
  let run2 := AIBackgroundRemover.createEnhancedAIMask (fun _ => (1 # 2)%Q) speck_image 5 5 3 in
  JS.get run1 12 = Some 255 /\ JS.get run2 12 = Some 0 /\ run1 <> run2.
Proof.
  cbv zeta. split; [apply black_run_centre|]. split; [apply white_run_centre|].
  intros Heq. pose proof black_run_centre as H1. rewrite Heq, white_run_centre in H1.
  discriminate H1.
Qed.

(** C9, amended.  Two runs of [createEnhancedAIMask] on the same input
    in which the first 2000 calls of [Math.random()] return the same
    values (two calls for each of the 1000 sample points) produce
    identical masks. *)
Theorem C9_same_draws_same_mask (random1 random2 : nat -> Q) (data : list Z)
    (w h ch : Z) :
  (forall k, (k < 2000)%nat -> (random1 k == random2 k)%Q) ->
  AIBackgroundRemover.createEnhancedAIMask random1 data w h ch
  = AIBackgroundRemover.createEnhancedAIMask random2 data w h ch.
Proof.
  intros Heq.
  unfold AIBackgroundRemover.createEnhancedAIMask, AIBackgroundRemover.analyzeColorClusters.
  by rewrite (samplePoints_ext random1 random2 data w h ch Heq).
Qed.

Lemma C9_same_draws_same_mask_witness :
  AIBackgroundRemover.createEnhancedAIMask
    (fun k => if (k <? 2000)%nat then (1 # 2)%Q else 0%Q) speck_image 5 5 3
  = AIBackgroundRemover.createEnhancedAIMask (fun _ => (2 # 4)%Q) speck_image 5 5 3.
Proof.
  apply C9_same_draws_same_mask. intros k Hk.
  destruct (Nat.ltb_spec k 2000); [reflexivity|lia].
Defined.
(** ** C10, C8: the border frame, opening and closing *)

(** C10. For a mask of a [w] x [h] image with [w >= 2] and [h >= 2],
    [erode] and [dilate] leave 0 at every pixel of row 0, row [h - 1],
    column 0 and column [w - 1], whatever the input mask holds; hence the
    mask [applyMorphologicalOperations] returns has a fully transparent
    outer frame. *)
Theorem C10_border_frame_is_zero (mask : list Z) (w h x y : Z) :
  2 <= w -> 2 <= h -> in_image w h x y -> on_border w h x y ->
  JS.get (AIBackgroundRemover.erode mask w h) (y * w + x) = Some 0 /\
  JS.get (AIBackgroundRemover.dilate mask w h) (y * w + x) = Some 0 /\
  JS.get (AIBackgroundRemover.applyMorphologicalOperations mask w h) (y * w + x) = Some 0.
Proof.
  intros _ _ Him Hb. split; [|split].
  - by apply erode_frame.
  - by apply dilate_frame.
  - unfold AIBackgroundRemover.applyMorphologicalOperations. by apply erode_frame.
Qed.

Lemma C10_border_frame_is_zero_witness :
  JS.get (AIBackgroundRemover.erode (replicate 9 255) 3 3) (0 * 3 + 2) = Some 0 /\
  JS.get (AIBackgroundRemover.dilate (replicate 9 255) 3 3) (0 * 3 + 2) = Some 0 /\
  JS.get (AIBackgroundRemover.applyMorphologicalOperations (replicate 9 255) 3 3) (0 * 3 + 2) = Some 0.
Proof.
  apply (C10_border_frame_is_zero (replicate 9 255) 3 3 2 0).
  - lia.
  - lia.
  - unfold in_image. lia.
  - unfold on_border. lia.
Defined.

(** C8, as stated, fails.  On a 7x7 mask that is foreground except for
    the single background pixel (3,3), opening leaves that pixel at 0;
    on a 7x7 mask that is background except for the single foreground
    pixel (3,3), closing leaves that pixel at 255. *)
Lemma C8_counterexample :
  let hole := <[24%nat := 0]> (replicate 49 255) in
  let speck := <[24%nat := 255]> (replicate 49 0) in
  neighbours_are hole 7 7 3 3 255 /\ JS.get hole 24 = Some 0 /\
  JS.get (opening hole 7 7) 24 = Some 0 /\
  neighbours_are speck 7 7 3 3 0 /\ JS.get speck 24 = Some 255 /\
  JS.get (closing speck 7 7) 24 = Some 255.
Proof.
  simpl. repeat split; try (by apply neighbours_areb_sound); by vm_compute.
Qed.

(** C8, amended: the roles are the other way round.  Opening
    (erode, then dilate) sets to 0 a pixel whose 8 neighbours are
    background, so it removes an isolated foreground pixel; closing
    (dilate, then erode) sets to 255 a pixel whose 8 neighbours are
    foreground, so it fills an isolated background pixel, provided the
    pixel is at least two pixels away from the image border. *)
Theorem C8_opening_removes_closing_fills (mask : list Z) (w h x y : Z) :
  Z.of_nat (length mask) = w * h -> bytes mask -> in_image w h x y ->
  (neighbours_are mask w h x y 0 ->
   JS.get (opening mask w h) (y * w + x) = Some 0) /\
  (2 <= x <= w - 3 -> 2 <= y <= h - 3 -> neighbours_are mask w h x y 255 ->
   JS.get (closing mask w h) (y * w + x) = Some 255).
Proof.
  intros Hlen Hb Him. split.
  - by apply opening_isolated_foreground.
  - by apply closing_isolated_background.
Qed.

Lemma C8_opening_removes_closing_fills_witness :
  JS.get (opening (<[12%nat := 255]> (replicate 25 0)) 5 5) (2 * 5 + 2) = Some 0 /\
  JS.get (closing (<[12%nat := 0]> (replicate 25 255)) 5 5) (2 * 5 + 2) = Some 255.
Proof.
  assert (Hb0 : bytes (<[12%nat := 255]> (replicate 25 0))).
  { unfold bytes. repeat constructor; lia. }
  assert (Hb1 : bytes (<[12%nat := 0]> (replicate 25 255))).
  { unfold bytes. repeat constructor; lia. }
  assert (Him : in_image 5 5 2 2) by (unfold in_image; lia).
  split.
  - refine (proj1 (C8_opening_removes_closing_fills (<[12%nat := 255]> (replicate 25 0)) 5 5 2 2 eq_refl Hb0 Him) _).
    apply neighbours_areb_sound. reflexivity.
  - refine (proj2 (C8_opening_removes_closing_fills (<[12%nat := 0]> (replicate 25 255)) 5 5 2 2 eq_refl Hb1 Him) _ _ _).
    + lia.
    + lia.
    + apply neighbours_areb_sound. reflexivity.
Defined.
(** ** More on the morphology engine *)

Section MorphologyOrder.

Variables (w h : Z).

(** What [erode] and [dilate] store inside the frame, for a mask of
    bytes. *)
Lemma erode_interior_val m x y :
  Z.of_nat (length m) = w * h -> bytes m ->
  1 <= x <= w - 2 -> 1 <= y <= h - 2 ->
  exists r, JS.get (AIBackgroundRemover.erode m w h) (y * w + x) = Some r /\
    0 <= r <= 255 /\
    (forall i v, i ∈ window w x y -> JS.get m i = Some v -> r <= v) /\
    (forall lo, lo <= 255 ->
       (forall i v, i ∈ window w x y -> JS.get m i = Some v -> lo <= v) -> lo <= r).
Proof.
  intros Hlen Hb Hx Hy. rewrite erode_interior by done.
  destruct (foldl_min_spec m (window w x y) 255) as (r & Hr & Hr255 & Hle & Hlo).
  { by eapply window_defined. }
  unfold window_min. rewrite Hr. simpl.
  assert (0 <= r).
  { apply Hlo; [lia|]. intros j v _ Hv. by apply (bytes_get m j v). }
  exists r. rewrite Z.mod_small by lia. done.
Qed.

Lemma dilate_interior_val m x y :
  Z.of_nat (length m) = w * h -> bytes m ->
  1 <= x <= w - 2 -> 1 <= y <= h - 2 ->
  exists r, JS.get (AIBackgroundRemover.dilate m w h) (y * w + x) = Some r /\
    0 <= r <= 255 /\
    (forall i v, i ∈ window w x y -> JS.get m i = Some v -> v <= r) /\
    (forall hi, 0 <= hi ->
       (forall i v, i ∈ window w x y -> JS.get m i = Some v -> v <= hi) -> r <= hi).
Proof.
  intros Hlen Hb Hx Hy. rewrite dilate_interior by done.
  destruct (foldl_max_spec m (window w x y) 0) as (r & Hr & Hr0 & Hle & Hhi).
  { by eapply window_defined. }
  unfold window_max. rewrite Hr. simpl.
  assert (r <= 255).
  { apply Hhi; [lia|]. intros j v _ Hv. by apply (bytes_get m j v). }
  exists r. rewrite Z.mod_small by lia. done.
Qed.

Lemma centre_in_window x y : y * w + x ∈ window w x y.
Proof. apply elem_of_window. exists 0, 0. lia. Qed.

Lemma get_in_image m x y :
  Z.of_nat (length m) = w * h -> in_image w h x y ->
  exists v, JS.get m (y * w + x) = Some v.
Proof.
  intros Hlen Him. apply get_lt_is_Some. rewrite Hlen. by apply index_range.
Qed.

Lemma interior_or_border x y :
  in_image w h x y ->
  (1 <= x <= w - 2 /\ 1 <= y <= h - 2) \/ on_border w h x y.
Proof. unfold in_image, on_border. lia. Qed.

Lemma erode_mono m m' :
  Z.of_nat (length m) = w * h -> Z.of_nat (length m') = w * h ->
  bytes m -> bytes m' -> mask_le m m' w h ->
  mask_le (AIBackgroundRemover.erode m w h) (AIBackgroundRemover.erode m' w h) w h.
Proof.
  intros Hlen Hlen' Hb Hb' Hle x y Him.
  destruct (interior_or_border x y Him) as [[Hx Hy]|Hbd].
  - destruct (erode_interior_val m x y) as (r & Hr & Hr0 & Hrle & _); [done..|].
    destruct (erode_interior_val m' x y) as (r' & Hr' & Hr0' & _ & Hlo'); [done..|].
    exists r, r'. split; [done|]. split; [done|].
    apply Hlo'; [lia|]. intros i v' Hi Hv'.
    pose proof Hi as Hi'. apply elem_of_window in Hi' as (dx & dy & Hdx & Hdy & ->).
    destruct (Hle (x + dx) (y + dy)) as (u & u' & Hu & Hu' & Huu').
    { unfold in_image. lia. }
    rewrite Hu' in Hv'. injection Hv' as <-.
    specialize (Hrle _ _ Hi Hu). lia.
  - exists 0, 0. rewrite !erode_frame by done. done.
Qed.

Lemma dilate_mono m m' :
  Z.of_nat (length m) = w * h -> Z.of_nat (length m') = w * h ->
  bytes m -> bytes m' -> mask_le m m' w h ->
  mask_le (AIBackgroundRemover.dilate m w h) (AIBackgroundRemover.dilate m' w h) w h.
Proof.
  intros Hlen Hlen' Hb Hb' Hle x y Him.
  destruct (interior_or_border x y Him) as [[Hx Hy]|Hbd].
  - destruct (dilate_interior_val m x y) as (r & Hr & Hr0 & _ & Hhi); [done..|].
    destruct (dilate_interior_val m' x y) as (r' & Hr' & Hr0' & Hrle' & _); [done..|].
    exists r, r'. split; [done|]. split; [done|].
    apply Hhi; [lia|]. intros i v Hi Hv.
    pose proof Hi as Hi'. apply elem_of_window in Hi' as (dx & dy & Hdx & Hdy & ->).
    destruct (Hle (x + dx) (y + dy)) as (u & u' & Hu & Hu' & Huu').
    { unfold in_image. lia. }
    rewrite Hu in Hv. injection Hv as <-.
    specialize (Hrle' _ _ Hi Hu'). lia.
  - exists 0, 0. rewrite !dilate_frame by done. done.
Qed.

Lemma in_image_area x y : in_image w h x y -> 0 <= w * h.
Proof. unfold in_image. nia. Qed.

End MorphologyOrder.

Section MorphologyShape.

Variables (w h : Z).

Lemma binary_alloc n : binary (JS.alloc n 0).
Proof. apply Forall_replicate. by left. Qed.

Lemma binary_alloc_255 n : binary (JS.alloc n 255).
Proof. apply Forall_replicate. by right. Qed.

Lemma binary_set m i v : binary m -> v = 0 \/ v = 255 -> binary (JS.set m i v).
Proof.
  intros Hm Hv. unfold JS.set. destruct (i <? 0); [done|].
  apply Forall_insert; [done|]. by destruct Hv as [-> | ->]; [left|right].
Qed.

Lemma binary_get m i v : binary m -> JS.get m i = Some v -> v = 0 \/ v = 255.
Proof.
  unfold binary, JS.get. intros Hm. destruct (i <? 0); [done|].
  intros Hl. rewrite Forall_lookup in Hm. by apply (Hm _ _ Hl).
Qed.

Lemma binary_bytes m : binary m -> bytes m.
Proof. unfold binary, bytes. intros Hm. eapply Forall_impl; [exact Hm|]. simpl. lia. Qed.

(** The running minimum and maximum over cells of a hard mask are 0,
    255 or undefined. *)
Lemma fold_min_binary m (idxs : list Z) acc :
  binary m -> JS.to_int acc = 0 \/ JS.to_int acc = 255 ->
  let r := JS.to_int (foldl (fun mv i => JS.min mv (JS.get m i)) acc idxs) in
  r = 0 \/ r = 255.
Proof.
  intros Hm. revert acc. induction idxs as [|i idxs IH]; intros acc Hacc; simpl; [done|].
  apply IH. destruct acc as [a|]; simpl; [|by left].
  destruct (JS.get m i) as [v|] eqn:Hv; simpl; [|by left].
  apply (binary_get m i v Hm) in Hv. simpl in Hacc. lia.
Qed.

Lemma fold_max_binary m (idxs : list Z) acc :
  binary m -> JS.to_int acc = 0 \/ JS.to_int acc = 255 ->
  let r := JS.to_int (foldl (fun mv i => JS.max mv (JS.get m i)) acc idxs) in
  r = 0 \/ r = 255.
Proof.
  intros Hm. revert acc. induction idxs as [|i idxs IH]; intros acc Hacc; simpl; [done|].
  apply IH. destruct acc as [a|]; simpl; [|by left].
  destruct (JS.get m i) as [v|] eqn:Hv; simpl; [|by left].
  apply (binary_get m i v Hm) in Hv. simpl in Hacc. lia.
Qed.

Lemma forYX_as_fold {S : Type} (f : S -> Z -> S) (g : Z -> Z -> Z) (ys xs : list Z) s :
  JS.forYX ys xs (fun s kx ky => f s (g kx ky)) s
  = foldl f s (y ← ys; x ← xs; [g x y]).
Proof.
  unfold JS.forYX. revert s. induction ys as [|y ys IH]; intros s; simpl; [done|].
  rewrite foldl_app, <- IH. f_equal.
  clear IH. revert s. induction xs as [|x xs IH]; intros s; simpl; [done|].
  by rewrite IH.
Qed.

Lemma erode_binary m : binary m -> binary (AIBackgroundRemover.erode m w h).
Proof.
  intros Hm. unfold AIBackgroundRemover.erode.
  apply (forYX_inv binary); [apply binary_alloc|].
  intros s x y Hs. cbv zeta. apply binary_set; [done|].
  rewrite (forYX_as_fold (fun mv i => JS.min mv (JS.get m i))
             (fun kx ky => (y + ky) * w + (x + kx))).
  apply fold_min_binary; [done|by right].
Qed.

Lemma dilate_binary m : binary m -> binary (AIBackgroundRemover.dilate m w h).
Proof.
  intros Hm. unfold AIBackgroundRemover.dilate.
  apply (forYX_inv binary); [apply binary_alloc|].
  intros s x y Hs. cbv zeta. apply binary_set; [done|].
  rewrite (forYX_as_fold (fun mv i => JS.max mv (JS.get m i))
             (fun kx ky => (y + ky) * w + (x + kx))).
  apply fold_max_binary; [done|by left].
Qed.

Lemma applyMorphologicalOperations_binary m :
  binary m -> binary (AIBackgroundRemover.applyMorphologicalOperations m w h).
Proof.
  intros Hm. unfold AIBackgroundRemover.applyMorphologicalOperations. cbv zeta.
  by apply erode_binary, dilate_binary, dilate_binary, erode_binary.
Qed.

Lemma applyMorphologicalOperations_length m : 0 <= w * h ->
  Z.of_nat (length (AIBackgroundRemover.applyMorphologicalOperations m w h)) = w * h.
Proof. intros Hwh. by apply erode_length. Qed.

Lemma thresholdMask_binary layers :
  binary (AIBackgroundRemover.thresholdMask layers w h).
Proof.
  destruct layers as [[[l0 l1] l2] l3]. unfold AIBackgroundRemover.thresholdMask.
  apply (forYX_inv binary); [apply binary_alloc|].
  intros s x y Hs. cbv zeta. apply binary_set; [done|].
  destruct (Rlt_dec _ _); [by left|by right].
Qed.

(** The last erosion clears every pixel that is on the frame or next
    to it. *)
Lemma cleanup_near_border m x y :
  in_image w h x y -> near_border w h x y ->
  JS.get (AIBackgroundRemover.applyMorphologicalOperations m w h) (y * w + x) = Some 0.
Proof.
  intros Him Hnb. unfold AIBackgroundRemover.applyMorphologicalOperations. cbv zeta.
  pose proof (in_image_area w h x y Him) as Hwh.
  set (dilated := AIBackgroundRemover.dilate _ w h).
  destruct (interior_or_border w h x y Him) as [[Hx Hy]|Hbd]; [|by apply erode_frame].
  assert (Hcell : exists dx dy, -1 <= dx <= 1 /\ -1 <= dy <= 1 /\
            in_image w h (x + dx) (y + dy) /\ on_border w h (x + dx) (y + dy)).
  { unfold near_border in Hnb. unfold in_image, on_border.
    destruct (decide (x = 1)); [exists (-1), 0; lia|].
    destruct (decide (x = w - 2)); [exists 1, 0; lia|].
    destruct (decide (y = 1)); [exists 0, (-1); lia|].
    exists 0, 1. lia. }
  destruct Hcell as (dx & dy & Hdx & Hdy & Him' & Hbd').
  apply (erode_has_zero dilated w h) with (i := (y + dy) * w + (x + dx)).
  - by apply dilate_length.
  - apply dilate_bytes.
  - done.
  - done.
  - apply elem_of_window. by exists dx, dy.
  - by apply dilate_frame.
Qed.

End MorphologyShape.

(** X1. [erode], [dilate] and the whole clean-up are monotone: when a
    mask of bytes keeps, at every pixel, no more than another one, the
    same holds for the results. *)
Theorem cleanup_is_monotone (m m' : list Z) (w h : Z) :
  Z.of_nat (length m) = w * h -> Z.of_nat (length m') = w * h ->
  bytes m -> bytes m' -> mask_le m m' w h ->
  mask_le (AIBackgroundRemover.erode m w h) (AIBackgroundRemover.erode m' w h) w h /\
  mask_le (AIBackgroundRemover.dilate m w h) (AIBackgroundRemover.dilate m' w h) w h /\
  mask_le (AIBackgroundRemover.applyMorphologicalOperations m w h)
          (AIBackgroundRemover.applyMorphologicalOperations m' w h) w h.
Proof.
  intros Hlen Hlen' Hb Hb' Hle.
  assert (Hwh : 0 <= w * h) by lia.
  split; [by apply erode_mono|]. split; [by apply dilate_mono|].
  unfold AIBackgroundRemover.applyMorphologicalOperations. cbv zeta.
  apply erode_mono;
    [by apply dilate_length|by apply dilate_length|apply dilate_bytes|apply dilate_bytes|].
  apply dilate_mono;
    [by apply dilate_length|by apply dilate_length|apply dilate_bytes|apply dilate_bytes|].
  apply dilate_mono;
    [by apply erode_length|by apply erode_length|apply erode_bytes|apply erode_bytes|].
  by apply erode_mono.
Qed.

Lemma cleanup_is_monotone_witness :
  mask_le (AIBackgroundRemover.applyMorphologicalOperations (replicate 25 0) 5 5)
          (AIBackgroundRemover.applyMorphologicalOperations (replicate 25 255) 5 5) 5 5.
Proof.
  refine (proj2 (proj2 (cleanup_is_monotone (replicate 25 0) (replicate 25 255) 5 5
                          eq_refl eq_refl _ _ _))).
  - apply Forall_replicate. lia.
  - apply Forall_replicate. lia.
  - intros x y [Hx Hy]. exists 0, 255.
    split; [apply (get_alloc 25 0); lia|]. split; [apply (get_alloc 25 255); lia|lia].
Defined.

(** X2. On a mask of bytes that covers the image, [erode] never raises
    the byte of a pixel, and inside the frame [dilate] never lowers
    it. *)
Theorem erode_lowers_dilate_raises (m : list Z) (w h x y : Z) :
  Z.of_nat (length m) = w * h -> bytes m -> in_image w h x y ->
  exists v e, JS.get m (y * w + x) = Some v /\
    JS.get (AIBackgroundRemover.erode m w h) (y * w + x) = Some e /\ e <= v /\
    (1 <= x <= w - 2 -> 1 <= y <= h - 2 ->
     exists d, JS.get (AIBackgroundRemover.dilate m w h) (y * w + x) = Some d /\ v <= d).
Proof.
  intros Hlen Hb Him.
  destruct (get_in_image w h m x y Hlen Him) as [v Hv].
  pose proof (bytes_get m _ v Hb Hv) as Hv255.
  destruct (interior_or_border w h x y Him) as [[Hx Hy]|Hbd].
  - destruct (erode_interior_val w h m x y) as (e & He & _ & Hle & _); [done..|].
    exists v, e. split; [done|]. split; [done|]. split.
    + apply (Hle (y * w + x)); [apply centre_in_window|done].
    + intros _ _.
      destruct (dilate_interior_val w h m x y) as (d & Hd & _ & Hge & _); [done..|].
      exists d. split; [done|]. apply (Hge (y * w + x)); [apply centre_in_window|done].
  - exists v, 0. split; [done|]. split; [by apply erode_frame|]. split; [lia|].
    unfold on_border in Hbd. lia.
Qed.

Lemma erode_lowers_dilate_raises_witness :
  exists v e, JS.get (replicate 9 255) (1 * 3 + 1) = Some v /\
    JS.get (AIBackgroundRemover.erode (replicate 9 255) 3 3) (1 * 3 + 1) = Some e /\ e <= v /\
    (1 <= 1 <= 3 - 2 -> 1 <= 1 <= 3 - 2 ->
     exists d, JS.get (AIBackgroundRemover.dilate (replicate 9 255) 3 3) (1 * 3 + 1) = Some d
               /\ v <= d).
Proof.
  apply (erode_lowers_dilate_raises (replicate 9 255) 3 3 1 1).
  - reflexivity.
  - apply Forall_replicate. lia.
  - unfold in_image. lia.
Defined.

(** X3. Whatever the mask, [applyMorphologicalOperations] returns 0 at
    every pixel that is on the outer frame or next to it: the cleaned
    mask has a transparent frame two pixels wide. *)
Theorem cleanup_clears_wide_frame (m : list Z) (w h x y : Z) :
  in_image w h x y -> near_border w h x y ->
  JS.get (AIBackgroundRemover.applyMorphologicalOperations m w h) (y * w + x) = Some 0.
Proof. apply cleanup_near_border. Qed.

Lemma cleanup_clears_wide_frame_witness :
  JS.get (AIBackgroundRemover.applyMorphologicalOperations (replicate 36 255) 6 6)
    (1 * 6 + 3) = Some 0.
Proof.
  apply (cleanup_clears_wide_frame (replicate 36 255) 6 6 3 1).
  - unfold in_image. lia.
  - unfold near_border. lia.
Defined.

(** X4. The mask [createEnhancedAIMask] returns has one byte per pixel
    and every byte is 0 or 255: the synthesizer does no feathering. *)
Theorem synthesizer_mask_is_hard (random : nat -> Q) (data : list Z) (w h ch : Z) :
  0 <= w * h ->
  Z.of_nat (length (AIBackgroundRemover.createEnhancedAIMask random data w h ch)) = w * h /\
  binary (AIBackgroundRemover.createEnhancedAIMask random data w h ch).
Proof.
  intros Hwh. unfold AIBackgroundRemover.createEnhancedAIMask. cbv zeta. split.
  - by apply applyMorphologicalOperations_length.
  - apply applyMorphologicalOperations_binary, thresholdMask_binary.
Qed.

Lemma synthesizer_mask_is_hard_witness :
  Z.of_nat (length (AIBackgroundRemover.createEnhancedAIMask
                      (fun _ => 0%Q) speck_image 5 5 3)) = 5 * 5 /\
  binary (AIBackgroundRemover.createEnhancedAIMask (fun _ => 0%Q) speck_image 5 5 3).
Proof. apply synthesizer_mask_is_hard. lia. Defined.
(** ** The RGBA rasters handed to the encoder *)

Section Rasters.

Lemma rgba_cells_length g out i : length (rgba_cells g out i) = length out.
Proof. unfold rgba_cells. by rewrite !length_set. Qed.

Lemma foldl_rgba_length g (l : list Z) out :
  length (foldl (rgba_cells g) out l) = length out.
Proof.
  revert out. induction l as [|j l IH]; intros out; simpl; [done|].
  by rewrite IH, rgba_cells_length.
Qed.

Lemma rgba_cells_at g out i k :
  0 <= k <= 3 -> 0 <= i * 4 + k < Z.of_nat (length out) ->
  JS.get (rgba_cells g out i) (i * 4 + k) = Some (g i k mod 256).
Proof.
  intros Hk Hi. unfold rgba_cells.
  assert (Hc : k = 0 \/ k = 1 \/ k = 2 \/ k = 3) by lia.
  destruct Hc as [-> | [-> | [-> | ->]]].
  - rewrite !get_set_ne by lia. rewrite Z.add_0_r. apply get_set_eq. lia.
  - rewrite !get_set_ne by lia. apply get_set_eq. rewrite length_set. lia.
  - rewrite !get_set_ne by lia. apply get_set_eq. rewrite !length_set. lia.
  - apply get_set_eq. rewrite !length_set. lia.
Qed.

Lemma rgba_cells_other g out i j k :
  0 <= k <= 3 -> i <> j -> JS.get (rgba_cells g out j) (i * 4 + k) = JS.get out (i * 4 + k).
Proof. intros Hk Hij. unfold rgba_cells. rewrite !get_set_ne by lia. done. Qed.

(** After the loop, the cells of every pixel the loop visited hold the
    values of [g]. *)
Lemma foldl_rgba_at g (l : list Z) out i k :
  0 <= k <= 3 -> 0 <= i * 4 + k < Z.of_nat (length out) ->
  i ∈ l \/ JS.get out (i * 4 + k) = Some (g i k mod 256) ->
  JS.get (foldl (rgba_cells g) out l) (i * 4 + k) = Some (g i k mod 256).
Proof.
  intros Hk. revert out. induction l as [|j l IH]; intros out Hi Hin; simpl.
  - destruct Hin as [Hin|Hin]; [by apply elem_of_nil in Hin|done].
  - apply IH; [by rewrite rgba_cells_length|].
    destruct (decide (i = j)) as [->|Hij].
    + right. by apply rgba_cells_at.
    + destruct Hin as [Hin|Hin].
      * apply elem_of_cons in Hin as [->|Hin]; [done|by left].
      * right. by rewrite rgba_cells_other.
Qed.

Lemma composeRGBA_fold data mask info :
  ImageProcessor.composeRGBA data mask info
  = foldl (rgba_cells (rgba_of data mask (ImageProcessor.channels info)))
      (JS.alloc (ImageProcessor.width info * ImageProcessor.height info * 4) 0)
      (JS.range 0 (ImageProcessor.width info * ImageProcessor.height info)).
Proof. reflexivity. Qed.

Lemma composeRGBA_length data mask info :
  0 <= ImageProcessor.width info * ImageProcessor.height info ->
  Z.of_nat (length (ImageProcessor.composeRGBA data mask info))
  = ImageProcessor.width info * ImageProcessor.height info * 4.
Proof.
  intros Hwh. rewrite composeRGBA_fold, foldl_rgba_length, length_alloc. lia.
Qed.

Lemma composeRGBA_at data mask info i k :
  0 <= i < ImageProcessor.width info * ImageProcessor.height info -> 0 <= k <= 3 ->
  JS.get (ImageProcessor.composeRGBA data mask info) (i * 4 + k)
  = Some (rgba_of data mask (ImageProcessor.channels info) i k mod 256).
Proof.
  intros Hi Hk. rewrite composeRGBA_fold. apply foldl_rgba_at; [done| |].
  - rewrite length_alloc. lia.
  - left. apply elem_of_range. lia.
Qed.

Lemma applyEnhancedMask_fold originalData mask w h :
  AIBackgroundRemover.applyEnhancedMask originalData mask w h
  = foldl (rgba_cells (rgba_of originalData mask 3)) (JS.alloc (w * h * 4) 0)
      (y ← JS.range 0 h; x ← JS.range 0 w; [y * w + x]).
Proof.
  unfold AIBackgroundRemover.applyEnhancedMask.
  by rewrite <- (forYX_as_fold (rgba_cells (rgba_of originalData mask 3))
                   (fun x y => y * w + x)).
Qed.

Lemma applyEnhancedMask_length originalData mask w h : 0 <= w * h ->
  Z.of_nat (length (AIBackgroundRemover.applyEnhancedMask originalData mask w h))
  = w * h * 4.
Proof.
  intros Hwh. rewrite applyEnhancedMask_fold, foldl_rgba_length, length_alloc. lia.
Qed.

Lemma applyEnhancedMask_at originalData mask w h x y k :
  in_image w h x y -> 0 <= k <= 3 ->
  JS.get (AIBackgroundRemover.applyEnhancedMask originalData mask w h)
    ((y * w + x) * 4 + k)
  = Some (rgba_of originalData mask 3 (y * w + x) k mod 256).
Proof.
  intros Him Hk. rewrite applyEnhancedMask_fold.
  pose proof (index_range w h x y Him) as Hidx. destruct Him as [Hx Hy].
  apply foldl_rgba_at; [done| |].
  - rewrite length_alloc. lia.
  - left. apply list_elem_of_bind. exists y. split; [|apply elem_of_range; lia].
    apply list_elem_of_bind. exists x. split; [by left|apply elem_of_range; lia].
Qed.

End Rasters.

Section WrittenRasters.

Variables (sharp : ImageProcessor.Sharp) (data : list Z) (info : ImageProcessor.Info).

Lemma applyMaskAndSave_Some mask rgba :
  ImageProcessor.applyMaskAndSave sharp data mask info = Some rgba ->
  rgba = ImageProcessor.composeRGBA data mask info.
Proof.
  unfold ImageProcessor.applyMaskAndSave. cbv zeta.
  destruct (ImageProcessor.toFile sharp _); [|done]. by intros [= <-].
Qed.

(** Every raster a stage writes combines the input with some mask. *)
Lemma advancedBackgroundDetection_raster rgba :
  ImageProcessor.advancedBackgroundDetection sharp data info = Some rgba ->
  exists mask, rgba = ImageProcessor.composeRGBA data mask info.
Proof.
  unfold ImageProcessor.advancedBackgroundDetection. cbv zeta.
  destruct (bool_decide _); [done|].
  destruct (JS.firstSome _ _) as [mask|]; [|done].
  intros H. exists mask. by apply applyMaskAndSave_Some.
Qed.

Lemma floodFillBackgroundRemoval_raster rgba :
  ImageProcessor.floodFillBackgroundRemoval sharp data info = Some rgba ->
  exists mask, rgba = ImageProcessor.composeRGBA data mask info.
Proof.
  unfold ImageProcessor.floodFillBackgroundRemoval. cbv zeta.
  destruct (_ && _); [|done].
  intros H. eexists. by apply applyMaskAndSave_Some.
Qed.

Lemma statisticalBackgroundSeparation_raster rgba :
  ImageProcessor.statisticalBackgroundSeparation sharp data info = Some rgba ->
  exists mask, rgba = ImageProcessor.composeRGBA data mask info.
Proof.
  unfold ImageProcessor.statisticalBackgroundSeparation.
  destruct (ImageProcessor.statisticalCandidate _ _ _) as [mask|]; [|done].
  intros H. exists mask. by apply applyMaskAndSave_Some.
Qed.

Lemma aggressiveEdgeProcessing_raster rgba :
  ImageProcessor.aggressiveEdgeProcessing sharp data info = Some rgba ->
  exists mask, rgba = ImageProcessor.composeRGBA data mask info.
Proof.
  unfold ImageProcessor.aggressiveEdgeProcessing.
  destruct (ImageProcessor.edgeBuffer sharp) as [edge|]; [|done]. cbv zeta.
  destruct (_ && _); [|done].
  intros H. eexists. by apply applyMaskAndSave_Some.
Qed.

Lemma forceBackgroundRemoval_raster rgba :
  ImageProcessor.forceBackgroundRemoval sharp data info = ImageProcessor.Wrote rgba ->
  exists mask, rgba = ImageProcessor.composeRGBA data mask info.
Proof.
  unfold ImageProcessor.forceBackgroundRemoval.
  destruct (ImageProcessor.forcedCandidate _ _ _) as [mask|]; [|done].
  destruct (ImageProcessor.applyMaskAndSave _ _ _ _) as [rgba'|] eqn:Hsave.
  - intros [= <-]. exists mask. by apply applyMaskAndSave_Some.
  - cbv zeta. destruct (ImageProcessor.toFile sharp _); [|done].
    intros [= <-]. by eexists.
Qed.

Lemma removeBackground_raster res rgba :
  ImageProcessor.removeBackground sharp (Some (data, info)) = (res, Some rgba) ->
  exists mask, rgba = ImageProcessor.composeRGBA data mask info.
Proof.
  unfold ImageProcessor.removeBackground.
  destruct (ImageProcessor.advancedBackgroundDetection _ _ _) as [r1|] eqn:H1.
  { intros [= _ <-]. by eapply advancedBackgroundDetection_raster. }
  destruct (ImageProcessor.floodFillBackgroundRemoval _ _ _) as [r2|] eqn:H2.
  { intros [= _ <-]. by eapply floodFillBackgroundRemoval_raster. }
  destruct (ImageProcessor.statisticalBackgroundSeparation _ _ _) as [r3|] eqn:H3.
  { intros [= _ <-]. by eapply statisticalBackgroundSeparation_raster. }
  destruct (ImageProcessor.aggressiveEdgeProcessing _ _ _) as [r4|] eqn:H4.
  { intros [= _ <-]. by eapply aggressiveEdgeProcessing_raster. }
  destruct (ImageProcessor.forceBackgroundRemoval _ _ _) as [r5| |] eqn:H5; [|done..].
  intros [= _ <-]. by eapply forceBackgroundRemoval_raster.
Qed.

End WrittenRasters.

(** X5. The raster [applyMaskAndSave] writes has four bytes per pixel:
    the three colour bytes of the pixel in the input raster (read at a
    stride of [info.channels]) and the byte of the mask as alpha. *)
Theorem saved_raster_layout (sharp : ImageProcessor.Sharp) (data mask : list Z)
    (info : ImageProcessor.Info) (rgba : list Z) (i : Z) :
  ImageProcessor.applyMaskAndSave sharp data mask info = Some rgba ->
  0 <= i < ImageProcessor.width info * ImageProcessor.height info ->
  Z.of_nat (length rgba) = ImageProcessor.width info * ImageProcessor.height info * 4 /\
  JS.get rgba (i * 4) = Some (stored (JS.get data (i * ImageProcessor.channels info))) /\
  JS.get rgba (i * 4 + 1) = Some (stored (JS.get data (i * ImageProcessor.channels info + 1))) /\
  JS.get rgba (i * 4 + 2) = Some (stored (JS.get data (i * ImageProcessor.channels info + 2))) /\
  JS.get rgba (i * 4 + 3) = Some (stored (JS.get mask i)).
Proof.
  intros Hsave Hi. apply applyMaskAndSave_Some in Hsave as ->.
  split; [apply composeRGBA_length; lia|].
  pose proof (composeRGBA_at data mask info i 0 Hi) as H0. rewrite Z.add_0_r in H0.
  rewrite H0, !composeRGBA_at by lia. done.
Qed.

Lemma saved_raster_layout_witness :
  let info := {| ImageProcessor.width := 2; ImageProcessor.height := 1;
                 ImageProcessor.channels := 3 |} in
  let rgba := [10; 20; 30; 0; 40; 50; 60; 255] in
  Z.of_nat (length rgba) = 2 * 1 * 4 /\
  JS.get rgba (1 * 4) = Some (stored (JS.get [10; 20; 30; 40; 50; 60] (1 * 3))) /\
  JS.get rgba (1 * 4 + 1) = Some (stored (JS.get [10; 20; 30; 40; 50; 60] (1 * 3 + 1))) /\
  JS.get rgba (1 * 4 + 2) = Some (stored (JS.get [10; 20; 30; 40; 50; 60] (1 * 3 + 2))) /\
  JS.get rgba (1 * 4 + 3) = Some (stored (JS.get [0; 255] 1)).
Proof.
  apply (saved_raster_layout quiet_sharp [10; 20; 30; 40; 50; 60] [0; 255]
           {| ImageProcessor.width := 2; ImageProcessor.height := 1;
              ImageProcessor.channels := 3 |}).
  - reflexivity.
  - simpl. lia.
Defined.

(** X6. Whatever stage produces it, the raster [removeBackground]
    writes has four bytes per pixel and the colour bytes of every pixel
    are those of the decoded input: the cascade only ever decides the
    alpha channel. *)
Theorem cascade_keeps_colours (sharp : ImageProcessor.Sharp) (data : list Z)
    (info : ImageProcessor.Info) (res : ImageProcessor.ProcessResult)
    (rgba : list Z) (i : Z) :
  ImageProcessor.removeBackground sharp (Some (data, info)) = (res, Some rgba) ->
  0 <= i < ImageProcessor.width info * ImageProcessor.height info ->
  Z.of_nat (length rgba) = ImageProcessor.width info * ImageProcessor.height info * 4 /\
  JS.get rgba (i * 4) = Some (stored (JS.get data (i * ImageProcessor.channels info))) /\
  JS.get rgba (i * 4 + 1) = Some (stored (JS.get data (i * ImageProcessor.channels info + 1))) /\
  JS.get rgba (i * 4 + 2) = Some (stored (JS.get data (i * ImageProcessor.channels info + 2))) /\
  is_Some (JS.get rgba (i * 4 + 3)).
Proof.
  intros Hrun Hi. apply removeBackground_raster in Hrun as [mask ->].
  split; [apply composeRGBA_length; lia|].
  pose proof (composeRGBA_at data mask info i 0 Hi) as H0. rewrite Z.add_0_r in H0.
  rewrite H0, !composeRGBA_at by lia. done.
Qed.

Lemma cascade_keeps_colours_witness :
  let info := {| ImageProcessor.width := 2; ImageProcessor.height := 2;
                 ImageProcessor.channels := 3 |} in
  let data := [10; 20; 30; 10; 20; 30; 10; 20; 30; 10; 20; 30] in
  exists rgba,
    (ImageProcessor.removeBackground quiet_sharp (Some (data, info))).2 = Some rgba /\
    JS.get rgba (3 * 4 + 1) = Some (stored (JS.get data (3 * 3 + 1))).
Proof.
  intros info data.
  destruct (ImageProcessor.removeBackground quiet_sharp (Some (data, info)))
    as [res [rgba|]] eqn:Hrun; [|by vm_compute in Hrun].
  exists rgba. split; [reflexivity|].
  refine (proj1 (proj2 (proj2 (cascade_keeps_colours quiet_sharp data info
                                 res rgba 3 Hrun _)))).
  simpl. lia.
Defined.

(** X7. The raster [applyEnhancedMask] builds has four bytes per pixel:
    alpha is the byte of the mask, and the colour bytes of pixel [idx]
    are read from the raw original at [idx * 3], whatever the number of
    channels of the original. *)
Theorem enhanced_raster_layout (originalData mask : list Z) (w h x y : Z) :
  in_image w h x y ->
  let out := AIBackgroundRemover.applyEnhancedMask originalData mask w h in
  let idx := y * w + x in
  Z.of_nat (length out) = w * h * 4 /\
  JS.get out (idx * 4) = Some (stored (JS.get originalData (idx * 3))) /\
  JS.get out (idx * 4 + 1) = Some (stored (JS.get originalData (idx * 3 + 1))) /\
  JS.get out (idx * 4 + 2) = Some (stored (JS.get originalData (idx * 3 + 2))) /\
  JS.get out (idx * 4 + 3) = Some (stored (JS.get mask idx)).
Proof.
  intros Him out idx. subst out idx.
  split; [apply applyEnhancedMask_length; by eapply in_image_area|].
  pose proof (applyEnhancedMask_at originalData mask w h x y 0 Him) as H0.
  rewrite Z.add_0_r in H0.
  rewrite H0, !applyEnhancedMask_at by (done || lia). done.
Qed.

Lemma enhanced_raster_layout_witness :
  let out := AIBackgroundRemover.applyEnhancedMask [1; 2; 3; 4; 5; 6] [0; 255] 2 1 in
  let idx := 0 * 2 + 1 in
  Z.of_nat (length out) = 2 * 1 * 4 /\
  JS.get out (idx * 4) = Some (stored (JS.get [1; 2; 3; 4; 5; 6] (idx * 3))) /\
  JS.get out (idx * 4 + 1) = Some (stored (JS.get [1; 2; 3; 4; 5; 6] (idx * 3 + 1))) /\
  JS.get out (idx * 4 + 2) = Some (stored (JS.get [1; 2; 3; 4; 5; 6] (idx * 3 + 2))) /\
  JS.get out (idx * 4 + 3) = Some (stored (JS.get [0; 255] idx)).
Proof.
  apply (enhanced_raster_layout [1; 2; 3; 4; 5; 6] [0; 255] 2 1 1 0).
  unfold in_image. lia.
Defined.
(** ** The validator and the statistics of a mask *)

Section Untouched.

Variable mask : list Z.
Hypothesis Hun : untouched mask.

Lemma untouched_is_zero i : JS.is_zero (JS.get mask i) = false.
Proof.
  destruct (JS.get mask i) as [v|] eqn:Hv; [|done].
  destruct (decide (v = 0)) as [->|Hne]; [by apply Hun in Hv|].
  by destruct v.
Qed.

Lemma untouched_is_zeroQ q : JS.is_zero (JS.getQ mask q) = false.
Proof.
  unfold JS.getQ. destruct (JS.is_int q); [apply untouched_is_zero|done].
Qed.

Lemma untouched_scanHoles w h points visited :
  ImageProcessor.scanHoles mask w h points visited = false.
Proof.
  revert visited. induction points as [|[x y] points IH]; intros visited; simpl; [done|].
  destruct (JS.is_int _); [|apply IH].
  rewrite untouched_is_zero. simpl. apply IH.
Qed.

Lemma untouched_center_count w (points : list (Q * Q)) total :
  (foldl (fun (c : Z * Z) (p : Q * Q) =>
     let idx := (p.2 * inject_Z w + p.1)%Q in
     (if JS.is_zero (JS.getQ mask idx) then c.1 + 1 else c.1, c.2 + 1))
     (0, total) points).1 = 0.
Proof.
  revert total. induction points as [|p points IH]; intros total; simpl; [done|].
  rewrite untouched_is_zeroQ. apply IH.
Qed.

End Untouched.

(** X8. A mask that removes nothing (no byte is 0) passes
    [validateObjectPreservation], for every width and height. *)
Theorem validator_accepts_untouched_masks (mask : list Z) (w h : Z) :
  untouched mask -> ImageProcessor.validateObjectPreservation mask w h = true.
Proof.
  intros Hun. unfold ImageProcessor.validateObjectPreservation. cbv zeta.
  pose proof (untouched_center_count mask Hun w
                (ImageProcessor.centerWindow w h
                   (Qmin (inject_Z w) (inject_Z h) * (3 # 10))) 0) as Hc.
  destruct (foldl _ _ _) as [removed total]. simpl in Hc. subst removed.
  assert (Hratio : JS.ltb (12 # 100)
            (if 0 <? total then inject_Z 0 / inject_Z total else 0)%Q = false).
  { destruct (0 <? total); [|done].
    unfold JS.ltb. apply negb_false_iff, Qle_bool_iff.
    unfold Qdiv. rewrite Qmult_0_l. done. }
  rewrite Hratio.
  unfold ImageProcessor.checkForProblematicHoles. cbv zeta.
  by rewrite untouched_scanHoles.
Qed.

Lemma validator_accepts_untouched_masks_witness :
  ImageProcessor.validateObjectPreservation (replicate 6 255) 3 2 = true.
Proof.
  apply validator_accepts_untouched_masks.
  intros i Hi. unfold JS.get in Hi. destruct (i <? 0); [done|].
  apply lookup_replicate in Hi as [Hv _]. done.
Defined.

Section Statistics.






End Statistics.


(** ** The region grower: what it removes is connected to its seeds *)

Section FloodConnectivity.

Import ImageProcessor.

Variables (data zone : list Z) (w h ch : Z) (T : Q).

Lemma connected_mono (m m' : list Z) s q :
  (forall r, zero_at m w h r -> zero_at m' w h r) ->
  connected m w h s q -> connected m' w h s q.
Proof.
  intros Hm. induction 1 as [Hs|q r Hsq IH Hadj Hr].
  - apply connected_refl. by apply Hm.
  - eapply connected_step; [exact IH|exact Hadj|by apply Hm].
Qed.

Lemma zero_at_set_keep m x y r :
  zero_at m w h r -> zero_at (JS.set m (y * w + x) 0) w h r.
Proof.
  intros [Him Hz]. split; [done|].
  destruct (decide (idx_of w r = y * w + x)) as [He|Hne].
  - rewrite He in *. rewrite get_set_eq; [done|]. by eapply get_Some_lt.
  - by rewrite get_set_ne.
Qed.

Lemma zero_at_set_new m x y :
  in_image w h x y -> w * h <= Z.of_nat (length m) ->
  zero_at (JS.set m (y * w + x) 0) w h (x, y).
Proof.
  intros Him Hlen. split; [done|]. unfold idx_of. simpl.
  rewrite get_set_eq; [done|]. pose proof (index_range w h x y Him). lia.
Qed.

Lemma zero_at_set_inv m x y r :
  in_image w h x y -> zero_at (JS.set m (y * w + x) 0) w h r ->
  r = (x, y) \/ zero_at m w h r.
Proof.
  intros Him [Hr Hz].
  destruct (decide (r = (x, y))) as [->|Hne]; [by left|right].
  split; [done|]. rewrite get_set_ne in Hz; [done|].
  intros He. apply Hne. symmetry. apply (idx_of_inj w h); [done|done|].
  unfold idx_of at 1. simpl. done.
Qed.

Lemma floodLoop_connected mask0 visited sx sy m' v' n :
  w * h <= Z.of_nat (length mask0) ->
  floodLoop data mask0 visited zone sx sy w h ch T = Some (m', v', n) ->
  (forall r, zero_at mask0 w h r -> zero_at m' w h r) /\
  length m' = length mask0 /\
  (forall r, zero_at m' w h r ->
     zero_at mask0 w h r \/ connected m' w h (sx, sy) r).
Proof.
  intros Hlen Hrun. unfold floodLoop in Hrun.
  apply (whileQueue_inv _ _ (flood_inv w h mask0 (sx, sy))) in Hrun.
  - destruct Hrun as (q_end & (H1 & H2 & H3 & _) & _). done.
  - unfold flood_inv. simpl. split; [done|]. split; [done|]. split; [by left|].
    apply Forall_cons. split; [by left|by apply Forall_nil].
  - intros a q s (H1 & H2 & H3 & H4) _ _. apply Forall_cons in H4 as [_ H4].
    unfold flood_inv. done.
  - intros [x y] q [[m v] k] [[m1 v1] k1] new (H1 & H2 & H3 & H4) _ Hb.
    cbn [fst snd] in *. cbv beta iota zeta in Hb.
    destruct (_ || _) eqn:Hskip in Hb; [done|].
    destruct (JS.sqrt_le_nan _ _) in Hb; [|done].
    injection Hb as <- <- <- <-.
    repeat (apply orb_false_iff in Hskip as [Hskip ?]).
    assert (Him : in_image w h x y) by (unfold in_image; lia).
    apply Forall_cons in H4 as [Hhead H4].
    set (m1 := JS.set m (y * w + x) 0).
    assert (Hkeep : forall r, zero_at m w h r -> zero_at m1 w h r).
    { intros r. apply zero_at_set_keep. }
    assert (Hnew : zero_at m1 w h (x, y)).
    { apply zero_at_set_new; [done|lia]. }
    assert (Hp : connected m1 w h (sx, sy) (x, y)).
    { destruct Hhead as [[= -> ->]|(q' & Hq' & Hadj)].
      - by apply connected_refl.
      - eapply connected_step; [|exact Hadj|exact Hnew].
        by eapply connected_mono. }
    unfold flood_inv. cbn [fst snd]. split; [auto|].
    split; [unfold m1; by rewrite length_set|]. split.
    + intros r Hr. apply zero_at_set_inv in Hr; [|done].
      destruct Hr as [->|Hr]; [by right|].
      destruct (H3 r Hr) as [?|Hc]; [by left|right]. by eapply connected_mono.
    + apply Forall_app. split.
      * eapply Forall_impl; [exact H4|]. intros p [->|(q' & Hq' & Hadj)]; [by left|right].
        exists q'. split; [by eapply connected_mono|done].
      * repeat apply Forall_cons_2; [..|by apply Forall_nil];
          right; exists (x, y); (split; [exact Hp|]); unfold adjacent4; simpl; tauto.
Qed.

Lemma enhancedFloodFill_connected mask0 visited sx sy :
  w * h <= Z.of_nat (length mask0) ->
  let m' := (enhancedFloodFill data mask0 visited zone sx sy w h ch T).1 in
  (forall r, zero_at mask0 w h r -> zero_at m' w h r) /\
  length m' = length mask0 /\
  (forall r, zero_at m' w h r ->
     zero_at mask0 w h r \/ connected m' w h (sx, sy) r).
Proof.
  intros Hlen. unfold enhancedFloodFill.
  destruct (floodLoop _ _ _ _ _ _ _ _ _ _) as [[[m v] n]|] eqn:Hrun.
  - by apply floodLoop_connected in Hrun.
  - simpl. split; [done|]. split; [done|]. by left.
Qed.

End FloodConnectivity.

Section FloodSeeds.

Import ImageProcessor.

Variables (data : list Z) (w h ch : Z).

Lemma seeds_connected zone T (seeds : list (Z * Z)) :
  forall (s : list Z * gset Z) (seen : list (Z * Z)),
    w * h <= Z.of_nat (length s.1) ->
    (forall r, zero_at s.1 w h r -> exists seed, seed ∈ seen /\ connected s.1 w h seed r) ->
    let s' := foldl (fun (s : list Z * gset Z) (start : Z * Z) =>
                enhancedFloodFill data s.1 s.2 zone start.1 start.2 w h ch T) s seeds in
    forall r, zero_at s'.1 w h r ->
      exists seed, seed ∈ seen ++ seeds /\ connected s'.1 w h seed r.
Proof.
  induction seeds as [|[sx sy] seeds IH]; intros s seen Hlen Hinv; simpl.
  - intros r Hr. rewrite app_nil_r. by apply Hinv.
  - destruct (enhancedFloodFill_connected data zone w h ch T s.1 s.2 sx sy Hlen)
      as (Hkeep & Hl & Hnew).
    intros r Hr.
    destruct (IH (enhancedFloodFill data s.1 s.2 zone sx sy w h ch T) (seen ++ [(sx, sy)]))
      with (r := r) as (seed & Hseed & Hconn).
    + rewrite Hl. done.
    + intros r' Hr'. destruct (Hnew r' Hr') as [Hold|Hc].
      * destruct (Hinv r' Hold) as (seed & Hseed & Hconn).
        exists seed. split; [apply elem_of_app; by left|]. by eapply connected_mono.
      * exists (sx, sy). split; [apply elem_of_app; right; by left|done].
    + done.
    + exists seed. split; [|done]. by rewrite <- app_assoc in Hseed.
Qed.

Lemma push_if_Forall {A : Type} (P : A -> Prop) (c : A -> bool) (pts acc : list A) :
  Forall P acc -> Forall P pts ->
  Forall P (foldl (fun acc pt => if c pt then acc ++ [pt] else acc) acc pts).
Proof.
  revert acc. induction pts as [|pt pts IH]; intros acc Hacc Hpts; simpl; [done|].
  apply Forall_cons in Hpts as [Hpt Hpts].
  apply IH; [|done]. destruct (c pt); [|done].
  apply Forall_app. split; [done|]. by apply Forall_cons_2.
Qed.

Lemma floodFillStartPoints_on_border :
  Forall (fun p : Z * Z => on_border w h p.1 p.2) (floodFillStartPoints data w h ch).
Proof.
  unfold floodFillStartPoints. cbv zeta.
  apply (push_if_Forall _ (fun point : Z * Z =>
           isLikelyBackgroundPixel data point.1 point.2 w h ch)).
  - apply (push_if_Forall _ (fun point : Z * Z =>
             isLikelyBackgroundPixel data point.1 point.2 w h ch)).
    + repeat apply Forall_cons_2; [..|by apply Forall_nil]; unfold on_border; simpl; lia.
    + repeat apply Forall_cons_2; [..|by apply Forall_nil]; unfold on_border; simpl; lia.
  - repeat apply Forall_cons_2; [..|by apply Forall_nil]; unfold on_border; simpl; lia.
Qed.

End FloodSeeds.

(** X11. Every pixel the flood-fill mask removes is reached from one of
    the start points, all of which lie on the outer frame of the image,
    through 4-adjacent removed pixels: [createEnhancedFloodFillMask]
    never punches a hole that is not connected to the border. *)
Theorem flood_fill_grows_from_the_border (data : list Z) (w h ch : Z) (q : Z * Z) :
  let mask := ImageProcessor.createEnhancedFloodFillMask data w h ch in
  zero_at mask w h q ->
  exists seed, seed ∈ ImageProcessor.floodFillStartPoints data w h ch /\
               on_border w h seed.1 seed.2 /\ connected mask w h seed q.
Proof.
  intros mask Hq. subst mask. unfold ImageProcessor.createEnhancedFloodFillMask in *.
  cbv zeta in *.
  destruct (seeds_connected data w h ch (ImageProcessor.createProtectedZone w h) 40
              (ImageProcessor.floodFillStartPoints data w h ch)
              (JS.alloc (w * h) 255, ∅) []) with (r := q) as (seed & Hseed & Hconn).
  - simpl. rewrite length_alloc. lia.
  - simpl. intros r [Hr Hz]. rewrite get_alloc in Hz; [done|].
    by apply index_range.
  - exact Hq.
  - exists seed. simpl in Hseed. split; [done|]. split; [|done].
    pose proof (floodFillStartPoints_on_border data w h ch) as Hb.
    rewrite Forall_forall in Hb. by apply Hb.
Qed.

Lemma flood_fill_grows_from_the_border_witness :
  let mask := ImageProcessor.createEnhancedFloodFillMask (replicate 27 200) 3 3 3 in
  exists seed, seed ∈ ImageProcessor.floodFillStartPoints (replicate 27 200) 3 3 3 /\
               on_border 3 3 seed.1 seed.2 /\ connected mask 3 3 seed (1, 0).
Proof.
  apply (flood_fill_grows_from_the_border (replicate 27 200) 3 3 3 (1, 0)).
  split; [unfold in_image; simpl; lia|by vm_compute].
Defined.
(** ** The hard mask builders of the last stages *)

Section HardMasks.

Import ImageProcessor.

Variables (data : list Z) (w h ch : Z).

Lemma foldl_inv {S C : Type} (P : S -> Prop) (body : S -> C -> S) (l : list C) s :
  P s -> (forall s c, P s -> P (body s c)) -> P (foldl body s l).
Proof.
  intros Hs Hbody. revert s Hs. induction l as [|c l IH]; intros s Hs; simpl; [done|].
  apply IH. by apply Hbody.
Qed.

Lemma hard_alloc : hard_mask w h (JS.alloc (w * h) 255).
Proof. split; [apply length_alloc|apply binary_alloc_255]. Qed.

Lemma hard_set m i : hard_mask w h m -> hard_mask w h (JS.set m i 0).
Proof.
  intros [Hl Hb]. split; [by rewrite length_set|]. apply binary_set; [done|by left].
Qed.

Lemma hard_setQ m q : hard_mask w h m -> hard_mask w h (JS.setQ m q 0).
Proof.
  intros Hm. unfold JS.setQ. destruct (JS.is_int q); [by apply hard_set|done].
Qed.

Lemma createLightBackgroundMask_hard : hard_mask w h (createLightBackgroundMask data w h ch).
Proof.
  unfold createLightBackgroundMask. cbv zeta.
  apply (foldl_inv (hard_mask w h)); [apply hard_alloc|].
  intros m i Hm.
  destruct (JS.truthy _); [done|].
  destruct (_ || _); [|done].
  destruct (_ || _); [by apply hard_set|done].
Qed.

Lemma createEnhancedEdgeMask_hard edgeData :
  hard_mask w h (createEnhancedEdgeMask data edgeData w h ch).
Proof.
  unfold createEnhancedEdgeMask. cbv zeta.
  apply (forYX_inv (hard_mask w h)); [apply hard_alloc|].
  intros m x y Hm.
  destruct (JS.truthy _); [done|].
  destruct (below _ _); [|done].
  destruct (_ || _); [by apply hard_set|done].
Qed.

Lemma createEnhancedCornerMask_hard : hard_mask w h (createEnhancedCornerMask data w h ch).
Proof.
  unfold createEnhancedCornerMask. cbv zeta.
  apply (foldl_inv (hard_mask w h)); [apply hard_alloc|].
  intros m corner Hm.
  destruct (getCornerDominantColor _ _ _ _ _ _ _); [|done].
  apply (forYX_inv (hard_mask w h)); [done|].
  intros m' x y Hm'. destruct (JS.sqrt_le_nan _ _); [by apply hard_setQ|done].
Qed.

Lemma enhancedFloodFill_hard m visited zone sx sy T :
  hard_mask w h m -> hard_mask w h (enhancedFloodFill data m visited zone sx sy w h ch T).1.
Proof.
  intros Hm. unfold enhancedFloodFill.
  destruct (floodLoop _ _ _ _ _ _ _ _ _ _) as [[[m' v'] n]|] eqn:Hrun; [|done].
  simpl. unfold floodLoop in Hrun.
  apply (whileQueue_state_inv _ _ (fun s : list Z * gset Z * Z => hard_mask w h s.1.1)) in Hrun.
  - exact Hrun.
  - done.
  - intros [x y] [[m0 v0] k0] [[m1 v1] k1] new Hm0 _ Hb.
    cbn [fst snd] in *. cbv beta iota zeta in Hb.
    destruct (_ || _) in Hb; [done|].
    destruct (JS.sqrt_le_nan _ _) in Hb; [|done].
    injection Hb as <- <- <- <-. by apply hard_set.
Qed.

Lemma createEnhancedFloodFillMask_hard : hard_mask w h (createEnhancedFloodFillMask data w h ch).
Proof.
  unfold createEnhancedFloodFillMask. cbv zeta.
  apply (foldl_inv (fun s : list Z * gset Z => hard_mask w h s.1)); [apply hard_alloc|].
  intros s start Hs. by apply enhancedFloodFill_hard.
Qed.

(** The two builders that consult the zone leave its pixels alone. *)
Lemma createLightBackgroundMask_protected i :
  0 <= i < w * h -> JS.truthy (JS.get (createProtectedZone w h) i) = true ->
  JS.get (createLightBackgroundMask data w h ch) i = Some 255.
Proof.
  intros Hi Hz. unfold createLightBackgroundMask. cbv zeta.
  apply (foldl_inv (fun m => JS.get m i = Some 255)); [by apply get_alloc|].
  intros m j Hm. cbv beta.
  destruct (decide (j = i)) as [->|Hne]; [by rewrite Hz|].
  destruct (JS.truthy (JS.get _ j)); [done|].
  destruct (_ || _); [|done].
  destruct (_ || _); [by rewrite get_set_ne|done].
Qed.

Lemma createEnhancedEdgeMask_protected edgeData i :
  0 <= i < w * h -> JS.truthy (JS.get (createProtectedZone w h) i) = true ->
  JS.get (createEnhancedEdgeMask data edgeData w h ch) i = Some 255.
Proof.
  intros Hi Hz. unfold createEnhancedEdgeMask. cbv zeta.
  apply (forYX_inv (fun m => JS.get m i = Some 255)); [by apply get_alloc|].
  intros m x y Hm. cbv beta.
  destruct (decide (y * w + x = i)) as [->|Hne]; [by rewrite Hz|].
  destruct (JS.truthy (JS.get _ (y * w + x))); [done|].
  destruct (below _ _); [|done].
  destruct (_ || _); [by rewrite get_set_ne|done].
Qed.

End HardMasks.

(** X12. The masks of the flood-fill, light-background, edge and corner
    builders are hard: each has one byte per pixel and every byte is 0
    or 255 (only [createProtectedMask] and [createEnhancedProtectedMask]
    produce intermediate alpha values). *)
Theorem late_stage_masks_are_hard (data edgeData : list Z) (w h ch : Z) :
  hard_mask w h (ImageProcessor.createEnhancedFloodFillMask data w h ch) /\
  hard_mask w h (ImageProcessor.createLightBackgroundMask data w h ch) /\
  hard_mask w h (ImageProcessor.createEnhancedEdgeMask data edgeData w h ch) /\
  hard_mask w h (ImageProcessor.createEnhancedCornerMask data w h ch).
Proof.
  split; [apply createEnhancedFloodFillMask_hard|].
  split; [apply createLightBackgroundMask_hard|].
  split; [apply createEnhancedEdgeMask_hard|apply createEnhancedCornerMask_hard].
Qed.

(** X13. [createLightBackgroundMask] and [createEnhancedEdgeMask] keep
    every pixel of the protected zone at 255, whatever the image and
    the edge buffer. *)
Theorem light_and_edge_masks_keep_the_zone (data edgeData : list Z) (w h ch x y : Z) :
  in_image w h x y -> protected_zone w h x y ->
  JS.get (ImageProcessor.createLightBackgroundMask data w h ch) (y * w + x) = Some 255 /\
  JS.get (ImageProcessor.createEnhancedEdgeMask data edgeData w h ch) (y * w + x)
  = Some 255.
Proof.
  intros Him Hz. pose proof (index_range w h x y Him) as Hi.
  apply createProtectedZone_spec in Hz; [|done].
  split.
  - by apply createLightBackgroundMask_protected.
  - by apply createEnhancedEdgeMask_protected.
Qed.

Lemma light_and_edge_masks_keep_the_zone_witness :
  JS.get (ImageProcessor.createLightBackgroundMask (replicate 48 255) 4 4 3) (2 * 4 + 2)
  = Some 255 /\
  JS.get (ImageProcessor.createEnhancedEdgeMask (replicate 48 255) (replicate 16 0) 4 4 3)
    (2 * 4 + 2) = Some 255.
Proof.
  apply (light_and_edge_masks_keep_the_zone (replicate 48 255) (replicate 16 0) 4 4 3 2 2).
  - unfold in_image. lia.
  - apply zone_test_spec. reflexivity.
Defined.
(** ** The cascade: what an accepted mask satisfies *)

Section ByteMasks.

Variables (w h : Z).

Lemma foldl_set_byte_mask (g : Z -> option Z) body (l : list Z) :
  (forall m j, body m j = match g j with Some v => JS.set m j v | None => m end) ->
  byte_mask w h (foldl body (JS.alloc (w * h) 255) l).
Proof.
  intros Hbody. apply (foldl_inv (byte_mask w h)).
  - split; [apply length_alloc|]. unfold bytes, JS.alloc. apply Forall_replicate. lia.
  - intros m j [Hlen Hb]. cbv beta. rewrite Hbody. destruct (g j); [|done].
    split; [by rewrite length_set|by apply bytes_set].
Qed.

Lemma createProtectedMask_byte_mask data ch target T :
  byte_mask w h (ImageProcessor.createProtectedMask data w h ch target T).
Proof.
  unfold ImageProcessor.createProtectedMask.
  apply (foldl_set_byte_mask (plain_store data w h ch target T)).
  intros m j. unfold plain_store.
  destruct (JS.truthy _); [done|]. simpl.
  destruct (JS.sqrt_le_nan _ (T * _)); [done|].
  by destruct (JS.sqrt_le_nan _ T).
Qed.

Lemma createEnhancedProtectedMask_byte_mask data ch target T :
  byte_mask w h (ImageProcessor.createEnhancedProtectedMask data w h ch target T).
Proof.
  unfold ImageProcessor.createEnhancedProtectedMask.
  apply (foldl_set_byte_mask (enhanced_store data w h ch target T)).
  intros m j. unfold enhanced_store.
  destruct (JS.truthy _); [done|]. simpl.
  destruct (JS.sqrt_le_nan _ (T * _)); [done|].
  by destruct (JS.sqrt_le_nan _ T && _).
Qed.

Lemma hard_byte_mask m : hard_mask w h m -> byte_mask w h m.
Proof. intros [Hlen Hb]. split; [done|by apply binary_bytes]. Qed.

End ByteMasks.

(** The alpha channel of the raster composed with a mask of the image
    is that mask. *)
Lemma alpha_of_compose data mask info :
  byte_mask (ImageProcessor.width info) (ImageProcessor.height info) mask ->
  alpha_channel (ImageProcessor.composeRGBA data mask info)
    (ImageProcessor.width info * ImageProcessor.height info) = mask.
Proof.
  intros [Hlen Hb]. unfold alpha_channel, JS.range. rewrite Z.sub_0_r.
  set (n := ImageProcessor.width info * ImageProcessor.height info) in *.
  apply (list_eq_same_length _ _ (Z.to_nat n)).
  - lia.
  - rewrite length_fmap, length_seqZ. done.
  - intros i a c Hi Ha Hc.
    rewrite list_lookup_fmap, lookup_seqZ_lt in Ha by lia.
    simpl in Ha. injection Ha as <-. rewrite Z.add_0_l.
    rewrite composeRGBA_at by (fold n; lia). unfold rgba_of, JS.to_int.
    assert (Hget : JS.get mask (Z.of_nat i) = Some c).
    { unfold JS.get. destruct (Z.ltb_spec (Z.of_nat i) 0); [lia|].
      by rewrite Nat2Z.id. }
    rewrite Hget. apply Z.mod_small.
    pose proof (bytes_get mask _ _ Hb Hget). lia.
Qed.

Section Bands.

Variables (sharp : ImageProcessor.Sharp) (data : list Z) (info : ImageProcessor.Info).

Lemma band_test mask lo hi (extra : bool) :
  JS.leb lo (ImageProcessor.analyzeMaskStatistics sharp mask).1 &&
  JS.leb (ImageProcessor.analyzeMaskStatistics sharp mask).1 hi && extra &&
  ImageProcessor.validateObjectPreservation mask
    (ImageProcessor.width info) (ImageProcessor.height info) = true ->
  within_band mask info lo hi.
Proof.
  intros H. apply andb_prop in H as [H Hv]. apply andb_prop in H as [H _].
  apply andb_prop in H as [Hlo Hhi].
  unfold ImageProcessor.analyzeMaskStatistics in Hlo, Hhi. cbv zeta in Hlo, Hhi.
  cbn [fst] in Hlo, Hhi. apply leb_true in Hlo, Hhi. done.
Qed.

Lemma band_test' mask lo hi :
  JS.leb lo (ImageProcessor.analyzeMaskStatistics sharp mask).1 &&
  JS.leb (ImageProcessor.analyzeMaskStatistics sharp mask).1 hi &&
  ImageProcessor.validateObjectPreservation mask
    (ImageProcessor.width info) (ImageProcessor.height info) = true ->
  within_band mask info lo hi.
Proof.
  intros H. apply (band_test mask lo hi true).
  apply andb_prop in H as [H Hv]. by rewrite H, Hv.
Qed.

Lemma advancedBackgroundDetection_band rgba :
  ImageProcessor.advancedBackgroundDetection sharp data info = Some rgba ->
  exists mask, ImageProcessor.applyMaskAndSave sharp data mask info = Some rgba /\
               byte_mask (ImageProcessor.width info) (ImageProcessor.height info) mask /\
               within_band mask info 15 80.
Proof.
  unfold ImageProcessor.advancedBackgroundDetection. cbv zeta.
  destruct (bool_decide _); [done|].
  destruct (JS.firstSome _ _) as [mask|] eqn:Hacc; [|done].
  intros Hsave. exists mask. split; [done|].
  apply firstSome_Some in Hacc as (cluster & _ & Hacc).
  apply firstSome_Some in Hacc as (T & _ & Hacc).
  destruct (_ && _) eqn:Htest in Hacc; [|done].
  injection Hacc as <-.
  split; [apply createProtectedMask_byte_mask|by eapply band_test].
Qed.

Lemma floodFillBackgroundRemoval_band rgba :
  ImageProcessor.floodFillBackgroundRemoval sharp data info = Some rgba ->
  exists mask, ImageProcessor.applyMaskAndSave sharp data mask info = Some rgba /\
               byte_mask (ImageProcessor.width info) (ImageProcessor.height info) mask /\
               within_band mask info 10 85.
Proof.
  unfold ImageProcessor.floodFillBackgroundRemoval. cbv zeta.
  destruct (_ && _) eqn:Htest; [|done].
  intros Hsave. eexists. split; [exact Hsave|].
  split; [apply hard_byte_mask, createEnhancedFloodFillMask_hard|by apply band_test'].
Qed.

Lemma statisticalCandidate_band mask :
  ImageProcessor.statisticalCandidate sharp data info = Some mask ->
  byte_mask (ImageProcessor.width info) (ImageProcessor.height info) mask /\
  within_band mask info 15 80.
Proof.
  unfold ImageProcessor.statisticalCandidate. cbv zeta. intros Hacc.
  apply firstSome_Some in Hacc as (colour & _ & Hacc).
  destruct (JS.ltb _ _); [done|]. destruct (JS.leb _ _); [|done].
  apply firstSome_Some in Hacc as (T & _ & Hacc).
  destruct (_ && _) eqn:Htest in Hacc; [|done].
  injection Hacc as <-.
  split; [apply createProtectedMask_byte_mask|by apply band_test'].
Qed.

Lemma statisticalBackgroundSeparation_band rgba :
  ImageProcessor.statisticalBackgroundSeparation sharp data info = Some rgba ->
  exists mask, ImageProcessor.applyMaskAndSave sharp data mask info = Some rgba /\
               byte_mask (ImageProcessor.width info) (ImageProcessor.height info) mask /\
               within_band mask info 15 80.
Proof.
  unfold ImageProcessor.statisticalBackgroundSeparation.
  destruct (ImageProcessor.statisticalCandidate _ _ _) as [mask|] eqn:Hc; [|done].
  intros Hsave. exists mask. split; [done|]. by apply statisticalCandidate_band.
Qed.

Lemma aggressiveEdgeProcessing_band rgba :
  ImageProcessor.aggressiveEdgeProcessing sharp data info = Some rgba ->
  exists mask, ImageProcessor.applyMaskAndSave sharp data mask info = Some rgba /\
               byte_mask (ImageProcessor.width info) (ImageProcessor.height info) mask /\
               within_band mask info 10 85.
Proof.
  unfold ImageProcessor.aggressiveEdgeProcessing.
  destruct (ImageProcessor.edgeBuffer sharp) as [edge|]; [|done]. cbv zeta.
  destruct (_ && _) eqn:Htest; [|done].
  intros Hsave. eexists. split; [exact Hsave|].
  split; [apply hard_byte_mask, createEnhancedEdgeMask_hard|by apply band_test'].
Qed.

(** The mask the last stage saves is a mask of the image and removes
    at least 5%. *)
Lemma forcedCandidate_floor mask :
  ImageProcessor.forcedCandidate sharp data info = Some mask ->
  byte_mask (ImageProcessor.width info) (ImageProcessor.height info) mask /\
  (5 <= ImageProcessor.removedPercentage mask)%Q.
Proof.
  unfold ImageProcessor.forcedCandidate. cbv zeta.
  set (enhanced := match ImageProcessor.findMostLikelyBackgroundColor _ _ _ _ with
                   | Some _ => _ | None => _ end).
  assert (Henh : forall m, enhanced = Some m ->
            byte_mask (ImageProcessor.width info) (ImageProcessor.height info) m /\
            within_band m info 10 80).
  { subst enhanced. intros m.
    destruct (ImageProcessor.findMostLikelyBackgroundColor _ _ _ _); [|done].
    intros Hacc. apply firstSome_Some in Hacc as (T & _ & Hacc).
    destruct (_ && _) eqn:Htest in Hacc; [|done].
    injection Hacc as <-.
    split; [apply createEnhancedProtectedMask_byte_mask|by apply band_test']. }
  destruct enhanced as [m|].
  - intros [= <-]. destruct (Henh m eq_refl) as (Hm & Hlo & _ & _).
    split; [done|]. apply (Qle_trans _ 10); [done|exact Hlo].
  - destruct (_ && _) eqn:Hlight.
    + intros [= <-]. apply band_test' in Hlight as (Hlo & _ & _).
      split; [apply hard_byte_mask, createLightBackgroundMask_hard|].
      apply (Qle_trans _ 8); [done|exact Hlo].
    + destruct (JS.leb 5 _) eqn:Hcorner; [|done].
      intros [= <-]. apply leb_true in Hcorner.
      split; [apply hard_byte_mask, createEnhancedCornerMask_hard|exact Hcorner].
Qed.

End Bands.

(** X10. When writing the output never fails, the alpha channel of
    every raster [removeBackground] writes is the mask the raster was
    composed with, and at least 5% of its bytes are 0: at least one
    pixel in twenty is fully transparent.  Unless the last stage
    produced the raster, between 10% and 85% of the alpha bytes are 0
    and the alpha channel passes [validateObjectPreservation]. *)
Theorem cascade_output_bounds (sharp : ImageProcessor.Sharp) (data : list Z)
    (info : ImageProcessor.Info) (res : ImageProcessor.ProcessResult) (rgba : list Z) :
  (forall b, ImageProcessor.toFile sharp b = true) ->
  ImageProcessor.removeBackground sharp (Some (data, info)) = (res, Some rgba) ->
  let mask :=
    alpha_channel rgba (ImageProcessor.width info * ImageProcessor.height info) in
  Z.of_nat (length mask)
  = Z.max 0 (ImageProcessor.width info * ImageProcessor.height info) /\
  rgba = ImageProcessor.composeRGBA data mask info /\
  (5 <= ImageProcessor.removedPercentage mask)%Q /\
  (ImageProcessor.method res <> Some "Forced Background Removal" ->
   within_band mask info 10 85).
Proof.
  intros Hfile Hrun.
  assert (Hmask : exists m,
    byte_mask (ImageProcessor.width info) (ImageProcessor.height info) m /\
    rgba = ImageProcessor.composeRGBA data m info /\
    (5 <= ImageProcessor.removedPercentage m)%Q /\
    (ImageProcessor.method res <> Some "Forced Background Removal" ->
     within_band m info 10 85)).
  { revert Hrun. unfold ImageProcessor.removeBackground.
    assert (Hwiden : forall mask lo hi, (10 <= lo)%Q -> (hi <= 85)%Q ->
              within_band mask info lo hi ->
              (5 <= ImageProcessor.removedPercentage mask)%Q /\
              within_band mask info 10 85).
    { intros mask lo hi Hlo Hhi (H1 & H2 & H3). split.
      - apply (Qle_trans _ 10); [done|]. by apply (Qle_trans _ lo).
      - split; [by apply (Qle_trans _ lo)|]. split; [by apply (Qle_trans _ hi)|done]. }
    destruct (ImageProcessor.advancedBackgroundDetection _ _ _) as [r1|] eqn:H1.
    { intros [= <- <-].
      apply advancedBackgroundDetection_band in H1 as (mask & Hs & Hm & Hb).
      exists mask. split; [done|]. split; [by apply (applyMaskAndSave_Some sharp)|].
      destruct (Hwiden mask 15%Q 80%Q) as [H5 Hband]; done. }
    destruct (ImageProcessor.floodFillBackgroundRemoval _ _ _) as [r2|] eqn:H2.
    { intros [= <- <-].
      apply floodFillBackgroundRemoval_band in H2 as (mask & Hs & Hm & Hb).
      exists mask. split; [done|]. split; [by apply (applyMaskAndSave_Some sharp)|].
      destruct (Hwiden mask 10%Q 85%Q) as [H5 Hband]; done. }
    destruct (ImageProcessor.statisticalBackgroundSeparation _ _ _) as [r3|] eqn:H3.
    { intros [= <- <-].
      apply statisticalBackgroundSeparation_band in H3 as (mask & Hs & Hm & Hb).
      exists mask. split; [done|]. split; [by apply (applyMaskAndSave_Some sharp)|].
      destruct (Hwiden mask 15%Q 80%Q) as [H5 Hband]; done. }
    destruct (ImageProcessor.aggressiveEdgeProcessing _ _ _) as [r4|] eqn:H4.
    { intros [= <- <-].
      apply aggressiveEdgeProcessing_band in H4 as (mask & Hs & Hm & Hb).
      exists mask. split; [done|]. split; [by apply (applyMaskAndSave_Some sharp)|].
      destruct (Hwiden mask 10%Q 85%Q) as [H5 Hband]; done. }
    destruct (ImageProcessor.forceBackgroundRemoval _ _ _) as [r5| |] eqn:H5; [|done..].
    intros [= <- <-]. revert H5. unfold ImageProcessor.forceBackgroundRemoval.
    destruct (ImageProcessor.forcedCandidate _ _ _) as [mask|] eqn:Hc; [|done].
    unfold ImageProcessor.applyMaskAndSave. cbv zeta. rewrite Hfile.
    intros [= <-]. exists mask.
    destruct (forcedCandidate_floor sharp data info mask Hc) as [Hm Hfloor].
    split; [done|]. split; [done|]. split; [done|]. done. }
  destruct Hmask as (m & Hm & Hrgba & H5 & Hband).
  intros mask.
  assert (Hmm : mask = m).
  { unfold mask. rewrite Hrgba. by apply alpha_of_compose. }
  rewrite Hmm. split; [apply Hm|]. done.
Qed.

Lemma cascade_output_bounds_witness :
  let info := {| ImageProcessor.width := 2; ImageProcessor.height := 2;
                 ImageProcessor.channels := 3 |} in
  let data := [10; 20; 30; 10; 20; 30; 10; 20; 30; 10; 20; 30] in
  exists rgba,
    (ImageProcessor.removeBackground quiet_sharp (Some (data, info))).2 = Some rgba /\
    rgba = ImageProcessor.composeRGBA data (alpha_channel rgba (2 * 2)) info /\
    (5 <= ImageProcessor.removedPercentage (alpha_channel rgba (2 * 2)))%Q.
Proof.
  intros info data.
  destruct (ImageProcessor.removeBackground quiet_sharp (Some (data, info)))
    as [res [rgba|]] eqn:Hrun; [|by vm_compute in Hrun].
  destruct (cascade_output_bounds quiet_sharp data info res rgba (fun _ => eq_refl) Hrun)
    as (_ & Hrgba & H5 & _).
  exists rgba. split; [reflexivity|]. split; [exact Hrgba|exact H5].
Defined.
(** ** Counting the regions of a mask *)

Section RegionCount.

Import ImageProcessor.

Variables (mask : list Z) (w h : Z).
Hypothesis Hw : 0 < w.
Hypothesis Hlen : Z.of_nat (length mask) = w * h.

Lemma pixel_of_in_image i :
  0 <= i < w * h -> in_image w h (pixel_of w i).1 (pixel_of w i).2.
Proof.
  intros Hi. unfold pixel_of, in_image. simpl.
  pose proof (Z.mod_pos_bound i w Hw).
  split; [done|]. split; [apply Z.div_pos; lia|].
  apply Z.div_lt_upper_bound; lia.
Qed.

Lemma idx_of_pixel_of i : idx_of w (pixel_of w i) = i.
Proof.
  unfold idx_of, pixel_of. simpl. pose proof (Z.div_mod i w). lia.
Qed.

Lemma zero_at_index p : zero_at mask w h p -> 0 <= idx_of w p < w * h.
Proof. intros [Him _]. unfold idx_of. by apply index_range. Qed.

Lemma pixel_of_idx_of p : in_image w h p.1 p.2 -> pixel_of w (idx_of w p) = p.
Proof.
  intros Him. apply (idx_of_inj w h); [|done|apply idx_of_pixel_of].
  apply pixel_of_in_image. unfold idx_of. by apply index_range.
Qed.

Lemma zero_at_pixel_of i :
  JS.get mask i = Some 0 -> zero_at mask w h (pixel_of w i).
Proof.
  intros Hz. split.
  - apply pixel_of_in_image. rewrite <- Hlen. by eapply get_Some_lt.
  - by rewrite idx_of_pixel_of.
Qed.

Lemma whileQueue_ext {A S : Type} (cont : S -> bool)
    (body body' : A -> S -> option (S * list A)) fuel q s :
  (forall a s, body a s = body' a s) ->
  JS.whileQueue cont body fuel q s = JS.whileQueue cont body' fuel q s.
Proof.
  intros Hext. revert q s. induction fuel as [|fuel IH]; intros q s.
  - by destruct q.
  - destruct q as [|a q]; simpl; [done|].
    destruct (cont s); [|done]. rewrite Hext.
    destruct (body' a s) as [[s' new]|]; apply IH.
Qed.

Lemma foldl_push_omap {A B : Type} (c d : A -> bool) (f : A -> B) (l : list A) acc :
  foldl (fun queue nb => if c nb then (if d nb then queue ++ [f nb] else queue) else queue)
        acc l
  = acc ++ omap (fun nb => if c nb && d nb then Some (f nb) else None) l.
Proof.
  revert acc. induction l as [|nb l IH]; intros acc; simpl.
  - by rewrite app_nil_r.
  - rewrite IH. destruct (c nb); simpl; [|done].
    destruct (d nb); [|done]. by rewrite <- app_assoc.
Qed.

(** The loop body of [markConnectedRegion] is [markStep]. *)
Lemma markConnectedRegion_eq V start :
  markConnectedRegion mask V start w h
  = default V (JS.whileQueue (fun _ => true) (markStep mask w h)
                 (S (4 * length mask)) [start] V).
Proof.
  unfold markConnectedRegion. cbv zeta. f_equal.
  apply whileQueue_ext. intros idx V0.
  unfold markStep, pushed. destruct (bool_decide _); [done|].
  f_equal. f_equal.
  by rewrite (foldl_push_omap
    (fun neighbor : Z * Z =>
       (0 <=? neighbor.1) && (neighbor.1 <? w) && (0 <=? neighbor.2) && (neighbor.2 <? h))
    (fun neighbor : Z * Z =>
       JS.is_zero (JS.get mask (neighbor.2 * w + neighbor.1)) &&
       negb (bool_decide (neighbor.2 * w + neighbor.1 ∈ {[ idx ]} ∪ V0)))
    (fun neighbor : Z * Z => neighbor.2 * w + neighbor.1)).
Qed.

Lemma length_pushed V x y : (length (pushed mask w h V x y) <= 4)%nat.
Proof.
  unfold pushed. unfold omap, list_omap.
  repeat match goal with
  | |- context [ if ?c then _ else _ ] => destruct c
  end; simpl; lia.
Qed.

Lemma elem_of_pushed V x y k :
  k ∈ pushed mask w h V x y <->
  exists r, adjacent4 (x, y) r /\ zero_at mask w h r /\ (idx_of w r ∉ V) /\ k = idx_of w r.
Proof.
  unfold pushed. rewrite list_elem_of_omap. split.
  - intros (r & Hr & Hk). exists r.
    destruct (_ && _) eqn:Hc in Hk; [|done]. injection Hk as <-.
    apply andb_prop in Hc as [Hc Hd]. apply andb_prop in Hd as [Hz Hv].
    repeat (apply andb_prop in Hc as [Hc ?]).
    apply negb_true_iff, bool_decide_eq_false in Hv. apply is_zero_get in Hz.
    split; [|split; [split; [unfold in_image; lia|done]|done]].
    unfold adjacent4. simpl.
    repeat (apply elem_of_cons in Hr as [->|Hr]; [tauto|]).
    by apply elem_of_nil in Hr.
  - intros (r & Hadj & [[Hx Hy] Hz] & Hv & ->). exists r. split.
    + destruct Hadj as [ -> | [ -> | [ -> | -> ] ] ]; simpl; set_solver.
    + unfold idx_of in *. apply is_zero_get in Hz. rewrite Hz.
      rewrite bool_decide_eq_false_2 by done.
      destruct (Z.leb_spec 0 r.1); [|lia]. destruct (Z.ltb_spec r.1 w); [|lia].
      destruct (Z.leb_spec 0 r.2); [|lia]. destruct (Z.ltb_spec r.2 h); [|lia]. done.
Qed.

(** The loop of [markConnectedRegion] ends when it starts from an index
    of the mask. *)
Lemma markLoop_terminates V start :
  0 <= start < w * h ->
  is_Some (JS.whileQueue (fun _ => true) (markStep mask w h)
             (S (4 * length mask)) [start] V).
Proof.
  intros Hstart.
  set (U := list_to_set (seqZ 0 (Z.of_nat (length mask))) : gset Z).
  apply (whileQueue_is_Some _ _
           (fun (queue : list Z) (_ : gset Z) => forall k, k ∈ queue -> 0 <= k < w * h)
           (fun s : gset Z => (4 * size (U ∖ s))%nat)).
  - intros k Hk. by apply list_elem_of_singleton in Hk as ->.
  - intros a q s Hq _ _ k Hk. apply Hq. by right.
  - intros i q Vs s' new Hq _ Hb. unfold markStep in Hb.
    destruct (bool_decide _) eqn:Hv in Hb; [done|]. injection Hb as <- <-.
    apply bool_decide_eq_false in Hv. split.
    + intros k Hk. apply elem_of_app in Hk as [Hk|Hk]; [apply Hq; by right|].
      apply elem_of_pushed in Hk as (r & _ & Hr & _ & ->). by apply zero_at_index.
    + pose proof (length_pushed ({[ i ]} ∪ Vs) (i mod w) (i / w)).
      assert (Hi : i ∈ U ∖ Vs).
      { apply elem_of_difference. split; [|done].
        apply elem_of_list_to_set, elem_of_seqZ.
        specialize (Hq i). rewrite Hlen. apply Hq. by left. }
      assert (Hsplit : U ∖ Vs = {[ i ]} ∪ U ∖ ({[ i ]} ∪ Vs)).
      { apply set_eq. intros j. destruct (decide (j = i)); set_solver. }
      assert (Hsz : size (U ∖ Vs) = Datatypes.S (size (U ∖ ({[ i ]} ∪ Vs)))).
      { rewrite Hsplit at 1. rewrite size_union by set_solver.
        by rewrite size_singleton. }
      lia.
  - assert (size (U ∖ V) <= length mask)%nat; [|simpl; lia].
    assert (HU : size U = length mask).
    { unfold U. rewrite size_list_to_set by apply NoDup_seqZ.
      rewrite length_seqZ. lia. }
    rewrite <- HU. apply subseteq_size. set_solver.
Qed.

(** Started on an unvisited zero pixel with a closed visited set, the
    loop adds exactly the zero region of the pixel. *)
Lemma markLoop_region p V V' :
  closed mask w h V -> zero_at mask w h p -> idx_of w p ∉ V ->
  JS.whileQueue (fun _ => true) (markStep mask w h)
    (S (4 * length mask)) [idx_of w p] V = Some V' ->
  exists R, region_of mask w h p R /\ V' = R ∪ V /\ R ## V.
Proof.
  intros HV Hp HpV Hrun.
  apply (whileQueue_inv _ _
    (fun (queue : list Z) (Vs : gset Z) =>
       V ⊆ Vs /\
       (forall i, i ∈ Vs -> i ∉ V -> exists q, connected mask w h p q /\ i = idx_of w q) /\
       (forall k, k ∈ queue -> exists q, connected mask w h p q /\ k = idx_of w q) /\
       (idx_of w p ∈ Vs \/ idx_of w p ∈ queue) /\
       (forall q r, connected mask w h p q -> idx_of w q ∈ Vs -> adjacent4 q r ->
          zero_at mask w h r -> idx_of w r ∈ Vs \/ idx_of w r ∈ queue)))
    in Hrun.
  - destruct Hrun as (q_end & (Hsub & Hconn & _ & Hseed & Hfront) & [->|?]); [|done].
    assert (Hall : forall q, connected mask w h p q -> idx_of w q ∈ V' /\ idx_of w q ∉ V).
    { intros q Hq. induction Hq as [|q r Hq [IH1 IH2] Hadj Hr].
      - split; [|done]. destruct Hseed as [?|Hin]; [done|by apply elem_of_nil in Hin].
      - split.
        + destruct (Hfront q r Hq IH1 Hadj Hr) as [?|Hin]; [done|by apply elem_of_nil in Hin].
        + intros HrV. apply IH2. apply (HV r q); [done|done|by apply adjacent4_sym|].
          by apply connected_zero in Hq as [_ ?]. }
    exists (V' ∖ V). repeat split.
    + intros Hi. apply elem_of_difference in Hi as [Hi1 Hi2]. by apply Hconn.
    + intros (q & Hq & ->). apply elem_of_difference. by apply Hall.
    + apply set_eq. intros i. destruct (decide (i ∈ V)); set_solver.
    + set_solver.
  - repeat split; try done.
    + intros k Hk. apply list_elem_of_singleton in Hk as ->. exists p.
      split; [by apply connected_refl|done].
    + right. by left.
    + intros q r Hq HqV Hadj Hr. left. apply (HV q r); try done.
      by apply connected_zero in Hq as [_ ?].
  - intros k q Vs (Hsub & Hconn & Hq & Hseed & Hfront) _ Hb.
    unfold markStep in Hb. destruct (bool_decide _) eqn:Hv in Hb; [|done].
    apply bool_decide_eq_true in Hv.
    repeat split; try done.
    + intros e He. apply Hq. by right.
    + destruct Hseed as [?|Hin]; [by left|].
      apply elem_of_cons in Hin as [->|?]; [by left|by right].
    + intros q1 r Hq1 Hq1V Hadj Hr.
      destruct (Hfront q1 r Hq1 Hq1V Hadj Hr) as [?|Hin]; [by left|].
      apply elem_of_cons in Hin as [->|?]; [by left|by right].
  - intros k q Vs s' new (Hsub & Hconn & Hq & Hseed & Hfront) _ Hb.
    unfold markStep in Hb. destruct (bool_decide _) eqn:Hv in Hb; [done|].
    apply bool_decide_eq_false in Hv. injection Hb as <- <-.
    destruct (Hq k) as (qa & Hca & Hk); [by left|].
    assert (Hza : zero_at mask w h qa) by (by apply connected_zero in Hca as [_ ?]).
    assert (Hpix : (k mod w, k / w) = qa).
    { rewrite Hk. apply (pixel_of_idx_of qa). by destruct Hza. }
    repeat split.
    + set_solver.
    + intros i Hi HiV. apply elem_of_union in Hi as [Hi|Hi]; [|by apply Hconn].
      apply elem_of_singleton in Hi as ->. by exists qa.
    + intros e He. apply elem_of_app in He as [He|He]; [apply Hq; by right|].
      destruct qa as [xa ya]. injection Hpix as Hx Hy. rewrite Hx, Hy in He.
      apply elem_of_pushed in He as (r & Hadj & Hr & _ & ->).
      exists r. split; [|done]. by eapply connected_step.
    + destruct Hseed as [?|Hin]; [left; set_solver|].
      apply elem_of_cons in Hin as [->|?]; [left; set_solver|right; set_solver].
    + intros q1 r Hq1 Hq1V Hadj Hr.
      destruct (decide (idx_of w r ∈ {[ k ]} ∪ Vs)) as [?|HrV]; [by left|].
      apply elem_of_union in Hq1V as [Hq1V|Hq1V].
      * apply elem_of_singleton in Hq1V. rewrite Hk in Hq1V.
        apply (idx_of_inj w h) in Hq1V;
          [|by apply connected_zero in Hq1 as [_ [? _]]|by destruct Hza].
        subst q1. right. apply elem_of_app. right.
        destruct qa as [xa ya]. injection Hpix as Hx Hy. rewrite Hx, Hy.
        apply elem_of_pushed. by exists r.
      * destruct (Hfront q1 r Hq1 Hq1V Hadj Hr) as [?|Hin]; [left; set_solver|].
        apply elem_of_cons in Hin as [Hin|?]; [|right; set_solver].
        left. set_solver.
Qed.

Lemma markConnectedRegion_region p V :
  closed mask w h V -> zero_at mask w h p -> idx_of w p ∉ V ->
  exists R, region_of mask w h p R /\
            markConnectedRegion mask V (idx_of w p) w h = R ∪ V /\ R ## V.
Proof.
  intros HV Hp HpV. rewrite markConnectedRegion_eq.
  destruct (markLoop_terminates V (idx_of w p)) as [V' Hrun]; [by apply zero_at_index|].
  rewrite Hrun. simpl.
  destruct (markLoop_region p V V' HV Hp HpV Hrun) as (R & HR & -> & Hd).
  by exists R.
Qed.

Lemma scan_closed next s reps : scan_inv mask w h next s reps -> closed mask w h s.1.
Proof.
  intros (_ & _ & HV & _ & _) q r Hq HqV Hadj Hr.
  apply HV in HqV as (p & q' & Hp & Hc & He).
  apply (idx_of_inj w h) in He; [|by destruct Hq|by apply connected_zero in Hc as [_ [? _]]].
  subst q'. apply HV. exists p, r. split; [done|]. split; [|done].
  by eapply connected_step.
Qed.

Lemma scan_prefix (n : nat) :
  (n <= length mask)%nat ->
  exists reps,
    scan_inv mask w h (Z.of_nat n)
      (foldl (fun (s : gset Z * Z) i =>
                if JS.is_zero (JS.get mask i) && negb (bool_decide (i ∈ s.1))
                then (markConnectedRegion mask s.1 i w h, s.2 + 1) else s)
             (∅, 0) (JS.range 0 (Z.of_nat n)))
      reps.
Proof.
  induction n as [|n IH]; intros Hn.
  - exists []. split; [done|].
    split; [intros p Hp; by apply elem_of_nil in Hp|]. split; [|split].
    + intros k. split; [intros Hk; by apply elem_of_empty in Hk|].
      intros (p & q & Hp & _). by apply elem_of_nil in Hp.
    + intros j Hj. lia.
    + intros a b p q Ha. by rewrite lookup_nil in Ha.
  - destruct IH as [reps Hinv]; [lia|].
    unfold JS.range in *. rewrite Z.sub_0_r in *.
    replace (Z.of_nat (S n)) with (Z.of_nat n + 1) by lia.
    rewrite seqZ_app by lia. rewrite foldl_app.
    change (seqZ (0 + Z.of_nat n) 1) with [0 + Z.of_nat n]. rewrite Z.add_0_l.
    cbn [foldl].
    pose proof (scan_closed _ _ _ Hinv) as Hclosed.
    destruct Hinv as (Hcount & Hreps & HV & Hbelow & Hsep).
    destruct (foldl _ _ _) as [V c]. cbn [fst snd] in *.
    destruct (JS.is_zero (JS.get mask (Z.of_nat n))) eqn:Hz; cbn [andb].
    2:{ exists reps. split; [done|]. split; [done|]. split; [done|]. split; [|done].
        cbn [fst]. intros j Hj Hzj. destruct (decide (j = Z.of_nat n)) as [->|Hne].
        - apply is_zero_get in Hzj. congruence.
        - apply Hbelow; [lia|done]. }
    apply is_zero_get in Hz.
    destruct (bool_decide (Z.of_nat n ∈ V)) eqn:Hv; cbn [negb].
    { apply bool_decide_eq_true in Hv.
      exists reps. split; [done|]. split; [done|]. split; [done|]. split; [|done].
      cbn [fst]. intros j Hj Hzj. destruct (decide (j = Z.of_nat n)) as [->|Hne]; [done|].
      apply Hbelow; [lia|done]. }
    apply bool_decide_eq_false in Hv.
    set (p := pixel_of w (Z.of_nat n)).
    assert (Hp : zero_at mask w h p) by (by apply zero_at_pixel_of).
    assert (Hidx : idx_of w p = Z.of_nat n) by apply idx_of_pixel_of.
    destruct (markConnectedRegion_region p V Hclosed Hp) as (R & HR & Hmark & Hdisj).
    { by rewrite Hidx. }
    rewrite Hidx in Hmark. rewrite Hmark.
    exists (reps ++ [p]).
    split; [|split; [|split; [intros k; split|split]]]; cbn [fst snd].
    + rewrite length_app. simpl. lia.
    + intros p' Hp'. apply elem_of_app in Hp' as [Hp'|Hp']; [by apply Hreps|].
      by apply list_elem_of_singleton in Hp' as ->.
    + intros Hk. apply elem_of_union in Hk as [Hk|Hk].
      * apply HR in Hk as (q & Hq & ->). exists p, q.
        split; [apply elem_of_app; right; by left|done].
      * apply HV in Hk as (p' & q & Hp' & Hq & ->). exists p', q.
        split; [apply elem_of_app; by left|done].
    + intros (p' & q & Hp' & Hq & ->). apply elem_of_app in Hp' as [Hp'|Hp'].
      * apply elem_of_union_r. apply HV. by exists p', q.
      * apply list_elem_of_singleton in Hp' as ->.
        apply elem_of_union_l. apply HR. by exists q.
    + intros j Hj Hzj. destruct (decide (j = Z.of_nat n)) as [->|Hne].
      * apply elem_of_union_l. apply HR. exists p. split; [by apply connected_refl|done].
      * apply elem_of_union_r. apply Hbelow; [lia|done].
    + assert (Hfresh : forall p' q, p' ∈ reps -> connected mask w h p' q -> q <> p).
      { intros p' q Hp' Hq ->. apply Hv. rewrite <- Hidx. apply HV. by exists p', p. }
      intros a b pa pb Ha Hb Hc.
      apply lookup_app_Some in Ha as [Ha|[Hla Ha]];
        apply lookup_app_Some in Hb as [Hb|[Hlb Hb]].
      * by eapply Hsep.
      * apply list_lookup_singleton_Some in Hb as [_ <-].
        exfalso. apply (Hfresh pa p); [by eapply list_elem_of_lookup_2|done|done].
      * apply list_lookup_singleton_Some in Ha as [_ <-].
        exfalso. apply (Hfresh pb p); [by eapply list_elem_of_lookup_2| |done].
        by apply connected_sym.
      * apply list_lookup_singleton_Some in Ha as [Ha _].
        apply list_lookup_singleton_Some in Hb as [Hb _]. lia.
Qed.

End RegionCount.

(** X14. Called with the width and height of the image ([0 < width],
    one mask byte per pixel), [countConnectedRegions] returns the number
    of 4-connected regions of zero pixels: there are that many zero
    pixels, no two of them connected through zeros, such that every
    zero pixel is connected to one of them. *)
Theorem region_count_is_exact (mask : list Z) (w h : Z) :
  0 < w -> Z.of_nat (length mask) = w * h ->
  exists reps : list (Z * Z),
    ImageProcessor.countConnectedRegions mask w h = Z.of_nat (length reps) /\
    (forall p, p ∈ reps -> zero_at mask w h p) /\
    (forall q, zero_at mask w h q -> exists p, p ∈ reps /\ connected mask w h p q) /\
    (forall a b p q, reps !! a = Some p -> reps !! b = Some q ->
       connected mask w h p q -> a = b).
Proof.
  intros Hw Hlen.
  destruct (scan_prefix mask w h Hw Hlen (length mask)) as [reps Hinv]; [done|].
  exists reps. unfold ImageProcessor.countConnectedRegions.
  destruct Hinv as (Hcount & Hreps & HV & Hbelow & Hsep).
  split; [done|]. split; [done|]. split; [|done].
  intros q Hq.
  assert (Hr : 0 <= idx_of w q < Z.of_nat (length mask)).
  { rewrite Hlen. exact (zero_at_index mask w h q Hq). }
  pose proof (Hbelow _ Hr (proj2 Hq)) as Hin.
  apply HV in Hin as (p & q' & Hp & Hc & He).
  apply (idx_of_inj w h) in He; [|by destruct Hq|by apply connected_zero in Hc as [_ [? _]]].
  subst q'. by exists p.
Qed.

Lemma region_count_is_exact_witness :
  exists reps : list (Z * Z),
    ImageProcessor.countConnectedRegions [0; 255; 0; 255] 4 1 = Z.of_nat (length reps) /\
    (forall p, p ∈ reps -> zero_at [0; 255; 0; 255] 4 1 p) /\
    (forall q, zero_at [0; 255; 0; 255] 4 1 q ->
       exists p, p ∈ reps /\ connected [0; 255; 0; 255] 4 1 p q) /\
    (forall a b p q, reps !! a = Some p -> reps !! b = Some q ->
       connected [0; 255; 0; 255] 4 1 p q -> a = b).
Proof. apply (region_count_is_exact [0; 255; 0; 255] 4 1); [lia|reflexivity]. Defined.
(** ** Histograms of quantised colours *)

Section Tally.

Import ImageProcessor.

Lemma Color_eqb_true c d : Color_eqb c d = true <-> c = d.
Proof.
  unfold Color_eqb. rewrite !andb_true_iff, !bool_decide_eq_true.
  destruct c, d; simpl. split.
  - by intros [[-> ->] ->].
  - by intros [= -> -> ->].
Qed.

Lemma Color_eqb_false c d : Color_eqb c d = false <-> c <> d.
Proof.
  rewrite <- Color_eqb_true. destruct (Color_eqb c d); split; congruence.
Qed.

Lemma fst_increment_in k counts :
  k ∈ counts.*1 -> (increment k counts).*1 = counts.*1.
Proof.
  induction counts as [|[k0 n0] counts IH]; intros Hin; [by apply elem_of_nil in Hin|].
  simpl. destruct (Color_eqb k0 k) eqn:He; [done|].
  apply Color_eqb_false in He. simpl. f_equal. apply IH.
  simpl in Hin. apply elem_of_cons in Hin as [->|?]; done.
Qed.

Lemma fst_increment_notin k counts :
  k ∉ counts.*1 -> (increment k counts).*1 = counts.*1 ++ [k].
Proof.
  induction counts as [|[k0 n0] counts IH]; intros Hn; [done|].
  simpl. destruct (Color_eqb k0 k) eqn:He.
  - apply Color_eqb_true in He as ->. destruct Hn. by left.
  - simpl. f_equal. apply IH. intros Hin. apply Hn. by right.
Qed.

Lemma NoDup_increment k counts : NoDup counts.*1 -> NoDup (increment k counts).*1.
Proof.
  intros Hnd. destruct (decide (k ∈ counts.*1)) as [Hin|Hn].
  - by rewrite fst_increment_in.
  - rewrite fst_increment_notin by done.
    apply NoDup_app. split; [done|]. split; [|apply NoDup_singleton].
    intros x Hx Hx'. apply list_elem_of_singleton in Hx' as ->. done.
Qed.

Lemma elem_of_increment k counts k' n' :
  NoDup counts.*1 ->
  (k', n') ∈ increment k counts <->
  (k' <> k /\ (k', n') ∈ counts) \/
  (k' = k /\ ((k, n' - 1) ∈ counts \/ (n' = 1 /\ k ∉ counts.*1))).
Proof.
  induction counts as [|[k0 n0] counts IH]; intros Hnd; simpl.
  - rewrite list_elem_of_singleton. split.
    + intros [= -> ->]. right. split; [done|]. right. split; [done|]. apply not_elem_of_nil.
    + intros [[_ H]|[-> [H|[-> _]]]]; [by apply elem_of_nil in H..|done].
  - apply NoDup_cons in Hnd as [Hk0 Hnd]. specialize (IH Hnd).
    destruct (Color_eqb k0 k) eqn:He.
    + apply Color_eqb_true in He as ->. rewrite !elem_of_cons. split.
      * intros [[= -> ->]|Hin].
        -- right. split; [done|]. left. left. f_equal. lia.
        -- left. split; [|by right]. intros ->. apply Hk0.
           apply list_elem_of_fmap. by exists (k, n').
      * intros [[Hne [[= -> ->]|Hin]]|[-> [[[= <-]|Hin]|[_ Hn]]]].
        -- done.
        -- by right.
        -- left. f_equal. lia.
        -- destruct Hk0. apply list_elem_of_fmap. by exists (k, n' - 1).
        -- destruct Hn. by left.
    + apply Color_eqb_false in He. rewrite !elem_of_cons, IH. split.
      * intros [[= -> ->]|[[Hne Hin]|[-> [Hin|[-> Hn]]]]].
        -- left. split; [done|by left].
        -- left. split; [done|by right].
        -- right. split; [done|]. left. by right.
        -- right. split; [done|]. right. split; [done|].
           intros [?|?]; [congruence|done].
      * intros [[Hne [[= -> ->]|Hin]]|[-> [[[= -> _]|Hin]|[-> Hn]]]].
        -- by left.
        -- right. left. done.
        -- done.
        -- right. right. split; [done|]. by left.
        -- right. right. split; [done|]. right. split; [done|].
           intros Hin. apply Hn. by right.
Qed.

Lemma occ_nonneg k keys : 0 <= occ k keys.
Proof. unfold occ. lia. Qed.

Lemma occ_app k keys k' :
  occ k (keys ++ [k']) = occ k keys + (if decide (k' = k) then 1 else 0).
Proof.
  unfold occ. rewrite filter_app, length_app, filter_cons, filter_nil.
  destruct (decide (k' = k)); simpl; lia.
Qed.

Lemma occ_pos k keys : 0 < occ k keys <-> k ∈ keys.
Proof.
  unfold occ. split.
  - intros Hpos. destruct (filter _ keys) as [|c l] eqn:Hf; [simpl in Hpos; lia|].
    assert (Hc : c ∈ filter (fun c => c = k) keys) by (rewrite Hf; by left).
    apply list_elem_of_filter in Hc as [-> ?]. done.
  - intros Hin.
    assert (Hk : k ∈ filter (fun c : Color => c = k) keys) by (by apply list_elem_of_filter).
    destruct (filter _ keys); [by apply elem_of_nil in Hk|simpl; lia].
Qed.

Lemma tally_of_in keys counts k :
  tally_of keys counts -> k ∈ counts.*1 <-> k ∈ keys.
Proof.
  intros [_ Ht]. rewrite <- (occ_pos k keys). rewrite list_elem_of_fmap. split.
  - intros ([k' n] & -> & Hin). simpl. by apply Ht in Hin as [<- ?].
  - intros Hpos. exists (k, occ k keys). split; [done|]. by apply Ht.
Qed.

Lemma increment_tally keys counts k :
  tally_of keys counts -> tally_of (keys ++ [k]) (increment k counts).
Proof.
  intros Ht. pose proof Ht as [Hnd Hcounts].
  split; [by apply NoDup_increment|].
  intros k' n'. rewrite elem_of_increment by done. rewrite occ_app.
  rewrite (tally_of_in keys counts k Ht), <- (occ_pos k keys). rewrite !Hcounts.
  pose proof (occ_nonneg k keys). pose proof (occ_nonneg k' keys).
  destruct (decide (k = k')) as [->|Hne].
  - split; [intros [[? _]|[_ [[? ?]|[-> ?]]]]; try done; lia|].
    intros [Hn Hpos]. right. split; [done|].
    destruct (decide (occ k' keys = 0)); [right; lia|left; lia].
  - split.
    + intros [[_ [? ?]]|[-> _]]; [lia|done].
    + intros [Hn Hpos]. left. split; [congruence|lia].
Qed.

Lemma tally_spec keys : tally_of keys (tally keys).
Proof.
  unfold tally.
  assert (Hgen : forall keys0 acc, tally_of keys0 acc ->
            tally_of (keys0 ++ keys)
              (foldl (fun counts key => increment key counts) acc keys)).
  { induction keys as [|k keys IH]; intros keys0 acc Hacc; simpl.
    - by rewrite app_nil_r.
    - rewrite cons_middle, app_assoc. apply IH. by apply increment_tally. }
  apply (Hgen [] []). split; [apply NoDup_nil_2|].
  intros k n. split; [intros Hin; by apply elem_of_nil in Hin|].
  unfold occ. simpl. lia.
Qed.

End Tally.

Section SortDesc.

Context {A : Type} (key : A -> Q).

Lemma ltb_true a c : JS.ltb a c = true <-> (a < c)%Q.
Proof.
  unfold JS.ltb. rewrite negb_true_iff. split.
  - intros Hf. apply Qnot_le_lt. intros Hle. apply Qle_bool_iff in Hle. congruence.
  - intros Hlt. destruct (Qle_bool c a) eqn:E; [|done].
    apply Qle_bool_iff in E. by apply Qlt_not_le in Hlt.
Qed.

Lemma insert_desc_perm a l : JS.insert_desc key a l ≡ₚ a :: l.
Proof.
  induction l as [|y l IH]; simpl; [done|].
  destruct (JS.ltb _ _); [|done]. rewrite IH. apply Permutation_swap.
Qed.

Lemma sort_desc_perm l : JS.sort_desc key l ≡ₚ l.
Proof.
  unfold JS.sort_desc. induction l as [|a l IH]; simpl; [done|].
  by rewrite insert_desc_perm, IH.
Qed.

Lemma insert_desc_descending a l :
  descending key l -> descending key (JS.insert_desc key a l).
Proof.
  unfold descending. induction 1 as [|y l Hl IH Hy]; simpl.
  - apply SSorted_cons; [apply SSorted_nil|done].
  - destruct (JS.ltb (key a) (key y)) eqn:Hlt.
    + apply ltb_true in Hlt. apply SSorted_cons; [done|].
      rewrite insert_desc_perm. apply Forall_cons_2; [by apply Qlt_le_weak|done].
    + apply ltb_false in Hlt. apply SSorted_cons; [by apply SSorted_cons|].
      apply Forall_cons_2; [done|].
      eapply Forall_impl; [exact Hy|]. intros z Hz. simpl in *.
      by apply (Qle_trans _ (key y)).
Qed.

Lemma sort_desc_descending l : descending key (JS.sort_desc key l).
Proof.
  unfold JS.sort_desc. induction l as [|a l IH]; simpl; [apply SSorted_nil|].
  by apply insert_desc_descending.
Qed.

Lemma descending_head a l b : descending key (a :: l) -> b ∈ a :: l -> (key b <= key a)%Q.
Proof.
  intros Hs Hb. apply StronglySorted_inv in Hs as [_ Hall].
  apply elem_of_cons in Hb as [->|Hb]; [apply Qle_refl|].
  rewrite Forall_forall in Hall. by apply Hall.
Qed.

Lemma descending_take n l : descending key l -> descending key (take n l).
Proof.
  unfold descending. intros Hs. revert n. induction Hs as [|a l Hl IH Ha]; intros n.
  - rewrite take_nil. apply SSorted_nil.
  - destruct n; simpl; [apply SSorted_nil|].
    apply SSorted_cons; [apply IH|].
    rewrite Forall_forall in *. intros x Hx. apply Ha.
    by apply (subseteq_take n l).
Qed.

(** In a descending list, what [slice(0, n)] leaves out is no larger
    than what it keeps. *)
Lemma descending_take_drop n l a b :
  descending key l -> a ∈ take n l -> b ∈ drop n l -> (key b <= key a)%Q.
Proof.
  unfold descending. intros Hs. revert n. induction Hs as [|c l Hl IH Hc]; intros n Ha Hb.
  - rewrite take_nil in Ha. by apply elem_of_nil in Ha.
  - destruct n; simpl in *; [by apply elem_of_nil in Ha|].
    apply elem_of_cons in Ha as [->|Ha]; [|by eapply IH].
    rewrite Forall_forall in Hc. apply Hc. by apply (subseteq_drop n l).
Qed.

End SortDesc.

Section Frequencies.

Import ImageProcessor.

Lemma tally_quantized step (pixels : list Color) :
  foldl (fun counts pixel => increment (quantizeColor step pixel) counts) [] pixels
  = tally (quantizeColor step <$> pixels).
Proof. unfold tally. by rewrite foldl_fmap. Qed.

(** Every key is counted, and a key that does not occur counts for
    less than any entry. *)
Lemma tally_of_bound keys counts c n d :
  tally_of keys counts -> (c, n) ∈ counts ->
  (d, occ d keys) ∈ counts \/ occ d keys <= n.
Proof.
  intros Ht Hc. pose proof Ht as [_ Hcounts].
  destruct (decide (0 < occ d keys)) as [Hpos|Hz].
  - left. by apply Hcounts.
  - right. apply Hcounts in Hc as [_ ?]. lia.
Qed.

End Frequencies.

(** X15. [getMostFrequentColor] returns [null] exactly for an empty
    list of pixels; otherwise it returns the colour of one of the
    pixels, quantised to multiples of 20, and no quantised colour occurs
    among the pixels more often than the one returned. *)
Theorem most_frequent_colour_is_a_mode (pixels : list ImageProcessor.Color) :
  let keys := ImageProcessor.quantizeColor 20 <$> pixels in
  (ImageProcessor.getMostFrequentColor pixels = None <-> pixels = []) /\
  (forall c, ImageProcessor.getMostFrequentColor pixels = Some c ->
     c ∈ keys /\ forall d, occ d keys <= occ c keys).
Proof.
  intros keys. unfold ImageProcessor.getMostFrequentColor.
  destruct (decide (pixels = [])) as [->|Hne].
  { split; [done|]. by rewrite bool_decide_eq_true_2. }
  rewrite bool_decide_eq_false_2 by done. cbv zeta.
  rewrite tally_quantized. fold keys.
  pose proof (tally_spec keys) as Ht.
  pose proof (sort_desc_perm (fun c : ImageProcessor.Color * Z => inject_Z c.2) (tally keys))
    as Hperm.
  pose proof (sort_desc_descending (fun c : ImageProcessor.Color * Z => inject_Z c.2)
                (tally keys)) as Hsorted.
  destruct (JS.sort_desc _ (tally keys)) as [|[c n] rest] eqn:Hs.
  - exfalso. apply Permutation_nil_l in Hperm.
    destruct pixels as [|p pixels]; [done|].
    assert (Hin : ImageProcessor.quantizeColor 20 p ∈ (tally keys).*1).
    { apply (tally_of_in keys); [done|]. subst keys. rewrite fmap_cons. by left. }
    rewrite <- Hperm in Hin. by apply elem_of_nil in Hin.
  - split; [done|]. intros c' [= <-].
    assert (Hc : (c, n) ∈ tally keys) by (rewrite <- Hperm; by left).
    pose proof Ht as [_ Hcounts]. pose proof (proj1 (Hcounts c n) Hc) as [Hn Hpos].
    split. { apply (tally_of_in keys (tally keys)); [done|].
             apply list_elem_of_fmap. by exists (c, n). }
    intros d. rewrite Hn.
    destruct (tally_of_bound keys (tally keys) c n d Ht Hc) as [Hd|Hle]; [|done].
    rewrite <- Hperm in Hd.
    apply (descending_head _ _ _ _ Hsorted) in Hd. simpl in Hd.
    by rewrite Zle_Qle.
Qed.

(** X16. [analyzeColorClusters] returns at most 5 clusters with
    distinct colours, in descending order of count; the count of a
    cluster is the number of pixels whose colour, quantised to multiples
    of 15, is the colour of the cluster, and no quantised colour that is
    left out occurs more often than a cluster that is returned. *)
Theorem clusters_are_the_top_five (pixels : list ImageProcessor.Color) :
  let keys := ImageProcessor.quantizeColor 15 <$> pixels in
  let clusters := ImageProcessor.analyzeColorClusters pixels in
  (length clusters <= 5)%nat /\
  NoDup clusters.*1 /\
  descending (fun c : ImageProcessor.Color * Z => inject_Z c.2) clusters /\
  (forall c n, (c, n) ∈ clusters -> occ c keys = n /\ 0 < n) /\
  (forall c n d, (c, n) ∈ clusters -> d ∉ clusters.*1 -> occ d keys <= n).
Proof.
  intros keys clusters. subst clusters. unfold ImageProcessor.analyzeColorClusters.
  cbv zeta. rewrite tally_quantized. fold keys.
  pose proof (tally_spec keys) as Ht. pose proof Ht as [Hnd Hcounts].
  set (sorted := JS.sort_desc (fun c : ImageProcessor.Color * Z => inject_Z c.2) (tally keys)).
  pose proof (sort_desc_perm (fun c : ImageProcessor.Color * Z => inject_Z c.2) (tally keys))
    as Hperm.
  pose proof (sort_desc_descending (fun c : ImageProcessor.Color * Z => inject_Z c.2)
                (tally keys)) as Hsorted.
  fold sorted in Hperm, Hsorted.
  split; [rewrite length_take; lia|].
  split.
  { apply (sublist_NoDup _ sorted.*1).
    - by rewrite Hperm.
    - rewrite fmap_take. apply sublist_take. }
  split; [by apply descending_take|].
  split.
  { intros c n Hc. apply Hcounts. rewrite <- Hperm. by apply (subseteq_take 5 sorted). }
  intros c n d Hc Hd.
  assert (Hc' : (c, n) ∈ tally keys).
  { rewrite <- Hperm. by apply (subseteq_take 5 sorted). }
  destruct (tally_of_bound keys (tally keys) c n d Ht Hc') as [Hin|Hle]; [|done].
  rewrite <- Hperm, <- (take_drop 5 sorted) in Hin.
  apply elem_of_app in Hin as [Hin|Hin].
  - destruct Hd. apply list_elem_of_fmap. by exists (d, occ d keys).
  - pose proof (descending_take_drop _ 5 sorted _ _ Hsorted Hc Hin) as Hle.
    simpl in Hle. by rewrite Zle_Qle.
Qed.

Section Dominant.

Import ImageProcessor.






End Dominant.


(** ** The tolerance of the colour-distance masks *)

Section Tolerance.

Import ImageProcessor.

Lemma Qsquare_le (a c : Q) : (0 <= a)%Q -> (a <= c)%Q -> (a * a <= c * c)%Q.
Proof.
  intros Ha Hac. apply Qmult_le_compat_nonneg; split; done.
Qed.

(** [Math.sqrt(v) <= t] is monotone in [t], [Math.sqrt(v) >= c]
    antitone in [c]. *)
Lemma sqrt_le_mono v t t' :
  (t <= t')%Q -> JS.sqrt_le v t = true -> JS.sqrt_le v t' = true.
Proof.
  unfold JS.sqrt_le, JS.leb. rewrite !andb_true_iff, !Qle_bool_iff.
  intros Htt [Ht Hv]. split; [by apply (Qle_trans _ t)|].
  apply (Qle_trans _ (t * t)); [done|by apply Qsquare_le].
Qed.

Lemma sqrt_le_nan_mono v t t' :
  (t <= t')%Q -> JS.sqrt_le_nan v t = true -> JS.sqrt_le_nan v t' = true.
Proof. destruct v; [apply sqrt_le_mono|done]. Qed.

Lemma sqrt_le_nonneg v t : JS.sqrt_le v t = true -> (0 <= t)%Q.
Proof.
  unfold JS.sqrt_le, JS.leb. rewrite andb_true_iff, !Qle_bool_iff. tauto.
Qed.

Lemma sqrt_ge_anti v c c' :
  (c <= c')%Q -> JS.sqrt_ge v c' = true -> JS.sqrt_ge v c = true.
Proof.
  unfold JS.sqrt_ge, JS.leb. rewrite !orb_true_iff, !Qle_bool_iff.
  intros Hcc [Hc|Hc]; [left; by apply (Qle_trans _ c')|].
  destruct (Qlt_le_dec 0 c) as [Hpos|Hneg]; [right|by left].
  apply (Qle_trans _ (c' * c')); [|done].
  apply Qsquare_le; [by apply Qlt_le_weak|done].
Qed.

Lemma filter_length_le {A : Type} (f g : A -> bool) (l : list A) :
  (forall a, a ∈ l -> f a = true -> g a = true) ->
  (length (List.filter f l) <= length (List.filter g l))%nat.
Proof.
  intros Hfg. induction l as [|a l IH]; simpl; [done|].
  assert (IH' := IH (fun b Hb => Hfg b (list_elem_of_further _ _ _ Hb))).
  destruct (f a) eqn:Hf.
  - rewrite (Hfg a (list_elem_of_here _ _) Hf). simpl. lia.
  - destruct (g a); simpl; lia.
Qed.

Lemma ramp_threshold_mono (T T' p q k : Q) :
  (T <= T')%Q -> (0 <= p)%Q -> (0 <= q)%Q -> (0 <= k)%Q ->
  (T * p + k * (T * q) / 255 <= T' * p + k * (T' * q) / 255)%Q.
Proof.
  intros HT Hp Hq Hk. apply Rle_Qle.
  apply Qle_Rle in HT, Hp, Hq, Hk. rewrite RMicromega.Q2R_0 in Hp, Hq, Hk.
  unfold Qdiv. rewrite !Q2R_plus, !Q2R_mult.
  replace (Q2R (/ 255)) with (/ 255)%R by (unfold Q2R; simpl; lra).
  assert (H1 : (Q2R T * Q2R p <= Q2R T' * Q2R p)%R) by nra.
  assert (H0 : (Q2R T * Q2R q <= Q2R T' * Q2R q)%R) by nra.
  assert (H2 : (Q2R k * (Q2R T * Q2R q) <= Q2R k * (Q2R T' * Q2R q))%R).
  { by apply Rmult_le_compat_l. }
  lra.
Qed.

(** The ramp value of a pixel does not grow with the tolerance. *)
Lemma round_ramp_anti v (T T' p q : Q) :
  (T <= T')%Q -> (0 <= p)%Q -> (0 <= q)%Q ->
  JS.round_ramp v (T' * p) (T' * q) <= JS.round_ramp v (T * p) (T * q).
Proof.
  intros HTT Hp Hq. unfold JS.round_ramp. apply inj_le, filter_length_le.
  intros j Hj. apply elem_of_range in Hj. apply sqrt_ge_anti.
  apply ramp_threshold_mono; [done..|].
  unfold Qle, Qminus, Qplus, inject_Z. simpl. lia.
Qed.

Lemma round_ramp_byte v a c : 0 <= JS.round_ramp v a c <= 255.
Proof.
  unfold JS.round_ramp. split; [lia|].
  pose proof (List.filter_length_le
    (fun j : Z => JS.sqrt_ge v (a + (inject_Z j - (1 # 2)) * c / 255)) (JS.range 1 256)) as Hl.
  change (length (JS.range 1 256)) with 255%nat in Hl. lia.
Qed.

Lemma scale_mono (T T' p : Q) : (T <= T')%Q -> (0 <= p)%Q -> (T * p <= T' * p)%Q.
Proof. intros HT Hp. by apply Qmult_le_compat_r. Qed.

Lemma plain_store_anti data w h ch target T T' i :
  (T <= T')%Q ->
  exists v v',
    match plain_store data w h ch target T' i with
    | Some u => Some (u mod 256) | None => Some 255 end = Some v /\
    match plain_store data w h ch target T i with
    | Some u => Some (u mod 256) | None => Some 255 end = Some v' /\
    v <= v'.
Proof.
  intros HT. unfold plain_store.
  destruct (JS.truthy _); [by exists 255, 255|]. cbv zeta.
  set (d2 := weighted _ _).
  pose proof (round_ramp_byte (default 0%Q d2) (T * (6 # 10)) (T * (4 # 10))) as Hr.
  pose proof (round_ramp_byte (default 0%Q d2) (T' * (6 # 10)) (T' * (4 # 10))) as Hr'.
  pose proof (round_ramp_anti (default 0%Q d2) T T' (6 # 10) (4 # 10) HT) as Hanti.
  destruct (JS.sqrt_le_nan d2 (T * (6 # 10))) eqn:HA.
  - rewrite (sqrt_le_nan_mono d2 _ (T' * (6 # 10)) (scale_mono T T' (6 # 10) HT ltac:(done)) HA).
    by exists 0, 0.
  - destruct (JS.sqrt_le_nan d2 T) eqn:HB.
    + rewrite (sqrt_le_nan_mono d2 T T' HT HB).
      destruct (JS.sqrt_le_nan d2 (T' * (6 # 10))); eexists _, _;
        (split; [reflexivity|split; [reflexivity|]]);
        rewrite ?Z.mod_small by lia; [lia|]. apply Hanti; done.
    + destruct (JS.sqrt_le_nan d2 (T' * (6 # 10))); [by exists 0, 255|].
      destruct (JS.sqrt_le_nan d2 T'); eexists _, _;
        (split; [reflexivity|split; [reflexivity|]]);
        rewrite ?Z.mod_small by lia; lia.
Qed.

Lemma enhanced_store_anti data w h ch target T T' i :
  (T <= T')%Q ->
  exists v v',
    match enhanced_store data w h ch target T' i with
    | Some u => Some (u mod 256) | None => Some 255 end = Some v /\
    match enhanced_store data w h ch target T i with
    | Some u => Some (u mod 256) | None => Some 255 end = Some v' /\
    v <= v'.
Proof.
  intros HT. unfold enhanced_store.
  destruct (JS.truthy _); [by exists 255, 255|]. cbv zeta.
  set (d2 := weighted _ _). set (near := JS.leb _ _).
  pose proof (round_ramp_byte (default 0%Q d2) (T * (7 # 10)) (T * (3 # 10))) as Hr.
  pose proof (round_ramp_byte (default 0%Q d2) (T' * (7 # 10)) (T' * (3 # 10))) as Hr'.
  pose proof (round_ramp_anti (default 0%Q d2) T T' (7 # 10) (3 # 10) HT) as Hanti.
  destruct (JS.sqrt_le_nan d2 (T * (7 # 10))) eqn:HA.
  - rewrite (sqrt_le_nan_mono d2 _ (T' * (7 # 10))
               (scale_mono T T' (7 # 10) HT ltac:(done)) HA).
    by exists 0, 0.
  - destruct (JS.sqrt_le_nan d2 T) eqn:HB.
    + rewrite (sqrt_le_nan_mono d2 T T' HT HB).
      destruct (JS.sqrt_le_nan d2 (T' * (7 # 10))), near; cbn [andb]; eexists _, _;
        (split; [reflexivity|split; [reflexivity|]]);
        rewrite ?Z.mod_small by lia; try lia. apply Hanti; done.
    + cbn [andb].
      destruct (JS.sqrt_le_nan d2 (T' * (7 # 10))); [by exists 0, 255|].
      destruct (JS.sqrt_le_nan d2 T' && near); eexists _, _;
        (split; [reflexivity|split; [reflexivity|]]);
        rewrite ?Z.mod_small by lia; lia.
Qed.

End Tolerance.

(** X18. Raising the tolerance never makes a pixel more opaque: for
    [T <= T'], at every pixel the mask [createProtectedMask] builds with
    tolerance [T'] holds at most the byte of the mask built with [T], and
    the same holds for [createEnhancedProtectedMask]. *)
Theorem raising_the_tolerance_removes_more (data : list Z) (w h ch : Z)
    (target : ImageProcessor.Color) (T T' : Q) :
  (T <= T')%Q ->
  mask_le (ImageProcessor.createProtectedMask data w h ch target T')
          (ImageProcessor.createProtectedMask data w h ch target T) w h /\
  mask_le (ImageProcessor.createEnhancedProtectedMask data w h ch target T')
          (ImageProcessor.createEnhancedProtectedMask data w h ch target T) w h.
Proof.
  intros HT. split; intros x y Him; pose proof (index_range w h x y Him) as Hi.
  - rewrite !createProtectedMask_get by done. by apply plain_store_anti.
  - rewrite !createEnhancedProtectedMask_get by done. by apply enhanced_store_anti.
Qed.

Lemma raising_the_tolerance_removes_more_witness :
  let grey := {| ImageProcessor.r := Some 195; ImageProcessor.g := Some 195;
                 ImageProcessor.b := Some 195 |} in
  mask_le (ImageProcessor.createProtectedMask (replicate 48 200) 4 4 3 grey 55)
          (ImageProcessor.createProtectedMask (replicate 48 200) 4 4 3 grey 35) 4 4.
Proof.
  intros grey.
  refine (proj1 (raising_the_tolerance_removes_more (replicate 48 200) 4 4 3 grey 35 55 _)).
  done.
Defined.
(** ** The shape of the protected zone *)

Section ZoneShape.

Import ImageProcessor.

Lemma ratio_le_one (n d : R) : (0 < d)%R -> (n / d <= 1)%R <-> (n <= d)%R.
Proof.
  intros Hd. assert (Hq : (n / d * d = n)%R) by (field; lra).
  split; intros H; [nra|].
  apply Rmult_le_reg_r with d; [done|]. rewrite Hq. lra.
Qed.

(** The test of the ellipse on integers. *)
Lemma protected_zone_int w h x y :
  0 < Z.min w h ->
  protected_zone w h x y <->
  4 * ((2 * x - w) * (2 * x - w)) + 4 * ((2 * y - h) * (2 * y - h))
  <= Z.min w h * Z.min w h.
Proof.
  intros Hm. unfold protected_zone. cbv zeta. rewrite Qmin_inject.
  set (m := Z.min w h) in *.
  assert (HM : (0 < IZR m)%R) by (by apply IZR_lt).
  assert (Ha : ~ (inject_Z m * (25 # 100) == 0)%Q).
  { unfold Qeq. simpl. lia. }
  assert (Hreal :
    Q2R (((inject_Z x - inject_Z w / 2) / (inject_Z m * (25 # 100))) ^ 2 +
         ((inject_Z y - inject_Z h / 2) / (inject_Z m * (25 # 100))) ^ 2)
    = ((4 * ((2 * IZR x - IZR w) * (2 * IZR x - IZR w))
        + 4 * ((2 * IZR y - IZR h) * (2 * IZR y - IZR h))) / (IZR m * IZR m))%R).
  { unfold Qpower, Qpower_positive, pow_pos. simpl Pos.iter_op.
    rewrite Q2R_plus, !Q2R_mult, !Q2R_div, !Q2R_minus, !Q2R_div, !Q2R_mult,
      !Q2R_inject_Z by (done || (unfold Qeq; simpl; lia)).
    replace (Q2R (25 # 100)) with (25 / 100)%R by (unfold Q2R; simpl; lra).
    replace (Q2R 2) with 2%R by (unfold Q2R; simpl; lra).
    field. lra. }
  assert (HMM : (0 < IZR m * IZR m)%R) by nra.
  split.
  - intros Hz. apply Qle_Rle in Hz. rewrite Hreal in Hz.
    replace (Q2R 1) with 1%R in Hz by (unfold Q2R; simpl; lra).
    apply (proj1 (ratio_le_one _ _ HMM)) in Hz.
    apply le_IZR. rewrite !plus_IZR, !mult_IZR, !minus_IZR, !mult_IZR. exact Hz.
  - intros Hz. apply Rle_Qle. rewrite Hreal.
    replace (Q2R 1) with 1%R by (unfold Q2R; simpl; lra).
    apply (proj2 (ratio_le_one _ _ HMM)).
    apply IZR_le in Hz. rewrite !plus_IZR, !mult_IZR, !minus_IZR, !mult_IZR in Hz. exact Hz.
Qed.

Lemma square_bound c m : 0 <= m -> c * c <= m * m -> - m <= c <= m.
Proof.
  intros Hm Hc.
  destruct (Z_lt_le_dec m c) as [Hgt|Hle].
  { exfalso. assert (m * m < c * c) by nia. lia. }
  destruct (Z_lt_le_dec c (- m)) as [Hlt|Hge]; [|lia].
  exfalso. assert (m * m < c * c) by nia. lia.
Qed.

End ZoneShape.

(** X19. The protected zone is central.  Every pixel at which
    [createProtectedZone] stores 1 lies in the middle half of both axes
    ([width <= 4x <= 3 * width], [height <= 4y <= 3 * height]); when the
    image is more than 4 pixels wide and high such a pixel is never on
    the outer frame; and for an image at least 2 pixels wide and high
    the centre pixel [(floor(width / 2), floor(height / 2))] is in the
    zone. *)
Theorem protected_zone_is_central (w h : Z) :
  (forall x y, in_image w h x y ->
     JS.truthy (JS.get (ImageProcessor.createProtectedZone w h) (y * w + x)) = true ->
     w <= 4 * x <= 3 * w /\ h <= 4 * y <= 3 * h /\
     (4 < w -> 4 < h -> ~ on_border w h x y)) /\
  (2 <= w -> 2 <= h ->
   JS.get (ImageProcessor.createProtectedZone w h) ((h / 2) * w + w / 2) = Some 1).
Proof.
  split.
  - intros x y Him Hz. apply createProtectedZone_spec in Hz; [|done].
    assert (Hm : 0 < Z.min w h) by (unfold in_image in Him; lia).
    apply protected_zone_int in Hz; [|done].
    pose proof (Z.square_nonneg (2 * x - w)) as Hsx.
    pose proof (Z.square_nonneg (2 * y - h)) as Hsy.
    assert (Hx : - Z.min w h <= 2 * (2 * x - w) <= Z.min w h).
    { apply square_bound; [lia|].
      replace (2 * (2 * x - w) * (2 * (2 * x - w)))
        with (4 * ((2 * x - w) * (2 * x - w))) by ring.
      lia. }
    assert (Hy : - Z.min w h <= 2 * (2 * y - h) <= Z.min w h).
    { apply square_bound; [lia|].
      replace (2 * (2 * y - h) * (2 * (2 * y - h)))
        with (4 * ((2 * y - h) * (2 * y - h))) by ring.
      lia. }
    unfold in_image in Him. unfold on_border. lia.
  - intros Hw Hh.
    assert (Him : in_image w h (w / 2) (h / 2)).
    { unfold in_image. pose proof (Z.div_mod w 2). pose proof (Z.div_mod h 2).
      pose proof (Z.mod_pos_bound w 2). pose proof (Z.mod_pos_bound h 2). lia. }
    rewrite createProtectedZone_get by done.
    assert (Hz : zone_test w h (w / 2) (h / 2) = true); [|by rewrite Hz].
    apply zone_test_spec, protected_zone_int; [lia|].
    pose proof (Z.div_mod w 2). pose proof (Z.div_mod h 2).
    pose proof (Z.mod_pos_bound w 2). pose proof (Z.mod_pos_bound h 2).
    assert (Hex : 2 * (w / 2) - w = 0 \/ 2 * (w / 2) - w = -1) by lia.
    assert (Hey : 2 * (h / 2) - h = 0 \/ 2 * (h / 2) - h = -1) by lia.
    destruct (decide (3 <= Z.min w h)) as [Hbig|Hsmall].
    + assert (9 <= Z.min w h * Z.min w h) by nia.
      destruct Hex as [-> | ->], Hey as [-> | ->]; lia.
    + assert (Hmin : w = 2 \/ h = 2) by lia.
      destruct Hmin as [-> | ->].
      * rewrite Z.min_l by lia.
        change (2 * (2 / 2) - 2) with 0. destruct Hey as [-> | ->]; lia.
      * rewrite Z.min_r by lia.
        change (2 * (2 / 2) - 2) with 0. destruct Hex as [-> | ->]; lia.
Qed.

Lemma protected_zone_is_central_witness :
  in_image 8 8 4 4 /\
  JS.truthy (JS.get (ImageProcessor.createProtectedZone 8 8) (4 * 8 + 4)) = true /\
  ~ on_border 8 8 4 4 /\
  JS.get (ImageProcessor.createProtectedZone 8 8) ((8 / 2) * 8 + 8 / 2) = Some 1.
Proof.
  assert (Him : in_image 8 8 4 4) by (unfold in_image; lia).
  assert (Ht : JS.truthy (JS.get (ImageProcessor.createProtectedZone 8 8) (4 * 8 + 4)) = true)
    by (vm_compute; reflexivity).
  destruct (protected_zone_is_central 8 8) as [Hin Hc].
  destruct (Hin 4 4 Him Ht) as (_ & _ & Hb).
  split; [exact Him|]. split; [exact Ht|]. split; [apply Hb; lia|apply Hc; lia].
Defined.

(** ** The raster of the local synthesizer path *)

(** X20. The raster [enhancedLocalProcessing] encodes is
    [applyEnhancedMask] of the mask [createEnhancedAIMask] returns.
    Whatever the processed image, the original and the random draws, the
    alpha byte of that raster is 0 at every pixel on the outer frame or
    next to it; an image at most 4 pixels wide or at most 4 pixels high
    comes out fully transparent. *)
Theorem synthesized_raster_has_clear_frame (random : nat -> Q)
    (data originalData : list Z) (w h ch x y : Z) :
  in_image w h x y ->
  near_border w h x y \/ w <= 4 \/ h <= 4 ->
  JS.get (AIBackgroundRemover.applyEnhancedMask originalData
            (AIBackgroundRemover.createEnhancedAIMask random data w h ch) w h)
    ((y * w + x) * 4 + 3) = Some 0.
Proof.
  intros Him Hnb.
  assert (Hnear : near_border w h x y).
  { unfold near_border in *. unfold in_image in Him. lia. }
  rewrite applyEnhancedMask_at by (done || lia).
  unfold rgba_of, AIBackgroundRemover.createEnhancedAIMask. cbv zeta.
  by rewrite cleanup_near_border.
Qed.

Lemma synthesized_raster_has_clear_frame_witness :
  JS.get (AIBackgroundRemover.applyEnhancedMask (replicate 48 200)
            (AIBackgroundRemover.createEnhancedAIMask (fun _ => 0%Q)
               (replicate 64 200) 4 4 4) 4 4)
    ((2 * 4 + 2) * 4 + 3) = Some 0.
Proof.
  apply (synthesized_raster_has_clear_frame (fun _ => 0%Q)
           (replicate 64 200) (replicate 48 200) 4 4 4 2 2).
  - unfold in_image. lia.
  - right. left. lia.
Defined.

(** ** The background score *)

Section Score.

Context (data : list Z) (channels : Z) (targetColor : ImageProcessor.Color).

Lemma matchRatio_counts (tolerance : Q) (indices : list Q) (c : Z * Z) :
  0 <= c.1 <= c.2 ->
  let r := foldl (fun (c : Z * Z) (pixel : Q) =>
      let idx := (pixel * inject_Z channels)%Q in
      (if JS.sqrt_le_nan
            (ImageProcessor.euclid (ImageProcessor.atQ data idx) targetColor) tolerance
       then c.1 + 1 else c.1, c.2 + 1)) c indices in
  0 <= r.1 <= r.2.
Proof.
  revert c. induction indices as [|q l IH]; intros c Hc; [done|].
  simpl. apply IH. cbv zeta. simpl. destruct (JS.sqrt_le_nan _ _); simpl; lia.
Qed.

Lemma matchRatio_unit (tolerance : Q) (indices : list Q) :
  (0 <= ImageProcessor.matchRatio data channels targetColor tolerance indices <= 1)%Q.
Proof.
  unfold ImageProcessor.matchRatio.
  pose proof (matchRatio_counts tolerance indices (0, 0)) as H. cbv zeta in H.
  destruct (foldl _ (0, 0) indices) as [m t]. simpl in H.
  specialize (H ltac:(lia)).
  destruct (0 <? t) eqn:Ht; [|split; apply Qle_refl || done].
  apply Z.ltb_lt in Ht.
  assert (Hq : (0 < inject_Z t)%Q).
  { change (inject_Z 0 < inject_Z t)%Q. by rewrite <- Zlt_Qlt. }
  split.
  - apply Qle_shift_div_l; [done|]. rewrite Qmult_0_l.
    change (inject_Z 0 <= inject_Z m)%Q. rewrite <- Zle_Qle. lia.
  - apply Qle_shift_div_r; [done|]. rewrite Qmult_1_l.
    rewrite <- Zle_Qle. lia.
Qed.

Lemma matchRatio_none (tolerance : Q) (indices : list Q) :
  (forall idx, JS.sqrt_le_nan
     (ImageProcessor.euclid (ImageProcessor.atQ data idx) targetColor) tolerance = false) ->
  (ImageProcessor.matchRatio data channels targetColor tolerance indices == 0)%Q.
Proof.
  intros Hno. unfold ImageProcessor.matchRatio.
  assert (H : forall l c, c.1 = 0 ->
    (foldl (fun (c : Z * Z) (pixel : Q) =>
      let idx := (pixel * inject_Z channels)%Q in
      (if JS.sqrt_le_nan
            (ImageProcessor.euclid (ImageProcessor.atQ data idx) targetColor) tolerance
       then c.1 + 1 else c.1, c.2 + 1)) c l).1 = 0).
  { induction l as [|q l IH]; intros c Hc; [done|].
    simpl. apply IH. cbv zeta. by rewrite Hno. }
  specialize (H indices (0, 0) eq_refl).
  destruct (foldl _ (0, 0) indices) as [m t]. simpl in H. subst m.
  destruct (0 <? t); [|done].
  unfold Qdiv. by rewrite Qmult_0_l.
Qed.

End Score.

(** X21. The score [calculateEnhancedBackgroundScore] gives a colour
    lies between 0 and 1, as do its three factors (edge presence, corner
    concentration and centre absence).  A colour that is farther than
    the tolerance of 40 from the pixel at every index scores at most
    0.35, which is below the 0.5 [statisticalBackgroundSeparation]
    asks for. *)
Theorem background_score_bounds (data : list Z) (w h ch : Z)
    (target : ImageProcessor.Color) :
  let score := ImageProcessor.calculateEnhancedBackgroundScore data w h ch target in
  (0 <= score <= 1)%Q /\
  (0 <= ImageProcessor.calculateEdgePresence data w h ch target 40 <= 1)%Q /\
  (0 <= ImageProcessor.calculateCornerConcentration data w h ch target 40 <= 1)%Q /\
  (0 <= ImageProcessor.calculateCenterAbsence data w h ch target 40 <= 1)%Q /\
  ((forall idx, JS.sqrt_le_nan
      (ImageProcessor.euclid (ImageProcessor.atQ data idx) target) 40 = false) ->
   (score <= 35 # 100)%Q).
Proof.
  assert (He : (0 <= ImageProcessor.calculateEdgePresence data w h ch target 40 <= 1)%Q)
    by apply matchRatio_unit.
  assert (Hc : (0 <= ImageProcessor.calculateCornerConcentration data w h ch target 40 <= 1)%Q)
    by apply matchRatio_unit.
  assert (Ha : (0 <= ImageProcessor.calculateCenterAbsence data w h ch target 40 <= 1)%Q).
  { unfold ImageProcessor.calculateCenterAbsence. cbv zeta.
    pose proof (matchRatio_unit data ch target 40
      ((fun p : Q * Q => (p.2 * inject_Z w + p.1)%Q) <$>
       ImageProcessor.centerWindow w h
         (Qmin (inject_Z w) (inject_Z h) * (3 # 10))%Q)) as Hp.
    split; Lqa.lra. }
  cbv zeta. split; [|split; [done|split; [done|split; [done|]]]].
  - unfold ImageProcessor.calculateEnhancedBackgroundScore. cbv zeta.
    split.
    + apply Q.min_glb; [|done].
      destruct (_ || _); Lqa.lra.
    + apply Q.le_min_r.
  - intros Hno.
    assert (He0 : (ImageProcessor.calculateEdgePresence data w h ch target 40 == 0)%Q)
      by (by apply matchRatio_none).
    assert (Hc0 : (ImageProcessor.calculateCornerConcentration data w h ch target 40 == 0)%Q)
      by (by apply matchRatio_none).
    unfold ImageProcessor.calculateEnhancedBackgroundScore. cbv zeta.
    eapply Qle_trans; [apply Q.le_min_l|].
    destruct (_ || _); Lqa.lra.
Qed.

Lemma getQ_elem (l : list Z) (q : Q) (v : Z) : JS.getQ l q = Some v -> v ∈ l.
Proof.
  unfold JS.getQ, JS.get. destruct (JS.is_int q) as [i|]; [|done].
  destruct (i <? 0); [done|]. apply list_elem_of_lookup_2.
Qed.

Lemma background_score_bounds_witness :
  let white := {| ImageProcessor.r := Some 255; ImageProcessor.g := Some 255;
                  ImageProcessor.b := Some 255 |} in
  let black := [0; 0; 0] in
  (ImageProcessor.calculateEnhancedBackgroundScore black 1 1 3 white <= 35 # 100)%Q.
Proof.
  intros white black.
  apply (proj2 (proj2 (proj2 (proj2
           (background_score_bounds black 1 1 3 white))))).
  intros idx. unfold ImageProcessor.atQ, ImageProcessor.euclid, white, black. simpl.
  assert (Hz : forall q v, JS.getQ [0; 0; 0] q = Some v -> v = 0).
  { intros q v Hq. apply getQ_elem in Hq. set_solver. }
  destruct (JS.getQ _ idx) as [a|] eqn:Ea; [|done].
  destruct (JS.getQ _ (idx + 1)) as [b|] eqn:Eb; [|done].
  destruct (JS.getQ _ (idx + 2)) as [c|] eqn:Ec; [|done].
  apply Hz in Ea, Eb, Ec. subst. reflexivity.
Defined.
